(** * NehoID: checksum engine, collision-safe loop, encoder and encoding pipeline

    A shallow embedding of the algorithmic core of the NehoID TypeScript
    sources:

    - [src/mods/checksum.ts]      (modules [Checksum], [ChecksumTry])
    - [src/core/generator.ts]     (modules [Generator], [Generators])
    - the processor wrapper       (module [Wrapper])
    - the encoder                 (modules [Encoder], [EncoderEncode])
    - the encoding pipeline       (module [Pipeline])
    - [src/core/specialized.ts]   (module [Specialized])
    - [src/mods/specialized.ts]   (module [Pattern])

    JavaScript strings are sequences of UTF-16 code units and are modelled
    as [list Z]; JavaScript exceptions are modelled by the [res] type. *)

From Stdlib Require Import ZArith Lia List String Ascii Bool.
From Stdlib Require DecimalString.
From stdpp Require Import base option list gmap.

Local Open Scope Z_scope.

(* ------------------------------------------------------------------------- *)
(** ** JavaScript values used by the sources *)
(* ------------------------------------------------------------------------- *)

Module JS.

(** A JavaScript string: its UTF-16 code units. *)
Abbreviation jsstr := (list Z).

(** A string literal of the sources (ASCII text) as a JavaScript string. *)
Definition js (s : string) : jsstr :=
  map (fun a => Z.of_nat (nat_of_ascii a)) (list_ascii_of_string s).

(** The faults the modelled code can raise. *)
Inductive error : Type :=
| ChecksumError (msg : string)
| InvalidCharacterError          (* btoa / atob *)
| SyntaxError                    (* JSON.parse *)
| TypeError                      (* property access on undefined / null, call of a non-function *)
| Error (msg : string)           (* [new Error(msg)] *)
| External.                      (* a fault raised inside code outside the repository *)

(** Outcome of a call that may throw. *)
Inductive res (A : Type) : Type :=
| Ok (a : A)
| Throw (e : error).
Arguments Ok {A} a.
Arguments Throw {A} e.

(** Sequencing: a thrown fault skips the rest ([x ← r; k] below). *)
#[global] Instance res_bind : MBind res := fun A B k r =>
  match r with
  | Ok a => k a
  | Throw e => Throw e
  end.
#[global] Instance res_ret : MRet res := fun A a => Ok a.

(** A string-or-undefined value (the result of an out-of-range index, of a
    missing property, ...). *)
Inductive strU : Type :=
| Str (s : jsstr)
| Undefined.

(** [ToString] on such a value, as done by string concatenation. *)
Definition ToString (v : strU) : jsstr :=
  match v with
  | Str s => s
  | Undefined => js "undefined"
  end.

(** [ToInt32] and [ToUint32] of an integral number. *)
Definition ToInt32 (z : Z) : Z := (z + 2 ^ 31) mod 2 ^ 32 - 2 ^ 31.
Definition ToUint32 (z : Z) : Z := z mod 2 ^ 32.

(** The 32-bit operators of JavaScript on integral numbers. *)
Definition shl (a n : Z) : Z := ToInt32 (Z.shiftl (ToInt32 a) (n mod 32)).
Definition ushr (a n : Z) : Z := Z.shiftr (ToUint32 a) (n mod 32).
Definition bor (a b : Z) : Z := Z.lor (ToInt32 a) (ToInt32 b).
Definition band (a b : Z) : Z := Z.land (ToInt32 a) (ToInt32 b).
Definition bxor (a b : Z) : Z := Z.lxor (ToInt32 a) (ToInt32 b).
Definition imul (a b : Z) : Z := ToInt32 (ToInt32 a * ToInt32 b).

(** Decimal rendering of an integral number ([String(n)], template literals). *)
Definition show_Z (z : Z) : string :=
  DecimalString.NilZero.string_of_int (Z.to_int z).

(** [s.includes(c)] for a one-character needle. *)
Definition includes (s : jsstr) (c : Z) : bool :=
  existsb (Z.eqb c) s.

(** [s.toLowerCase()] restricted to the ASCII range: only [A-Z] are mapped.
    It is applied in the sources to strings already known to be ASCII
    alphanumeric. *)
Definition toLowerCase (s : jsstr) : jsstr :=
  map (fun c => if (65 <=? c) && (c <=? 90) then c + 32 else c) s.

(** [s.padStart(n, "0")]. *)
Definition padStart0 (s : jsstr) (n : Z) : jsstr :=
  replicate (Z.to_nat (n - Z.of_nat (length s))) 48 ++ s.

(** [s.substring(0, n)] for an integral [n]. *)
Definition substring0 (s : jsstr) (n : Z) : jsstr :=
  take (Z.to_nat n) s.

End JS.
Import JS.

(* ------------------------------------------------------------------------- *)
(** ** The platform's [btoa] and [atob] *)
(* ------------------------------------------------------------------------- *)

Module Base64.

Definition alphabet : jsstr :=
  js "ABCDEFGHIJKLMNOPQRSTUVWXYZabcdefghijklmnopqrstuvwxyz0123456789+/".

(** The character of a 6-bit value. *)
Definition char_of (n : Z) : Z := nth (Z.to_nat n) alphabet 0.

(** The 6-bit value of a character of the alphabet. *)
Definition value_of (c : Z) : option Z :=
  if (65 <=? c) && (c <=? 90) then Some (c - 65)
  else if (97 <=? c) && (c <=? 122) then Some (c - 71)
  else if (48 <=? c) && (c <=? 57) then Some (c + 4)
  else if c =? 43 then Some 62
  else if c =? 47 then Some 63
  else None.

(** Bytes to 6-bit groups: three bytes give four groups, a rest of one or
    two bytes gives two or three. *)
Fixpoint sextets (bytes : list Z) : list Z :=
  match bytes with
  | a :: b :: c :: rest =>
      a / 4 :: (a mod 4) * 16 + b / 16 :: (b mod 16) * 4 + c / 64 :: c mod 64
        :: sextets rest
  | [a; b] => [a / 4; (a mod 4) * 16 + b / 16; (b mod 16) * 4]
  | [a] => [a / 4; (a mod 4) * 16]
  | [] => []
  end.

(** 6-bit groups back to bytes; the bits left over at the end are dropped. *)
Fixpoint bytes (sx : list Z) : list Z :=
  match sx with
  | a :: b :: c :: d :: rest =>
      a * 4 + b / 16 :: (b mod 16) * 16 + c / 4 :: (c mod 4) * 64 + d
        :: bytes rest
  | [a; b; c] => [a * 4 + b / 16; (b mod 16) * 16 + c / 4]
  | [a; b] => [a * 4 + b / 16]
  | _ => []
  end.

Definition padding (n : nat) : jsstr :=
  match (n mod 3)%nat with
  | 1%nat => [61; 61]
  | 2%nat => [61]
  | _ => []
  end.

(** [btoa(s)]: fails on a code unit above 255. *)
Definition btoa (s : jsstr) : res jsstr :=
  if forallb (fun c => c <=? 255) s
  then Ok (map char_of (sextets s) ++ padding (length s))
  else Throw InvalidCharacterError.

Definition is_ascii_whitespace (c : Z) : bool :=
  (c =? 9) || (c =? 10) || (c =? 12) || (c =? 13) || (c =? 32).

(** Removal of one or two trailing [=] when the length is a multiple of 4. *)
Definition strip_padding (s : jsstr) : jsstr :=
  if (length s mod 4 =? 0)%nat then
    match reverse s with
    | a :: r =>
        if a =? 61 then
          match r with
          | b :: r' => if b =? 61 then reverse r' else reverse r
          | [] => reverse r
          end
        else s
    | [] => s
    end
  else s.

(** [atob(s)] (forgiving base64 decoding). *)
Definition atob (s : jsstr) : res jsstr :=
  let s := filter (fun c => is_ascii_whitespace c = false) s in
  let s := strip_padding s in
  if (length s mod 4 =? 1)%nat then Throw InvalidCharacterError
  else
    match mapM value_of s with
    | Some sx => Ok (bytes sx)
    | None => Throw InvalidCharacterError
    end.

(** Ranges of the values involved. *)
Definition is_byte (c : Z) : Prop := 0 <= c <= 255.
Definition is_sextet (n : Z) : Prop := 0 <= n < 64.

End Base64.

(* ------------------------------------------------------------------------- *)
(** ** src/mods/checksum.ts *)
(* ------------------------------------------------------------------------- *)

Module Checksum.

(** A [number] argument: either integral or not ([Number.isInteger]). *)
Inductive number : Type :=
| Int (z : Z)
| NotInt.

(** A value passed where the signature says [string]. *)
Inductive value : Type :=
| VNull
| VUndefined
| VString (s : jsstr)
| VOther (typeof : string).

Definition MAX_INPUT_LENGTH : Z := 1000000.
Definition MIN_CHECKSUM_LENGTH : Z := 1.
Definition MAX_CHECKSUM_LENGTH : Z := 16.
Definition VALID_ALGORITHMS : list string :=
  ["djb2"; "crc32"; "adler32"; "fnv1a"; "murmur3"]%string.

Definition includes_alg (algorithm : string) : bool :=
  existsb (String.eqb algorithm) VALID_ALGORITHMS.

(** [validateInput]: returns the validated string and length, or throws. *)
Definition validateInput (input : value) (algorithm : string) (len : number)
  : res (jsstr * Z) :=
  match input with
  | VNull | VUndefined => Throw (ChecksumError "Input cannot be null or undefined")
  | VOther ty => Throw (ChecksumError ("Input must be a string, got " ++ ty))
  | VString s =>
      if Z.of_nat (length s) >? MAX_INPUT_LENGTH then
        Throw (ChecksumError ("Input exceeds maximum length of "
                                ++ show_Z MAX_INPUT_LENGTH ++ " characters"))
      else if negb (includes_alg algorithm) then
        Throw (ChecksumError ("Invalid algorithm: " ++ algorithm
                 ++ ". Must be one of: djb2, crc32, adler32, fnv1a, murmur3"))
      else
        match len with
        | NotInt => Throw (ChecksumError "Length must be an integer")
        | Int l =>
            if (l <? MIN_CHECKSUM_LENGTH) || (l >? MAX_CHECKSUM_LENGTH) then
              Throw (ChecksumError ("Length must be between "
                       ++ show_Z MIN_CHECKSUM_LENGTH ++ " and "
                       ++ show_Z MAX_CHECKSUM_LENGTH ++ ", got " ++ show_Z l))
            else Ok (s, l)
        end
  end.

(** [djb2]. *)
Definition djb2 (str : jsstr) : Z :=
  ushr (fold_left (fun hash charCode => bor (shl hash 5 + hash + charCode) 0)
                  str 5381) 0.

(** The CRC table built by [getCRCTable]. *)
Definition crc_entry (i : Z) : Z :=
  ushr (fold_left
          (fun c (_ : nat) =>
             if band c 1 =? 0 then ushr c 1 else bxor 3988292384 (ushr c 1))
          (seq 0 8) i) 0.

Definition build_table : list Z :=
  map (fun i => crc_entry (Z.of_nat i)) (seq 0 256).

(** [getCRCTable] with the static [crcTableCache] passed explicitly. *)
Definition getCRCTable (cache : option (list Z)) : list Z * option (list Z) :=
  match cache with
  | Some t => (t, cache)
  | None => let t := build_table in (t, Some t)
  end.

(** [crc32], given the table. A missing entry reads as [undefined], which
    the xor turns into 0. *)
Definition crc32_with (crcTable : list Z) (str : jsstr) : Z :=
  ushr (bxor
          (fold_left
             (fun crc ch =>
                let byte := band ch 255 in
                bxor (ushr crc 8)
                     (nth (Z.to_nat (band (bxor crc byte) 255)) crcTable 0))
             str 4294967295)
          4294967295) 0.

Definition crc32 (str : jsstr) (cache : option (list Z))
  : Z * option (list Z) :=
  let '(t, cache') := getCRCTable cache in (crc32_with t str, cache').

(** [adler32]. *)
Definition adler32 (str : jsstr) : Z :=
  let MOD_ADLER := 65521 in
  let '(a, b) :=
    fold_left (fun '(a, b) ch =>
                 let a' := (a + ch) mod MOD_ADLER in
                 (a', (b + a') mod MOD_ADLER)) str (1, 0) in
  ushr (bor (shl b 16) a) 0.

(** [fnv1a]. *)
Definition fnv1a (str : jsstr) : Z :=
  let FNV_PRIME := 16777619 in
  let FNV_OFFSET_BASIS := 2166136261 in
  ushr (fold_left (fun hash ch => imul (bxor hash ch) FNV_PRIME)
                  str FNV_OFFSET_BASIS) 0.

(** [new TextEncoder().encode(str)]: UTF-8 of the string, a lone surrogate
    being replaced by U+FFFD. *)
Definition utf8_of_code_point (cp : Z) : list Z :=
  if cp <? 128 then [cp]
  else if cp <? 2048 then [192 + cp / 64; 128 + cp mod 64]
  else if cp <? 65536 then
    [224 + cp / 4096; 128 + (cp / 64) mod 64; 128 + cp mod 64]
  else
    [240 + cp / 262144; 128 + (cp / 4096) mod 64;
     128 + (cp / 64) mod 64; 128 + cp mod 64].

Fixpoint TextEncoder_encode (str : jsstr) : list Z :=
  match str with
  | [] => []
  | c :: rest =>
      if (55296 <=? c) && (c <=? 56319) then
        match rest with
        | d :: rest' =>
            if (56320 <=? d) && (d <=? 57343) then
              utf8_of_code_point (65536 + (c - 55296) * 1024 + (d - 56320))
                ++ TextEncoder_encode rest'
            else utf8_of_code_point 65533 ++ TextEncoder_encode rest
        | [] => utf8_of_code_point 65533
        end
      else if (56320 <=? c) && (c <=? 57343) then
        utf8_of_code_point 65533 ++ TextEncoder_encode rest
      else utf8_of_code_point c ++ TextEncoder_encode rest
  end.

Definition rotl (k r : Z) : Z := bor (shl k r) (ushr k (32 - r)).

(** The 4-byte block loop of [murmur3]: [for (i = 0; i < len - 3; i += 4)],
    i.e. as long as four bytes remain. *)
Fixpoint murmur3_blocks (bytes : list Z) (hash : Z) : Z :=
  match bytes with
  | b0 :: b1 :: b2 :: b3 :: rest =>
      let k := bor (bor (bor b0 (shl b1 8)) (shl b2 16)) (shl b3 24) in
      let k := imul k 3432918353 in
      let k := rotl k 15 in
      let k := imul k 461845907 in
      let hash := bxor hash k in
      let hash := rotl hash 13 in
      let hash := imul hash 5 + 3864292196 in
      murmur3_blocks rest hash
  | _ => hash
  end.

(** [murmur3] with the default seed 0. An out-of-range [bytes[j]] cannot
    occur in the tail, since [remainder <= len]. *)
Definition murmur3 (str : jsstr) : Z :=
  let bytes := TextEncoder_encode str in
  let len := Z.of_nat (length bytes) in
  let at_ (j : Z) := nth (Z.to_nat j) bytes 0 in
  let hash := murmur3_blocks bytes 0 in
  let remainder := band len 3 in
  let k := 0 in
  let k := if remainder >=? 3 then bxor k (shl (at_ (len - 3)) 16) else k in
  let k := if remainder >=? 2 then bxor k (shl (at_ (len - 2)) 8) else k in
  let hash :=
    if remainder >=? 1 then
      let k := bxor k (at_ (len - 1)) in
      let k := imul k 3432918353 in
      let k := rotl k 15 in
      let k := imul k 461845907 in
      bxor hash k
    else hash in
  let hash := bxor hash len in
  let hash := bxor hash (ushr hash 16) in
  let hash := imul hash 2246822507 in
  let hash := bxor hash (ushr hash 13) in
  let hash := imul hash 3266489909 in
  let hash := bxor hash (ushr hash 16) in
  ushr hash 0.

(** One base-36 digit as a character. *)
Definition digit36 (d : Z) : Z := if d <? 10 then 48 + d else 87 + d.

(** [n.toString(36)] for a non-negative integral [n]. *)
Fixpoint toString36_go (fuel : nat) (n : Z) (acc : jsstr) : jsstr :=
  let acc' := digit36 (n mod 36) :: acc in
  match fuel with
  | O => acc'
  | S fuel' => if n / 36 =? 0 then acc' else toString36_go fuel' (n / 36) acc'
  end.

Definition toString36 (n : Z) : jsstr :=
  toString36_go (Z.to_nat (Z.log2 n)) n [].

(** [generate], with the CRC table cache threaded through. Each hash is a
    finite number, so that the [Number.isFinite] guard never fires, and
    nothing in the [try] block throws but the [ChecksumError] of the
    [default] case, which the [catch] rethrows. *)
Definition generate (input : value) (algorithm : string) (len : number)
    (cache : option (list Z)) : res jsstr * option (list Z) :=
  match validateInput input algorithm len with
  | Throw e => (Throw e, cache)
  | Ok (s, l) =>
      let '(hash, cache') :=
        if String.eqb algorithm "djb2" then (Ok (djb2 s), cache)
        else if String.eqb algorithm "crc32" then
          let '(h, c) := crc32 s cache in (Ok h, c)
        else if String.eqb algorithm "adler32" then (Ok (adler32 s), cache)
        else if String.eqb algorithm "fnv1a" then (Ok (fnv1a s), cache)
        else if String.eqb algorithm "murmur3" then (Ok (murmur3 s), cache)
        else (Throw (ChecksumError ("Unsupported algorithm: " ++ algorithm)),
              cache) in
      match hash with
      | Throw e => (Throw e, cache')
      | Ok hash =>
          let hashStr := toString36 (Z.abs hash) in
          if Z.of_nat (length hashStr) <? l then (Ok (padStart0 hashStr l), cache')
          else (Ok (substring0 hashStr l), cache')
      end
  end.

(** The test [/^[0-9a-z]+$/i] (no [u] flag: only ASCII letters match). *)
Definition is_base36_char (c : Z) : bool :=
  ((48 <=? c) && (c <=? 57)) || ((97 <=? c) && (c <=? 122))
  || ((65 <=? c) && (c <=? 90)).

Definition base36_regex_test (s : jsstr) : bool :=
  match s with
  | [] => false
  | _ => forallb is_base36_char s
  end.

Definition jsstr_eqb (a b : jsstr) : bool :=
  bool_decide (a = b).

(** [validate]. *)
Definition validate (input : value) (checksum : value) (algorithm : string)
    (len : number) (cache : option (list Z)) : res bool * option (list Z) :=
  match checksum with
  | VNull | VUndefined =>
      (Throw (ChecksumError "Checksum cannot be null or undefined"), cache)
  | VOther ty =>
      (Throw (ChecksumError ("Checksum must be a string, got " ++ ty)), cache)
  | VString cs =>
      if Z.of_nat (length cs) =? 0 then
        (Throw (ChecksumError "Checksum cannot be empty"), cache)
      else if negb (base36_regex_test cs) then
        (Throw (ChecksumError
           "Checksum contains invalid characters (must be base36: 0-9, a-z)"),
         cache)
      else
        match generate input algorithm len cache with
        | (Throw e, cache') => (Throw e, cache')
        | (Ok expected, cache') =>
            (Ok (jsstr_eqb (toLowerCase expected) (toLowerCase cs)), cache')
        end
  end.

(** The static cache only ever holds nothing or the built table. *)
Definition cache_ok (cache : option (list Z)) : Prop :=
  cache = None \/ cache = Some build_table.

(** The constraints checked by [validateInput]. *)
Definition valid_args (s : jsstr) (algorithm : string) (l : Z) : Prop :=
  Z.of_nat (length s) <= MAX_INPUT_LENGTH /\
  In algorithm VALID_ALGORITHMS /\
  MIN_CHECKSUM_LENGTH <= l <= MAX_CHECKSUM_LENGTH.

(** The 32-bit hash selected by [generate], given the CRC table in use. *)
Definition hash_of (algorithm : string) (s : jsstr) (table : list Z) : Z :=
  if String.eqb algorithm "djb2" then djb2 s
  else if String.eqb algorithm "crc32" then crc32_with table s
  else if String.eqb algorithm "adler32" then adler32 s
  else if String.eqb algorithm "fnv1a" then fnv1a s
  else murmur3 s.

(** The formatting step of [generate]. *)
Definition format36 (hash l : Z) : jsstr :=
  let hashStr := toString36 hash in
  if Z.of_nat (length hashStr) <? l then padStart0 hashStr l
  else substring0 hashStr l.

(** Digits produced by [toString] in radix 36: [0-9a-z]. *)
Definition is_lower36 (c : Z) : bool :=
  ((48 <=? c) && (c <=? 57)) || ((97 <=? c) && (c <=? 122)).

End Checksum.

(* ------------------------------------------------------------------------- *)
(** ** src/core/generator.ts *)
(* ------------------------------------------------------------------------- *)

Module Generator.

(** What a run of [safe] does, in order. *)
Inductive event : Type :=
| Generated (id : jsstr)        (* [this.generate()] returned [id] *)
| Checked (id : jsstr)          (* [options.checkFunction(id)] was awaited *)
| Slept (ms : Z).               (* [setTimeout(resolve, ms)] was awaited *)

(** [CollisionStrategy]. The check function is given the number of earlier
    calls, so that it may answer differently from call to call; it may
    reject ([Throw]). *)
Record CollisionStrategy : Type := {
  name : string;
  maxAttempts : Z;
  backoffType : string;
  checkFunction : nat -> jsstr -> res bool;
}.

Section Random.

(** [random_index k n] is the value of [Math.floor(Math.random() * n)] at
    the [k]-th draw. *)
Variable random_index : nat -> Z -> Z.

(** [Array.from({ length }, () => alphabet[...]).join("")], drawing from
    draw number [k] on. An index outside the alphabet reads [undefined],
    which [join] renders as the empty string. No statement of the function
    throws. *)
Definition generateRandomString (k : nat) (len : Z) (alphabet : jsstr)
  : res jsstr :=
  Ok (concat
        (map (fun i =>
                match alphabet !! Z.to_nat
                        (random_index (k + i) (Z.of_nat (length alphabet))) with
                | Some c =>
                    if 0 <=? random_index (k + i) (Z.of_nat (length alphabet))
                    then [c] else []
                | None => []
                end)
             (seq 0 (Z.to_nat len)))).

End Random.

Section Safe.

(** [generate k] is the identifier returned by the [k]-th call of
    [this.generate()] (default options, random). *)
Variable generate : nat -> jsstr.

Definition backoff (options : CollisionStrategy) (attempts : Z) : Z :=
  if String.eqb (backoffType options) "exponential"
  then 2 ^ attempts
  else 100 * attempts.

Definition exhausted (options : CollisionStrategy) : error :=
  Error ("Failed to generate unique ID after "
           ++ show_Z (maxAttempts options) ++ " attempts").

(** The [while] loop of [safe]; [fuel] bounds the number of iterations and
    [None] means the bound was hit. *)
Fixpoint safe_loop (options : CollisionStrategy) (fuel : nat) (attempts : Z)
  : option (res jsstr * list event) :=
  if attempts <? maxAttempts options then
    match fuel with
    | O => None
    | S fuel' =>
        let id := generate (Z.to_nat attempts) in
        match checkFunction options (Z.to_nat attempts) id with
        | Throw e => Some (Throw e, [Generated id; Checked id])
        | Ok true => Some (Ok id, [Generated id; Checked id])
        | Ok false =>
            let attempts := attempts + 1 in
            match safe_loop options fuel' attempts with
            | None => None
            | Some (r, tr) =>
                Some (r, Generated id :: Checked id
                           :: Slept (backoff options attempts) :: tr)
            end
        end
    end
  else Some (Throw (exhausted options), []).

(** [safe]: the loop from [attempts = 0]. *)
Definition safe (options : CollisionStrategy)
  : option (res jsstr * list event) :=
  safe_loop options (Z.to_nat (maxAttempts options)) 0.

End Safe.

(** A run in which every check answers [false]: the events, attempt by
    attempt, from [attempts] on. Each failed attempt is followed by its
    delay, the last one included. *)
Fixpoint failing_run (generate : nat -> jsstr) (options : CollisionStrategy)
    (n : nat) (attempts : Z) : list event :=
  match n with
  | O => []
  | S n' =>
      Generated (generate (Z.to_nat attempts))
        :: Checked (generate (Z.to_nat attempts))
        :: Slept (backoff options (attempts + 1))
        :: failing_run generate options n' (attempts + 1)
  end.

(** The candidates generated, the candidates checked and the delays of a
    run. *)
Definition generated (tr : list event) : list jsstr :=
  omap (fun e => match e with Generated id => Some id | _ => None end) tr.
Definition checked (tr : list event) : list jsstr :=
  omap (fun e => match e with Checked id => Some id | _ => None end) tr.
Definition delays (tr : list event) : list Z :=
  omap (fun e => match e with Slept ms => Some ms | _ => None end) tr.

(** "A delay occurs only between two attempts": every delay of the run is
    directly followed by the generation of the next candidate. *)
Definition delays_between_attempts (tr : list event) : Prop :=
  forall i ms, tr !! i = Some (Slept ms) ->
               exists id, tr !! S i = Some (Generated id).

End Generator.

(* ------------------------------------------------------------------------- *)
(** ** Values parsed from JSON, and what lies outside the repository *)
(* ------------------------------------------------------------------------- *)

Module Json.

(** A value as [JSON.parse] builds it. A number keeps its numeral; the fields
    of an object are in textual order. *)
#[warnings="-register-all"]
Inductive json : Type :=
| JNull
| JBool (b : bool)
| JNum (numeral : jsstr)
| JString (s : jsstr)
| JArray (items : list json)
| JObject (fields : list (jsstr * json)).

(** [o[key]] on the fields of a parsed object: a later duplicate wins;
    [None] is [undefined]. *)
Fixpoint get_field (key : jsstr) (fields : list (jsstr * json)) : option json :=
  match fields with
  | [] => None
  | (k, v) :: rest =>
      match get_field key rest with
      | Some v' => Some v'
      | None => if bool_decide (k = key) then Some v else None
      end
  end.

End Json.
Import Json.

Module Platform.

(** The object exported as [__processor__] by the package
    [nehonix-uri-processor]. *)
Record Processor : Type := {
  p_encode : jsstr -> jsstr -> res jsstr;
  p_decode : strU -> json -> res strU;
  (** the [encoded] fields of the [results] of [encodeMultiple] *)
  p_encodeMultiple : jsstr -> list jsstr -> res (list jsstr);
  (** [autoDetectAndDecode(input).val()] *)
  p_autoDetectAndDecode : strU -> res strU;
}.

(** Everything the modelled code calls that is not part of the repository. *)
Record Platform : Type := {
  JSON_parse : jsstr -> res json;
  JSON_stringify : json -> jsstr;
  (** the relational test [v > 0] on a parsed value *)
  gt0 : json -> bool;
  (** the property key a non-string parsed value is converted to *)
  key_of : json -> jsstr;
  (** a member that an object literal inherits under this key, applied to
      one argument, if there is such a member *)
  inherited_member : jsstr -> option (strU -> res strU);
  (** the package as imported by the pipeline *)
  lib : Processor;
  (** the package as obtained by the wrapper's [require]: absent in a
      browser or when the package is not installed *)
  processor : option Processor;
}.

End Platform.
Import Platform.

(* ------------------------------------------------------------------------- *)
(** ** The processor wrapper (fallback encoders and decoders) *)
(* ------------------------------------------------------------------------- *)

Module Wrapper.

(** The first code unit of each element of [Array.from(str)] (iteration by
    code points: a surrogate pair is one element). *)
Fixpoint first_units (str : jsstr) : list Z :=
  match str with
  | [] => []
  | c :: rest =>
      if (55296 <=? c) && (c <=? 56319) then
        match rest with
        | d :: rest' =>
            if (56320 <=? d) && (d <=? 57343) then c :: first_units rest'
            else c :: first_units rest
        | [] => [c]
        end
      else c :: first_units rest
  end.

Definition hex_digit (d : Z) : Z := if d <? 10 then 48 + d else 87 + d.

(** [n.toString(16)] for a code unit. *)
Definition toString16 (n : Z) : jsstr :=
  if n <? 16 then [hex_digit n]
  else if n <? 256 then [hex_digit (n / 16); hex_digit (n mod 16)]
  else if n <? 4096 then
    [hex_digit (n / 256); hex_digit ((n / 16) mod 16); hex_digit (n mod 16)]
  else [hex_digit (n / 4096); hex_digit ((n / 256) mod 16);
        hex_digit ((n / 16) mod 16); hex_digit (n mod 16)].

Definition padStart2 (s : jsstr) : jsstr :=
  match s with
  | [d] => [48; d]
  | _ => s
  end.

Definition ALPHABET58 : jsstr :=
  js "123456789ABCDEFGHJKLMNPQRSTUVWXYZabcdefghijkmnopqrstuvwxyz".

(** The [while (num > 0)] loops of the base58 functions: the digits of [num]
    in the given base, most significant first. *)
Fixpoint digits_go (base : Z) (fuel : nat) (num : Z) (acc : list Z) : list Z :=
  match fuel with
  | O => acc
  | S fuel' =>
      if 0 <? num then digits_go base fuel' (num / base) (num mod base :: acc)
      else acc
  end.

Definition digits (base num : Z) : list Z :=
  digits_go base (S (Z.to_nat (Z.log2 num))) num [].

(** [fallbackEncoders]. The base64 entries are modelled on a platform that
    has [btoa] and [atob], which the encoder and the pipeline call directly
    anyway. *)
Definition encode_base64 (str : jsstr) : res jsstr := Base64.btoa str.

Definition encode_hex (str : jsstr) : res jsstr :=
  Ok (concat (map (fun c => padStart2 (toString16 c)) (first_units str))).

Definition encode_rawHex (str : jsstr) : res jsstr := Ok str.

Definition encode_base58 (str : jsstr) : res jsstr :=
  let bytes := first_units str in
  let num := fold_left (fun num byte => num * 256 + byte) bytes 0 in
  let encoded := map (fun r => nth (Z.to_nat r) ALPHABET58 0) (digits 58 num) in
  Ok (match encoded with [] => [49] | _ => encoded end).

Definition fallbackEncoders (key : jsstr) : option (jsstr -> res jsstr) :=
  if bool_decide (key = js "base64") then Some encode_base64
  else if bool_decide (key = js "hex") then Some encode_hex
  else if bool_decide (key = js "rawHex") then Some encode_rawHex
  else if bool_decide (key = js "base58") then Some encode_base58
  else None.

(** A line terminator: not matched by [.] in [/.{1,2}/g]. *)
Definition is_line_terminator (c : Z) : bool :=
  (c =? 10) || (c =? 13) || (c =? 8232) || (c =? 8233).

(** [str.match(/.{1,2}/g) || []]. *)
Fixpoint hex_chunks (str : jsstr) : list jsstr :=
  match str with
  | [] => []
  | a :: rest =>
      if is_line_terminator a then hex_chunks rest
      else
        match rest with
        | b :: rest' =>
            if is_line_terminator b then [a] :: hex_chunks rest'
            else [a; b] :: hex_chunks rest'
        | [] => [[a]]
        end
  end.

(** White space skipped by [parseInt] (line terminators cannot occur in a
    chunk). *)
Definition is_white_space (c : Z) : bool :=
  (c =? 9) || (c =? 11) || (c =? 12) || (c =? 32) || (c =? 160)
  || (c =? 5760) || ((8192 <=? c) && (c <=? 8202)) || (c =? 8239)
  || (c =? 8287) || (c =? 12288) || (c =? 65279).

Definition hex_value (c : Z) : option Z :=
  if (48 <=? c) && (c <=? 57) then Some (c - 48)
  else if (97 <=? c) && (c <=? 102) then Some (c - 87)
  else if (65 <=? c) && (c <=? 70) then Some (c - 55)
  else None.

(** The longest prefix of hexadecimal digits, as a number; [None] if there
    is no digit. *)
Fixpoint hex_prefix (s : jsstr) (acc : option Z) : option Z :=
  match s with
  | [] => acc
  | c :: rest =>
      match hex_value c with
      | Some d => hex_prefix rest (Some (default 0 acc * 16 + d))
      | None => acc
      end
  end.

Fixpoint drop_white_space (s : jsstr) : jsstr :=
  match s with
  | c :: rest => if is_white_space c then drop_white_space rest else s
  | [] => []
  end.

(** [parseInt(s, 16)]; [None] is [NaN]. *)
Definition parseInt16 (s : jsstr) : option Z :=
  let s := drop_white_space s in
  let '(sign, s) :=
    match s with
    | 45 :: r => (-1, r)
    | 43 :: r => (1, r)
    | _ => (1, s)
    end in
  let s :=
    match s with
    | 48 :: x :: r => if (x =? 120) || (x =? 88) then r else s
    | _ => s
    end in
  match hex_prefix s None with
  | Some n => Some (sign * n)
  | None => None
  end.

(** [String.fromCharCode(n)] for the result of [parseInt]. *)
Definition fromCharCode (n : option Z) : Z :=
  match n with
  | Some n => n mod 65536
  | None => 0
  end.

(** [fallbackDecoders]. *)
Definition decode_base64 (str : strU) : res strU :=
  r ← Base64.atob (ToString str); Ok (Str r).

Definition decode_hex (str : strU) : res strU :=
  match str with
  | Undefined => Throw TypeError
  | Str s => Ok (Str (map (fun byte => fromCharCode (parseInt16 byte))
                          (hex_chunks s)))
  end.

Definition decode_rawHex (str : strU) : res strU := Ok str.

Fixpoint index_of (c : Z) (l : list Z) (i : Z) : option Z :=
  match l with
  | [] => None
  | x :: rest => if x =? c then Some i else index_of c rest (i + 1)
  end.

Fixpoint base58_num (str : jsstr) (num : Z) : res Z :=
  match str with
  | [] => Ok num
  | c :: rest =>
      match index_of c ALPHABET58 0 with
      | None => Throw (Error "Invalid base58 character")
      | Some index => base58_num rest (num * 58 + index)
      end
  end.

Definition decode_base58 (str : strU) : res strU :=
  match str with
  | Undefined => Throw TypeError
  | Str s => num ← base58_num s 0; Ok (Str (digits 256 num))
  end.

Definition fallbackDecoders (key : jsstr) : option (strU -> res strU) :=
  if bool_decide (key = js "base64") then Some decode_base64
  else if bool_decide (key = js "hex") then Some decode_hex
  else if bool_decide (key = js "rawHex") then Some decode_rawHex
  else if bool_decide (key = js "base58") then Some decode_base58
  else None.

Section Processor.
Context (P : Platform).

Definition property_key (encoding : json) : jsstr :=
  match encoding with
  | JString s => s
  | _ => key_of P encoding
  end.

(** [__processor__.encode]. Its callers pass encoding names of type
    [ENC_TYPE], none of which names a member that an object literal
    inherits. *)
Definition encode (input : jsstr) (encoding : jsstr) : res jsstr :=
  match processor P with
  | Some p => p_encode p input encoding
  | None =>
      match fallbackEncoders encoding with
      | Some encoder => encoder input
      | None => Ok input
      end
  end.

(** [__processor__.decode]. *)
Definition decode (input : strU) (encoding : json) : res strU :=
  match processor P with
  | Some p => p_decode p input encoding
  | None =>
      match fallbackDecoders (property_key encoding) with
      | Some decoder => decoder input
      | None =>
          match inherited_member P (property_key encoding) with
          | Some decoder => decoder input
          | None => Ok input
          end
      end
  end.

(** The [map] of the fallback of [encodeMultiple]: the successive results. *)
Fixpoint encodeMultiple_fallback (result : jsstr) (encodings : list jsstr)
  : res (list jsstr) :=
  match encodings with
  | [] => Ok []
  | encoding :: rest =>
      result ← match fallbackEncoders encoding with
               | Some encoder => encoder result
               | None => Ok result
               end;
      results ← encodeMultiple_fallback result rest;
      Ok (result :: results)
  end.

(** [__processor__.encodeMultiple]. *)
Definition encodeMultiple (input : jsstr) (encodings : list jsstr)
  : res (list jsstr) :=
  match processor P with
  | Some p => p_encodeMultiple p input encodings
  | None => encodeMultiple_fallback input encodings
  end.

Definition is_hex_char (c : Z) : bool :=
  match hex_value c with Some _ => true | None => false end.

Definition is_base64_char (c : Z) : bool :=
  match Base64.value_of c with Some _ => true | None => false end.

(** The test [/^[A-Za-z0-9+/]+=*$/]. *)
Fixpoint base64Regex_test (s : jsstr) (seen : bool) : bool :=
  match s with
  | [] => seen
  | c :: rest =>
      if is_base64_char c then base64Regex_test rest true
      else seen && forallb (Z.eqb 61) s
  end.

(** [__processor__.autoDetectAndDecode(input).val()]. *)
Definition autoDetectAndDecode (input : strU) : res strU :=
  match processor P with
  | Some p => p_autoDetectAndDecode p input
  | None =>
      let text := ToString input in
      if match text with [] => false | _ => forallb is_hex_char text end
      then decode_hex input
      else if base64Regex_test text false && (length text mod 4 =? 0)%nat
      then decode_base64 input
      else Ok input
  end.

End Processor.

End Wrapper.

(* ------------------------------------------------------------------------- *)
(** ** The encoder ([Encoder]) *)
(* ------------------------------------------------------------------------- *)

Module Encoder.

(** *** [decode] *)

(** The loop of [decode] over the (already reversed) array. *)
Fixpoint decode_loop (P : Platform) (autoDetect : bool) (result : strU)
    (encodingArray : list json) : res strU :=
  match encodingArray with
  | [] => Ok result
  | encoding :: rest =>
      result ← (if autoDetect then Wrapper.autoDetectAndDecode P result
                else Wrapper.decode P result encoding);
      decode_loop P autoDetect result rest
  end.

(** [decode] on an array: the result, and the contents of the array after
    the call ([encodingArray.reverse()] reverses it in place). *)
Definition decode_array (P : Platform) (input : strU) (encodings : list json)
    (autoDetect : bool) : res strU * list json :=
  let reversed := reverse encodings in
  (decode_loop P autoDetect input reversed, reversed).

(** The [encodings] argument: one encoding, or a reference to an array that
    lives in the store and may be shared with the caller. *)
Inductive encodings_arg : Type :=
| Single (encoding : json)
| ArrayRef (l : positive).

(** [decode] with the arrays of the program in a store. A single encoding is
    wrapped in a fresh array, which nobody else sees. A reference always
    points into the store; the other case is there for totality only. *)
Definition decode (P : Platform) (store : gmap positive (list json))
    (input : strU) (encodings : encodings_arg) (autoDetect : bool)
  : res strU * gmap positive (list json) :=
  match encodings with
  | Single encoding => (fst (decode_array P input [encoding] autoDetect), store)
  | ArrayRef l =>
      match store !! l with
      | Some arr =>
          let '(r, arr') := decode_array P input arr autoDetect in
          (r, <[l := arr']> store)
      | None => (Throw TypeError, store)
      end
  end.

(** *** [compress] *)

(** The inner [while] of the LZ77 search: extends [length] as long as the
    characters at distance [offset] agree; it stops at 255. *)
Fixpoint match_length (input : jsstr) (i offset : nat) (fuel : nat)
    (length_ : nat) : nat :=
  match fuel with
  | O => length_
  | S fuel' =>
      if (i + length_ <? length input)%nat
         && bool_decide (input !! (i - offset + length_)%nat
                         = input !! (i + length_)%nat)
         && (length_ <? 255)%nat
      then match_length input i offset fuel' (S length_)
      else length_
  end.

(** One iteration of the [for] over the offsets: a strictly longer match
    replaces the best one so far. *)
Definition match_step (input : jsstr) (i : nat) :=
  fun '(maxLength, maxOffset) offset =>
    let length_ := match_length input i offset 255 0 in
    if (maxLength <? length_)%nat then (length_, offset)
    else (maxLength, maxOffset).

(** The [for] over the offsets [1 .. searchLimit]: the longest match and its
    offset (the first one among the longest). *)
Definition longest_match (input : jsstr) (i : nat) : nat * nat :=
  let searchLimit := Nat.min i 255 in
  fold_left (match_step input i) (seq 1 searchLimit) (0%nat, 0%nat).

(** The outer [while (i < input.length)]; [input !! i] is defined exactly
    when [i < input.length], and [fuel] bounds the number of iterations. *)
Fixpoint lz77_loop (input : jsstr) (fuel : nat) (i : nat) (compressed : jsstr)
  : jsstr :=
  match fuel with
  | O => compressed
  | S fuel' =>
      match input !! i with
      | None => compressed
      | Some c =>
          let '(maxLength, maxOffset) := longest_match input i in
          if (4 <=? maxLength)%nat then
            lz77_loop input fuel' (i + maxLength)
              (compressed ++ [255; Z.of_nat maxOffset; Z.of_nat maxLength])
          else if c =? 255 then
            lz77_loop input fuel' (i + 1) (compressed ++ [255; 0])
          else lz77_loop input fuel' (i + 1) (compressed ++ [c])
      end
  end.

Definition compress_lz77 (input : jsstr) : res jsstr :=
  Base64.btoa (lz77_loop input (length input) 0 []).

(** The initial dictionary of the LZW scheme: the 256 one-character strings.
    The dictionary of the sources is a plain object; a key it inherits (such as
    "valueOf") has at least 7 characters, and a sequence of 4 characters or
    more is only looked up after a code of 256 or more has been pushed, in
    which case the final [btoa] throws whatever the lookup answers. *)
Definition initial_dictionary : gmap jsstr Z :=
  list_to_map (map (fun i => ([Z.of_nat i], Z.of_nat i)) (seq 0 256)).

Record lzw_state : Type := {
  dictionary : gmap jsstr Z;
  nextCode : Z;
  result : list (option Z);      (* the pushed codes; [None] is [undefined] *)
  currentSequence : jsstr;
}.

(** One iteration of the [for] of the LZW compressor. *)
Definition lzw_step (st : lzw_state) (char : Z) : lzw_state :=
  let newSequence := currentSequence st ++ [char] in
  match dictionary st !! newSequence with
  | Some _ =>
      {| dictionary := dictionary st; nextCode := nextCode st;
         result := result st; currentSequence := newSequence |}
  | None =>
      let result' := result st ++ [dictionary st !! currentSequence st] in
      if nextCode st <? 65536 then
        {| dictionary := <[newSequence := nextCode st]> (dictionary st);
           nextCode := nextCode st + 1;
           result := result'; currentSequence := [char] |}
      else
        {| dictionary := dictionary st; nextCode := nextCode st;
           result := result'; currentSequence := [char] |}
  end.

(** The codes pushed by the LZW compressor. *)
Definition lzw_codes (input : jsstr) : list (option Z) :=
  let st := fold_left lzw_step input
              {| dictionary := initial_dictionary; nextCode := 256;
                 result := []; currentSequence := [] |} in
  match currentSequence st with
  | [] => result st
  | _ => result st ++ [dictionary st !! currentSequence st]
  end.

(** [String.fromCharCode(code)] for a pushed code. *)
Definition char_of_code (code : option Z) : Z :=
  match code with
  | Some c => c mod 65536
  | None => 0
  end.

Definition compress_gzip (input : jsstr) : res jsstr :=
  Base64.btoa (map char_of_code (lzw_codes input)).

(** [Encoder.compress]. *)
Definition compress (input : jsstr) (method : json) : res jsstr :=
  match input with
  | [] => Ok []
  | _ =>
      match method with
      | JString m =>
          if bool_decide (m = js "lz77") then compress_lz77 input
          else if bool_decide (m = js "gzip") then compress_gzip input
          else Ok input
      | _ => Ok input
      end
  end.

(** *** [decompress] *)

(** The copy loop [for (j = 0; j < length; j++) decompressed +=
    decompressed[start + j]]; [start] may be negative, and a character read
    outside the string is [undefined], appended as the text "undefined". *)
Fixpoint lz77_copy (decompressed : jsstr) (start : Z) (j : Z) (n : nat)
  : jsstr :=
  match n with
  | O => decompressed
  | S n' =>
      let ch :=
        if start + j <? 0 then Undefined
        else match decompressed !! Z.to_nat (start + j) with
             | Some c => Str [c]
             | None => Undefined
             end in
      lz77_copy (decompressed ++ ToString ch) start (j + 1) n'
  end.

(** The [while (i < compressed.length)] of the LZ77 decompressor, on the
    part of [compressed] from [i] on. *)
Fixpoint lz77_expand (rest : jsstr) (decompressed : jsstr) : jsstr :=
  match rest with
  | [] => decompressed
  | c :: rest1 =>
      if c =? 255 then
        match rest1 with
        | [] => decompressed
        | x :: rest2 =>
            if x =? 0 then lz77_expand rest2 (decompressed ++ [255])
            else
              match rest2 with
              | [] => lz77_expand rest1 decompressed
              | len :: rest3 =>
                  let start := Z.of_nat (length decompressed) - x in
                  lz77_expand rest3
                    (lz77_copy decompressed start 0 (Z.to_nat len))
              end
        end
      else lz77_expand rest1 (decompressed ++ [c])
  end.

(** The body of the [try] of the LZ77 case. *)
Definition decompress_lz77_try (input : jsstr) : res strU :=
  compressed ← Base64.atob input;
  Ok (Str (lz77_expand compressed [])).

(** [a + b[0]] and friends: the first character of a string, [undefined] for
    the empty string. *)
Definition first_char (s : jsstr) : strU :=
  match s with
  | c :: _ => Str [c]
  | [] => Undefined
  end.

(** The [for] of the LZW decompressor. [nextCode] is the length of the
    array [dictionary] (256 at the start, and both grow together), so the
    assignment [dictionary[nextCode++] = ...] appends. *)
Fixpoint lzw_expand (codes : list Z) (dictionary : list jsstr) (nextCode : Z)
    (character : strU) (result : jsstr) : res jsstr :=
  match codes with
  | [] => Ok result
  | code :: rest =>
      entry ←
        (if code <? Z.of_nat (length dictionary) then
           Ok (match dictionary !! Z.to_nat code with
               | Some e => Str e
               | None => Undefined
               end)
         else if code =? nextCode then
           match character with
           | Undefined => Throw TypeError
           | Str ch => Ok (Str (ch ++ ToString (first_char ch)))
           end
         else Throw (Error "Invalid code"));
      let result := result ++ ToString entry in
      if nextCode <? 65536 then
        match entry with
        | Undefined => Throw TypeError
        | Str e =>
            lzw_expand rest
              (dictionary ++ [ToString character ++ ToString (first_char e)])
              (nextCode + 1) entry result
        end
      else lzw_expand rest dictionary nextCode entry result
  end.

Definition initial_array : list jsstr :=
  map (fun i => [Z.of_nat i]) (seq 0 256).

(** The body of the [try] of the LZW case; the result is [undefined] when
    there is no first code. *)
Definition decompress_gzip_try (input : jsstr) : res strU :=
  compressed ← Base64.atob input;
  let codes := compressed in
  match codes with
  | [] => Ok Undefined
  | oldCode :: rest =>
      let character :=
        match initial_array !! Z.to_nat oldCode with
        | Some e => Str e
        | None => Undefined
        end in
      match character with
      | Undefined =>
          match rest with
          | [] => Ok Undefined
          | _ => r ← lzw_expand rest initial_array 256 Undefined
                                (js "undefined");
                 Ok (Str r)
          end
      | Str ch => r ← lzw_expand rest initial_array 256 character ch; Ok (Str r)
      end
  end.

(** [try { ... } catch (e) { return input }]. *)
Definition catch_return_input (input : jsstr) (body : res strU) : strU :=
  match body with
  | Ok v => v
  | Throw _ => Str input
  end.

(** [Encoder.decompress]. *)
Definition decompress (input : strU) (method : option json) : strU :=
  match input with
  | Undefined | Str [] => Str []
  | Str input =>
      match method with
      | Some (JString m) =>
          if bool_decide (m = js "lz77")
          then catch_return_input input (decompress_lz77_try input)
          else if bool_decide (m = js "gzip")
          then catch_return_input input (decompress_gzip_try input)
          else Str input
      | _ => Str input
      end
  end.

End Encoder.

(* ------------------------------------------------------------------------- *)
(** ** The encoding pipeline ([EncodingPipeline]) *)
(* ------------------------------------------------------------------------- *)

Module Pipeline.

(** The private fields of an [EncodingPipeline]. *)
Record EncodingPipeline : Type := {
  encoders : list jsstr;
  compressionMethod : jsstr;
  isReversible : bool;
  metadata : list (jsstr * json);
}.

(** [new EncodingPipeline()]. *)
Definition new : EncodingPipeline :=
  {| encoders := []; compressionMethod := js "none"; isReversible := false;
     metadata := [] |}.

Definition addEncoder (encoder : jsstr) (p : EncodingPipeline) :=
  {| encoders := encoders p ++ [encoder];
     compressionMethod := compressionMethod p;
     isReversible := isReversible p; metadata := metadata p |}.

Definition addEncoders (encs : list jsstr) (p : EncodingPipeline) :=
  {| encoders := encoders p ++ encs;
     compressionMethod := compressionMethod p;
     isReversible := isReversible p; metadata := metadata p |}.

Definition addCompression (method : jsstr) (p : EncodingPipeline) :=
  {| encoders := encoders p; compressionMethod := method;
     isReversible := isReversible p; metadata := metadata p |}.

Definition enableReversibility (p : EncodingPipeline) :=
  {| encoders := encoders p; compressionMethod := compressionMethod p;
     isReversible := true; metadata := metadata p |}.

Definition disableReversibility (p : EncodingPipeline) :=
  {| encoders := encoders p; compressionMethod := compressionMethod p;
     isReversible := false; metadata := metadata p |}.

(** [this.metadata[key] = value]: an existing key keeps its place. (The
    order in which [JSON.stringify] lists the keys is left to the platform;
    nothing below depends on it.) *)
Fixpoint set_field (key : jsstr) (value : json) (fields : list (jsstr * json))
  : list (jsstr * json) :=
  match fields with
  | [] => [(key, value)]
  | (k, v) :: rest =>
      if bool_decide (k = key) then (k, value) :: rest
      else (k, v) :: set_field key value rest
  end.

Definition addMetadata (key : jsstr) (value : json) (p : EncodingPipeline) :=
  {| encoders := encoders p; compressionMethod := compressionMethod p;
     isReversible := isReversible p;
     metadata := set_field key value (metadata p) |}.

(** The object [{ e, c, m }] that [process] serialises. *)
Definition config_of (p : EncodingPipeline) : json :=
  JObject [(js "e", JArray (map JString (encoders p)));
           (js "c", JString (compressionMethod p));
           (js "m", JObject (metadata p))].

Section WithPlatform.
Context (P : Platform).

(** [process]. *)
Definition process (p : EncodingPipeline) (input : jsstr) : res jsstr :=
  result ←
    (if (0 <? length (encoders p))%nat then
       results ← p_encodeMultiple (lib P) input (encoders p);
       match last results with
       | Some encoded => Ok encoded
       | None => Throw TypeError
       end
     else Ok input);
  result ←
    (if bool_decide (compressionMethod p <> js "none")
     then Encoder.compress result (JString (compressionMethod p))
     else Ok result);
  if isReversible p then
    configStr ← p_encode (lib P) (JSON_stringify P (config_of p)) (js "base64");
    Ok (configStr ++ js ":" ++ result)
  else Ok result.

(** [input.split(":")]: the pieces between the separators. *)
Fixpoint split_colon (input : jsstr) (piece : jsstr) : list jsstr :=
  match input with
  | [] => [piece]
  | c :: rest =>
      if c =? 58 then piece :: split_colon rest []
      else split_colon rest (piece ++ [c])
  end.

(** [const [configStr, content] = input.split(":", 2)]: the limit keeps the
    first two pieces. *)
Definition split2 (input : jsstr) : strU * strU :=
  match take 2 (split_colon input []) with
  | [configStr; content] => (Str configStr, Str content)
  | [configStr] => (Str configStr, Undefined)
  | _ => (Undefined, Undefined)
  end.

(** [v === "text"] for a property that was read. *)
Definition is_string (v : option json) (text : jsstr) : bool :=
  match v with
  | Some (JString s) => bool_decide (s = text)
  | _ => false
  end.

(** [config.e.length > 0], for whatever [config.e] is. *)
Definition has_encoders (e : option json) : res bool :=
  match e with
  | None | Some JNull => Throw TypeError
  | Some (JArray items) => Ok (0 <? length items)%nat
  | Some (JString s) => Ok (0 <? length s)%nat
  | Some (JObject fields) =>
      match get_field (js "length") fields with
      | Some v => Ok (gt0 P v)
      | None => Ok false
      end
  | Some (JBool _) | Some (JNum _) => Ok false
  end.

(** The body of the [try] of [reverse]. Reading a property of a parsed value
    that is not an object gives [undefined], of [null] a [TypeError]. *)
Definition reverse_try (input : jsstr) : res strU :=
  let '(configStr, content) := split2 input in
  decoded ← Base64.atob (ToString configStr);
  config ← JSON_parse P decoded;
  fields ← match config with
           | JNull => Throw TypeError
           | JObject fields => Ok fields
           | _ => Ok []
           end;
  let c := get_field (js "c") fields in
  let e := get_field (js "e") fields in
  let result := content in
  let result :=
    if negb (is_string c (js "none"))
    then Encoder.decompress result c
    else result in
  nonempty ← has_encoders e;
  if nonempty : bool then
    match e with
    | Some (JArray items) => fst (Encoder.decode_array P result items false)
    | Some encoding => fst (Encoder.decode_array P result [encoding] false)
    | None => Throw TypeError
    end
  else Ok result.

(** What [process] hands to the compression stage: the input itself when no
    encoder is configured, the last result of [encodeMultiple] otherwise. *)
Definition encodes_to (p : EncodingPipeline) (s encoded : jsstr) : Prop :=
  match encoders p with
  | [] => encoded = s
  | _ => exists results,
           p_encodeMultiple (lib P) s (encoders p) = Ok results
           /\ last results = Some encoded
  end.

(** The decoders of the wrapper undo the encoders of the package on [s]. *)
Definition decodes_back (p : EncodingPipeline) (s encoded : jsstr) : Prop :=
  Encoder.decode_loop P false (Str encoded)
    (list.reverse (map JString (encoders p))) = Ok (Str s).

(** The configuration prefix survives its way through the package's base64,
    [atob] and [JSON.parse]. *)
Definition config_survives (p : EncodingPipeline) (configStr : jsstr) : Prop :=
  p_encode (lib P) (JSON_stringify P (config_of p)) (js "base64")
    = Ok configStr
  /\ includes configStr 58 = false
  /\ exists text, Base64.atob configStr = Ok text
                  /\ JSON_parse P text = Ok (config_of p).

(** [reverse]: [None] is [null]. *)
Definition reverse (input : jsstr) : option strU :=
  if negb (includes input 58) then None
  else
    match reverse_try input with
    | Ok result => Some result
    | Throw _ => None
    end.

End WithPlatform.

End Pipeline.

(* ------------------------------------------------------------------------- *)
(** ** A platform to run the examples on *)
(* ------------------------------------------------------------------------- *)

Module Demo.

(** *** [JSON.stringify] on parsed values *)

Definition hex4 (c : Z) : jsstr :=
  [Wrapper.hex_digit (c / 4096); Wrapper.hex_digit ((c / 256) mod 16);
   Wrapper.hex_digit ((c / 16) mod 16); Wrapper.hex_digit (c mod 16)].

(** The characters of a quoted string: quote (34), backslash (92) and
    control characters are escaped, and so is a surrogate that has no
    partner. *)
Fixpoint quote_chars (s : jsstr) : jsstr :=
  match s with
  | [] => []
  | c :: rest =>
      if c =? 34 then [92; 34] ++ quote_chars rest
      else if c =? 92 then [92; 92] ++ quote_chars rest
      else if c =? 8 then [92; 98] ++ quote_chars rest
      else if c =? 9 then [92; 116] ++ quote_chars rest
      else if c =? 10 then [92; 110] ++ quote_chars rest
      else if c =? 12 then [92; 102] ++ quote_chars rest
      else if c =? 13 then [92; 114] ++ quote_chars rest
      else if c <? 32 then [92; 117] ++ hex4 c ++ quote_chars rest
      else if (55296 <=? c) && (c <=? 56319) then
        match rest with
        | d :: rest' =>
            if (56320 <=? d) && (d <=? 57343)
            then c :: d :: quote_chars rest'
            else [92; 117] ++ hex4 c ++ quote_chars rest
        | [] => [92; 117] ++ hex4 c
        end
      else if (56320 <=? c) && (c <=? 57343) then
        [92; 117] ++ hex4 c ++ quote_chars rest
      else c :: quote_chars rest
  end.

Definition quote (s : jsstr) : jsstr := [34] ++ quote_chars s ++ [34].

Fixpoint stringify (v : json) : jsstr :=
  match v with
  | JNull => js "null"
  | JBool true => js "true"
  | JBool false => js "false"
  | JNum numeral => numeral
  | JString s => quote s
  | JArray items =>
      js "["
      ++ (fix go (l : list json) : jsstr :=
            match l with
            | [] => []
            | [x] => stringify x
            | x :: r => stringify x ++ js "," ++ go r
            end) items
      ++ js "]"
  | JObject fields =>
      js "{"
      ++ (fix go (l : list (jsstr * json)) : jsstr :=
            match l with
            | [] => []
            | [(k, x)] => quote k ++ js ":" ++ stringify x
            | (k, x) :: r => quote k ++ js ":" ++ stringify x ++ js "," ++ go r
            end) fields
      ++ js "}"
  end.

(** *** [JSON.parse] *)

Fixpoint skip_ws (s : jsstr) : jsstr :=
  match s with
  | c :: rest =>
      if (c =? 9) || (c =? 10) || (c =? 13) || (c =? 32) then skip_ws rest
      else s
  | [] => []
  end.

(** The characters of a string up to its closing quote, and what follows. *)
Fixpoint parse_chars (s : jsstr) (acc : jsstr) : option (jsstr * jsstr) :=
  match s with
  | [] => None
  | c :: rest =>
      if c =? 34 then Some (acc, rest)
      else if c =? 92 then
        match rest with
        | e :: rest1 =>
            if (e =? 34) || (e =? 92) || (e =? 47)
            then parse_chars rest1 (acc ++ [e])
            else if e =? 98 then parse_chars rest1 (acc ++ [8])
            else if e =? 102 then parse_chars rest1 (acc ++ [12])
            else if e =? 110 then parse_chars rest1 (acc ++ [10])
            else if e =? 114 then parse_chars rest1 (acc ++ [13])
            else if e =? 116 then parse_chars rest1 (acc ++ [9])
            else if e =? 117 then
              match rest1 with
              | h1 :: h2 :: h3 :: h4 :: rest2 =>
                  match Wrapper.hex_value h1, Wrapper.hex_value h2,
                        Wrapper.hex_value h3, Wrapper.hex_value h4 with
                  | Some d1, Some d2, Some d3, Some d4 =>
                      parse_chars rest2
                        (acc ++ [d1 * 4096 + d2 * 256 + d3 * 16 + d4])
                  | _, _, _, _ => None
                  end
              | _ => None
              end
            else None
        | [] => None
        end
      else if c <? 32 then None
      else parse_chars rest (acc ++ [c])
  end.

Definition is_digit (c : Z) : bool := (48 <=? c) && (c <=? 57).

Fixpoint span_digits (s : jsstr) : jsstr * jsstr :=
  match s with
  | c :: rest =>
      if is_digit c then let '(ds, r) := span_digits rest in (c :: ds, r)
      else ([], s)
  | [] => ([], [])
  end.

(** A numeral: an optional minus sign, an integer part without leading
    zero, an optional fraction and an optional exponent. *)
Definition parse_number (s : jsstr) : option (jsstr * jsstr) :=
  let '(sign, s) := match s with 45 :: r => ([45], r) | _ => ([], s) end in
  let '(int, s) :=
    match s with
    | 48 :: r => ([48], r)
    | _ => span_digits s
    end in
  match int with
  | [] => None
  | _ =>
      fraction ←
        match s with
        | 46 :: r =>
            let '(ds, r') := span_digits r in
            match ds with [] => None | _ => Some (46 :: ds, r') end
        | _ => Some ([], s)
        end;
      let '(frac, s) := fraction in
      exponent ←
        match s with
        | e :: r =>
            if (e =? 101) || (e =? 69) then
              let '(sg, r) :=
                match r with
                | x :: r' => if (x =? 43) || (x =? 45) then ([x], r')
                             else ([], r)
                | [] => ([], r)
                end in
              let '(ds, r') := span_digits r in
              match ds with [] => None | _ => Some (e :: sg ++ ds, r') end
            else Some ([], s)
        | [] => Some ([], s)
        end;
      let '(exp, s) := exponent in
      Some (sign ++ int ++ frac ++ exp, s)
  end.

(** A value and what follows it; [parse_items] and [parse_fields] read the
    rest of an array or object after its first bracket. [fuel] bounds the
    nesting of the calls. *)
Fixpoint parse_value (fuel : nat) (s : jsstr) : option (json * jsstr) :=
  match fuel with
  | O => None
  | S fuel' =>
      match skip_ws s with
      | 110 :: 117 :: 108 :: 108 :: r => Some (JNull, r)
      | 116 :: 114 :: 117 :: 101 :: r => Some (JBool true, r)
      | 102 :: 97 :: 108 :: 115 :: 101 :: r => Some (JBool false, r)
      | 34 :: r =>
          match parse_chars r [] with
          | Some (str, r') => Some (JString str, r')
          | None => None
          end
      | 91 :: r =>
          match skip_ws r with
          | 93 :: r' => Some (JArray [], r')
          | r1 => parse_items fuel' r1 []
          end
      | 123 :: r =>
          match skip_ws r with
          | 125 :: r' => Some (JObject [], r')
          | r1 => parse_fields fuel' r1 []
          end
      | r =>
          match parse_number r with
          | Some (numeral, r') => Some (JNum numeral, r')
          | None => None
          end
      end
  end
with parse_items (fuel : nat) (s : jsstr) (acc : list json)
  : option (json * jsstr) :=
  match fuel with
  | O => None
  | S fuel' =>
      match parse_value fuel' s with
      | Some (v, r) =>
          match skip_ws r with
          | 44 :: r' => parse_items fuel' r' (acc ++ [v])
          | 93 :: r' => Some (JArray (acc ++ [v]), r')
          | _ => None
          end
      | None => None
      end
  end
with parse_fields (fuel : nat) (s : jsstr) (acc : list (jsstr * json))
  : option (json * jsstr) :=
  match fuel with
  | O => None
  | S fuel' =>
      match skip_ws s with
      | 34 :: r =>
          match parse_chars r [] with
          | Some (key, r1) =>
              match skip_ws r1 with
              | 58 :: r2 =>
                  match parse_value fuel' r2 with
                  | Some (v, r3) =>
                      match skip_ws r3 with
                      | 44 :: r4 => parse_fields fuel' r4 (acc ++ [(key, v)])
                      | 125 :: r4 => Some (JObject (acc ++ [(key, v)]), r4)
                      | _ => None
                      end
                  | None => None
                  end
              | _ => None
              end
          | None => None
          end
      | _ => None
      end
  end.

Definition parse (text : jsstr) : res json :=
  match parse_value (2 * length text + 2) text with
  | Some (v, rest) =>
      match skip_ws rest with
      | [] => Ok v
      | _ => Throw SyntaxError
      end
  | None => Throw SyntaxError
  end.

(** The imported package, as far as the sources rely on it: the pipeline
    writes the configuration with [encode(text, "base64")] and reads it back
    with [atob], so on such a text this member is the base64 encoder that
    [atob] undoes. Nothing else of the package is in the sources: its other
    members answer with the [External] fault, so that no statement can rest
    on them. *)
Definition package : Processor := {|
  p_encode := fun input encoding =>
    if bool_decide (encoding = js "base64") then Base64.btoa input
    else Throw External;
  p_decode := fun _ _ => Throw External;
  p_encodeMultiple := fun _ _ => Throw External;
  p_autoDetectAndDecode := fun _ => Throw External;
|}.

(** The platform of the examples. The wrapper of the processor runs on its
    fallbacks ([processor := None]): it skips its [require] wherever
    [window] is defined, while the pipeline imports the package itself.
    The examples hold arrays of known encoding names only, so that they
    never reach [gt0], [key_of] or [inherited_member]. *)
Definition platform : Platform := {|
  JSON_parse := parse;
  JSON_stringify := stringify;
  gt0 := fun _ => false;
  key_of := fun _ => [];
  inherited_member := fun _ => None;
  lib := package;
  processor := None;
|}.

End Demo.

(* ------------------------------------------------------------------------- *)
(** ** The envelopes of the examples *)
(* ------------------------------------------------------------------------- *)

Module Examples.
Import Pipeline.

(** [new EncodingPipeline().enableReversibility()]. *)
Definition bare : EncodingPipeline := enableReversibility new.

(** [new EncodingPipeline().addCompression("lz77").enableReversibility()]. *)
Definition lz77_only : EncodingPipeline :=
  enableReversibility (addCompression (js "lz77") new).

(** [new EncodingPipeline().addCompression("gzip").enableReversibility()]. *)
Definition gzipped : EncodingPipeline :=
  enableReversibility (addCompression (js "gzip") new).

(** The base64 text of the configuration of [bare], an object with [e] empty,
    [c] equal to "none" and [m] empty. *)
Definition bare_config : jsstr := js "eyJlIjpbXSwiYyI6Im5vbmUiLCJtIjp7fX0=".

(** The base64 text of a configuration with [e] empty, [c] equal to "lz77"
    and [m] empty. *)
Definition lz77_config : jsstr := js "eyJlIjpbXSwiYyI6Imx6NzciLCJtIjp7fX0=".

(** The base64 text of a configuration with [e] empty, [c] equal to "gzip"
    and [m] empty. *)
Definition gzip_config : jsstr := js "eyJlIjpbXSwiYyI6Imd6aXAiLCJtIjp7fX0=".

End Examples.

(* ------------------------------------------------------------------------- *)
(** ** src/mods/checksum.ts: the non-raising wrappers *)
(* ------------------------------------------------------------------------- *)

Module ChecksumTry.
Import Checksum.

(** [tryGenerate]: [None] is [null]. *)
Definition tryGenerate (input : value) (algorithm : string) (len : number)
    (cache : option (list Z)) : option jsstr * option (list Z) :=
  match generate input algorithm len cache with
  | (Ok d, cache') => (Some d, cache')
  | (Throw _, cache') => (None, cache')
  end.

(** [tryValidate]. *)
Definition tryValidate (input checksum : value) (algorithm : string)
    (len : number) (cache : option (list Z)) : bool * option (list Z) :=
  match validate input checksum algorithm len cache with
  | (Ok b, cache') => (b, cache')
  | (Throw _, cache') => (false, cache')
  end.

(** What [validateInput] accepts. *)
Definition accepted (input : value) (algorithm : string) (len : number)
  : Prop :=
  exists s l, input = VString s /\ len = Int l /\ valid_args s algorithm l.

(** [s.toUpperCase()] on an ASCII string. *)
Definition toUpperCase (s : jsstr) : jsstr :=
  map (fun c => if (97 <=? c) && (c <=? 122) then c - 32 else c) s.

(** The running sums of [adler32] after the loop. *)
Definition adler_sums (str : jsstr) : Z * Z :=
  fold_left (fun '(a, b) ch =>
               let a' := (a + ch) mod 65521 in (a', (b + a') mod 65521))
            str (1, 0).

End ChecksumTry.


(* ------------------------------------------------------------------------- *)
(** ** src/core/generator.ts: the generators *)
(* ------------------------------------------------------------------------- *)

Module Generators.
Import Generator.

(** The alphabets written out in the sources. *)
Definition ALPHANUMERIC : jsstr :=
  js "abcdefghijklmnopqrstuvwxyzABCDEFGHIJKLMNOPQRSTUVWXYZ0123456789".
Definition NANO_ALPHABET : jsstr :=
  js "ABCDEFGHIJKLMNOPQRSTUVWXYZabcdefghijklmnopqrstuvwxyz0123456789".
Definition HEX_ALPHABET : jsstr := js "0123456789abcdef".

(** The options of [generate] once the defaults are merged in; [encoding] is
    one name or an array of names. *)
Record Options : Type := {
  size : Z;
  segments : Z;
  separator : jsstr;
  encoding : jsstr + list jsstr;
  prefix : jsstr;
  includeTimestamp : bool;
  alphabet : jsstr;
  compression : jsstr;
}.

Definition DEFAULT_OPTIONS : Options := {|
  size := 8; segments := 4; separator := js "-";
  encoding := inl (js "rawHex"); prefix := []; includeTimestamp := false;
  alphabet := ALPHANUMERIC; compression := js "none";
|}.

(** [segments.join(separator)]. *)
Fixpoint join (separator : jsstr) (pieces : list jsstr) : jsstr :=
  match pieces with
  | [] => []
  | [p] => p
  | p :: rest => p ++ separator ++ join separator rest
  end.

Section Generate.
Context (P : Platform).
(** [random_index k n]: [Math.floor(Math.random() * n)] at the [k]-th draw;
    [now]: [Date.now()]. *)
Variable random_index : nat -> Z -> Z.
Variable now : Z.

(** The [for] loop of [generate]: [n] segments, drawing from draw [k] on.
    [encodeMultiple] is called in every iteration, with an empty array when
    [encoding] is a single name. *)
Fixpoint segments_loop (opts : Options) (n : nat) (k : nat)
  : res (list jsstr) :=
  match n with
  | O => Ok []
  | S n' =>
      randomString ←
        generateRandomString random_index k (size opts) (alphabet opts);
      multiEnc ←
        Wrapper.encodeMultiple P randomString
          (match encoding opts with inr arr => arr | inl _ => [] end);
      encoded ←
        match encoding opts with
        | inr _ =>
            match last multiEnc with
            | Some e => Ok e
            | None => Throw TypeError
            end
        | inl e => Wrapper.encode P randomString e
        end;
      rest ← segments_loop opts n' (k + Z.to_nat (size opts));
      Ok (encoded :: rest)
  end.

(** [generate(options)]. *)
Definition generate (opts : Options) (k : nat) : res jsstr :=
  let stamp :=
    if includeTimestamp opts then [Checksum.toString36 now] else [] in
  segs ← segments_loop opts (Z.to_nat (segments opts)) k;
  let id := join (separator opts) (stamp ++ segs) in
  id ← (if bool_decide (compression opts <> js "none")
        then Encoder.compress id (JString (compression opts))
        else Ok id);
  match prefix opts with
  | [] => Ok id
  | _ => Ok (prefix opts ++ separator opts ++ id)
  end.

(** [nano(size)], [hex(length)] and [short(length)]. *)
Definition nano (size_ : Z) (k : nat) : res jsstr :=
  generateRandomString random_index k size_ NANO_ALPHABET.

Definition hex (length_ : Z) (k : nat) : res jsstr :=
  generateRandomString random_index k length_ HEX_ALPHABET.

Definition short (length_ : Z) (k : nat) : res jsstr :=
  generate {| size := length_; segments := 1;
              separator := separator DEFAULT_OPTIONS;
              encoding := inl (js "urlSafeBase64");
              prefix := prefix DEFAULT_OPTIONS;
              includeTimestamp := includeTimestamp DEFAULT_OPTIONS;
              alphabet := alphabet DEFAULT_OPTIONS;
              compression := compression DEFAULT_OPTIONS |} k.

End Generate.

Section Uuid.
(** [random16 k]: [(Math.random() * 16) | 0] at the [k]-th draw. *)
Variable random16 : nat -> Z.

Definition UUID_TEMPLATE : jsstr := js "xxxxxxxx-xxxx-4xxx-yxxx-xxxxxxxxxxxx".

(** The callback of [replace]: the digit that stands for an [x] or a [y]. *)
Definition uuid_digit (c : Z) (r : Z) : jsstr :=
  let v := if c =? 120 then r else bor (band r 3) 8 in
  Wrapper.toString16 v.

(** [template.replace(/[xy]/g, ...)], drawing from draw [k] on. *)
Fixpoint uuid_replace (template : jsstr) (k : nat) : jsstr :=
  match template with
  | [] => []
  | c :: rest =>
      if (c =? 120) || (c =? 121)
      then uuid_digit c (random16 k) ++ uuid_replace rest (S k)
      else c :: uuid_replace rest k
  end.

Definition uuid (k : nat) : jsstr := uuid_replace UUID_TEMPLATE k.

End Uuid.

Section Batch.
(** [candidate k]: the identifier returned in the [k]-th iteration by the
    generator that [format] selects. *)
Variable candidate : nat -> jsstr.

(** [ids.add(id)] on a [Set], kept in insertion order. *)
Definition set_add (ids : list jsstr) (id : jsstr) : list jsstr :=
  if bool_decide (id ∈ ids) then ids else ids ++ [id].

(** The [while (ids.size < count)] of [batch]; [None]: out of fuel. *)
Fixpoint batch_loop (count : Z) (ensureUnique : bool) (fuel : nat) (k : nat)
    (ids : list jsstr) : option (list jsstr) :=
  if Z.of_nat (length ids) <? count then
    match fuel with
    | O => None
    | S fuel' =>
        let id := candidate k in
        let ids' :=
          if negb ensureUnique || negb (bool_decide (id ∈ ids))
          then set_add ids id
          else ids in
        batch_loop count ensureUnique fuel' (S k) ids'
    end
  else Some ids.

(** [batch]: [Array.from(ids)]. *)
Definition batch (count : Z) (ensureUnique : bool) (fuel : nat)
  : option (list jsstr) :=
  batch_loop count ensureUnique fuel 0 [].

(** The distinct candidates among a list, in the order of their first
    occurrence. *)
Definition distinct (ids : list jsstr) : list jsstr :=
  fold_left set_add ids [].

End Batch.

(** The shape of an identifier made from a template: position by position,
    [class_of] tells which characters may stand for the character of the
    template. *)
Definition shaped (class_of : Z -> Z -> Prop) (template id : jsstr) : Prop :=
  Forall2 class_of template id.

Definition is_hex_digit (d : Z) : Prop :=
  (48 <= d <= 57) \/ (97 <= d <= 102).

Definition is_alphanumeric (c : Z) : Prop :=
  (48 <= c <= 57) \/ (65 <= c <= 90) \/ (97 <= c <= 122).

(** The class of each character of the UUID template. *)
Definition uuid_class (c d : Z) : Prop :=
  if c =? 120 then is_hex_digit d
  else if c =? 121 then d = 56 \/ d = 57 \/ d = 97 \/ d = 98
  else d = c.

End Generators.


(* ------------------------------------------------------------------------- *)
(** ** The encoder: [encode] *)
(* ------------------------------------------------------------------------- *)

Module EncoderEncode.

Section Encode.
Context (P : Platform).
(** [processor.encodeMultipleAsync(input, encodings)] of the package, once
    awaited: the [encoded] fields of its [results]. *)
Variable p_encodeMultipleAsync :
  Processor -> jsstr -> list jsstr -> res (list jsstr).

(** [__processor__.encodeMultipleAsync] of the wrapper, awaited. *)
Definition encodeMultipleAsync (input : jsstr) (encodings : list jsstr)
  : res (list jsstr) :=
  match processor P with
  | Some p => p_encodeMultipleAsync p input encodings
  | None => Wrapper.encodeMultiple P input encodings
  end.

(** [Encoder.encode], awaited; [encodings] is one name or an array. *)
Definition encode (input : jsstr) (encodings : jsstr + list jsstr)
  : res jsstr :=
  let encodingArray :=
    match encodings with inr arr => arr | inl e => [e] end in
  results ← encodeMultipleAsync input encodingArray;
  match last results with
  | Some encoded => Ok encoded
  | None => Throw TypeError
  end.

End Encode.

(** The encodings that the fallbacks of the wrapper undo on every string of
    code units up to 255. *)
Definition invertible (encoding : jsstr) : Prop :=
  encoding = js "base64" \/ encoding = js "hex" \/ encoding = js "rawHex".

End EncoderEncode.

(** The invariant of the dictionary compressor of [Encoder.compress]. *)
Module Lzw.
Import Base64 Encoder.

(** What a pushed code stands for: a code up to 255 stands for the
    one-character sequence of that code, every other code lies between 256
    and 65535. *)
Definition stands_for (sq : jsstr) (code : option Z) : Prop :=
  exists c, code = Some c
            /\ ((sq = [c] /\ is_byte c) \/ 256 <= c <= 65535).

Definition dictionary_ok (st : lzw_state) : Prop :=
  256 <= nextCode st
  /\ (forall sq code, dictionary st !! sq = Some code ->
                      stands_for sq (Some code))
  /\ (forall c, is_byte c -> dictionary st !! [c] = Some c).

Definition lzw_invariant (st : lzw_state) (pre : jsstr) : Prop :=
  dictionary_ok st
  /\ (exists seqs, Forall2 stands_for seqs (result st)
                   /\ concat seqs ++ currentSequence st = pre)
  /\ (currentSequence st = []
      \/ is_Some (dictionary st !! currentSequence st)).

End Lzw.

(** Positional notation: the number written by a list of digits, most
    significant digit first. *)
Module Radix.

Definition number_of (base : Z) (ds : list Z) : Z :=
  fold_left (fun num d => num * base + d) ds 0.

Definition no_leading_zero (ds : list Z) : Prop :=
  match ds with
  | d :: _ => d <> 0
  | [] => True
  end.

Definition is_digit (base d : Z) : Prop := 0 <= d < base.

End Radix.


(* ------------------------------------------------------------------------- *)
(** ** src/core/specialized.ts: temporal and sequential identifiers *)
(* ------------------------------------------------------------------------- *)

Module Specialized.

(** The numbers of this module (timestamps and counters) are modelled on
    the safe integers only, where JavaScript arithmetic is exact: there
    [Math.floor(n / unit)] is the integer quotient and [toString] writes all
    the digits. Beyond them a number need not be integral or exact, and
    from 1e21 on the decimal [toString] is in exponent notation: the
    definitions below say nothing of such numbers, and every statement
    about them is restricted to numbers below [2 ^ 53]. *)

(** [n.toString(radix)] for a safe integer [n]. *)
Definition toStringRadix (radix n : Z) : jsstr :=
  let magnitude :=
    match Wrapper.digits radix (Z.abs n) with
    | [] => [48]
    | ds => map Checksum.digit36 ds
    end in
  if n <? 0 then 45 :: magnitude else magnitude.

(** The value of a character as a digit of [parseInt]. *)
Definition digit_value (c : Z) : option Z :=
  if (48 <=? c) && (c <=? 57) then Some (c - 48)
  else if (97 <=? c) && (c <=? 122) then Some (c - 87)
  else if (65 <=? c) && (c <=? 90) then Some (c - 55)
  else None.

(** The longest prefix of digits of the radix, as a number; [None] if there
    is no digit. *)
Fixpoint radix_prefix (radix : Z) (s : jsstr) (acc : option Z) : option Z :=
  match s with
  | [] => acc
  | c :: rest =>
      match digit_value c with
      | Some d =>
          if d <? radix
          then radix_prefix radix rest (Some (default 0 acc * radix + d))
          else acc
      | None => acc
      end
  end.

(** White space and line terminators, skipped by [parseInt]. *)
Definition is_str_white_space (c : Z) : bool :=
  Wrapper.is_white_space c || Wrapper.is_line_terminator c.

Fixpoint trim_start (s : jsstr) : jsstr :=
  match s with
  | c :: rest => if is_str_white_space c then trim_start rest else s
  | [] => []
  end.

(** [parseInt(s, radix)] for a radix from 2 to 36; [None] is [NaN]. *)
Definition parseInt (s : jsstr) (radix : Z) : option Z :=
  let s := trim_start s in
  let '(sign, s) :=
    match s with
    | c :: r =>
        if c =? 45 then (-1, r) else if c =? 43 then (1, r) else (1, s)
    | [] => (1, s)
    end in
  let s :=
    match s with
    | c :: x :: r =>
        if (radix =? 16) && (c =? 48) && ((x =? 120) || (x =? 88))
        then r else s
    | _ => s
    end in
  match radix_prefix radix s None with
  | Some n => Some (sign * n)
  | None => None
  end.

(** [Math.floor(timestamp / unit)] for the precision. *)
Definition adjust (precision : jsstr) (timestamp : Z) : Z :=
  if bool_decide (precision = js "s") then timestamp / 1000
  else if bool_decide (precision = js "m") then timestamp / 60000
  else if bool_decide (precision = js "h") then timestamp / 3600000
  else if bool_decide (precision = js "d") then timestamp / 86400000
  else timestamp.

(** [timestamp *= unit] for the precision. *)
Definition restore (precision : jsstr) (timestamp : Z) : Z :=
  if bool_decide (precision = js "s") then timestamp * 1000
  else if bool_decide (precision = js "m") then timestamp * 60000
  else if bool_decide (precision = js "h") then timestamp * 3600000
  else if bool_decide (precision = js "d") then timestamp * 86400000
  else timestamp.

(** The formatted time of [temporal] and [fromTemporal]. *)
Definition formattedTime (format : jsstr) (timestamp : Z) : jsstr :=
  if bool_decide (format = js "hex")
  then padStart0 (toStringRadix 16 timestamp) 12
  else if bool_decide (format = js "b36")
  then padStart0 (toStringRadix 36 timestamp) 8
  else toStringRadix 10 timestamp.

Section Generators.
Context (P : Platform).
Variable random_index : nat -> Z -> Z.
Variable now : Z.

(** [fromTemporal(timestamp, { precision, suffix, format })]; the random
    suffix draws from draw [k] on. *)
Definition fromTemporal (timestamp : Z) (precision : jsstr) (suffix : bool)
    (format : jsstr) (k : nat) : res jsstr :=
  let adjustedTimestamp := adjust precision timestamp in
  let formatted := formattedTime format adjustedTimestamp in
  if suffix then
    randomSuffix ← Generators.short P random_index now 6 k;
    Ok (formatted ++ js "-" ++ randomSuffix)
  else Ok formatted.

(** [temporal({ precision, suffix, format })]: the same on [Date.now()]. *)
Definition temporal (precision : jsstr) (suffix : bool) (format : jsstr)
    (k : nat) : res jsstr :=
  let timestamp := adjust precision now in
  let formatted := formattedTime format timestamp in
  if suffix then
    randomSuffix ← Generators.short P random_index now 6 k;
    Ok (formatted ++ js "-" ++ randomSuffix)
  else Ok formatted.

(** [sequential({ prefix, counter, padLength, suffix })]. *)
Definition sequential (prefix : jsstr) (counter : Z) (padLength : Z)
    (suffix : bool) (k : nat) : res jsstr :=
  let formattedCounter := padStart0 (toStringRadix 10 counter) padLength in
  if suffix then
    randomSuffix ← Generators.short P random_index now 4 k;
    Ok (prefix ++ formattedCounter ++ js "-" ++ randomSuffix)
  else Ok (prefix ++ formattedCounter).

End Generators.

(** The errors of [fromTemporalToTimestamp], each standing for its
    message. *)
Inductive temporal_error : Type :=
| NotANonEmptyString
    (* "Invalid temporal ID: must be a non-empty string" *)
| MissingTimestampPart
    (* "Invalid temporal ID format: missing timestamp part" *)
| CannotParse (timestampPart format : jsstr).
    (* "Invalid temporal ID: cannot parse timestamp ... as ..." *)

(** [temporalId.split('-')[0]]. *)
Fixpoint before_dash (s : jsstr) : jsstr :=
  match s with
  | [] => []
  | c :: rest => if c =? 45 then [] else c :: before_dash rest
  end.

(** [fromTemporalToTimestamp(temporalId, { precision, format })]. *)
Definition fromTemporalToTimestamp (temporalId precision format : jsstr)
  : temporal_error + Z :=
  match temporalId with
  | [] => inl NotANonEmptyString
  | _ =>
      match before_dash temporalId with
      | [] => inl MissingTimestampPart
      | timestampPart =>
          let parsed :=
            if bool_decide (format = js "hex") then parseInt timestampPart 16
            else if bool_decide (format = js "b36")
            then parseInt timestampPart 36
            else parseInt timestampPart 10 in
          match parsed with
          | None => inl (CannotParse timestampPart format)
          | Some timestamp => inr (restore precision timestamp)
          end
      end
  end.

(** The number of milliseconds of a precision. *)
Definition unit_of (precision : jsstr) : Z :=
  if bool_decide (precision = js "s") then 1000
  else if bool_decide (precision = js "m") then 60000
  else if bool_decide (precision = js "h") then 3600000
  else if bool_decide (precision = js "d") then 86400000
  else 1.

End Specialized.

(* ------------------------------------------------------------------------- *)
(** ** src/mods/specialized.ts: identifiers from a pattern *)
(* ------------------------------------------------------------------------- *)

Module Pattern.

Section Random.
(** [random_index k n]: [Math.floor(Math.random() * n)] at the [k]-th
    draw. *)
Variable random_index : nat -> Z -> Z.

(** [String.fromCharCode(n)]. *)
Definition fromCharCode (n : Z) : Z := n mod 65536.

(** The callback of [replace]: the character for a placeholder. *)
Definition replacement (c : Z) (k : nat) : Z :=
  if c =? 88 then fromCharCode (65 + random_index k 26)
  else if c =? 57 then fromCharCode (48 + random_index k 10)
  else if c =? 65 then fromCharCode (65 + random_index k 26)
  else if c =? 97 then fromCharCode (97 + random_index k 26)
  else c.

Definition is_placeholder (c : Z) : bool :=
  (c =? 88) || (c =? 57) || (c =? 65) || (c =? 97).

(** [pattern.replace(/X|9|A|a/g, ...)], drawing from draw [k] on. *)
Fixpoint generateFromPattern (pattern : jsstr) (k : nat) : jsstr :=
  match pattern with
  | [] => []
  | c :: rest =>
      if is_placeholder c
      then replacement c k :: generateFromPattern rest (S k)
      else c :: generateFromPattern rest k
  end.

End Random.

(** The characters allowed in place of each character of a pattern. *)
Definition pattern_class (c d : Z) : Prop :=
  if (c =? 88) || (c =? 65) then 65 <= d <= 90
  else if c =? 57 then 48 <= d <= 57
  else if c =? 97 then 97 <= d <= 122
  else d = c.

End Pattern.

(* ========================================================================= *)
(** * Properties *)
(* ========================================================================= *)

Module ChecksumProps.
Import Checksum.

Lemma validateInput_ok s algorithm l :
  valid_args s algorithm l ->
  validateInput (VString s) algorithm (Int l) = Ok (s, l).
Proof.
  intros (Hlen & Halg & Hl). unfold validateInput.
  destruct (Z.gtb_spec (Z.of_nat (length s)) MAX_INPUT_LENGTH); [lia|].
  assert (includes_alg algorithm = true) as ->.
  { unfold includes_alg. apply existsb_exists. exists algorithm.
    split; [exact Halg | apply String.eqb_refl]. }
  cbn [negb].
  destruct (Z.ltb_spec l MIN_CHECKSUM_LENGTH); [lia|].
  destruct (Z.gtb_spec l MAX_CHECKSUM_LENGTH); [lia|].
  reflexivity.
Qed.

Lemma ushr0_range x : 0 <= ushr x 0 < 2 ^ 32.
Proof.
  unfold ushr, ToUint32. change (0 mod 32) with 0. rewrite Z.shiftr_0_r.
  apply Z.mod_pos_bound. lia.
Qed.

Lemma hash_of_range algorithm s table : 0 <= hash_of algorithm s table < 2 ^ 32.
Proof.
  unfold hash_of, djb2, crc32_with, adler32, fnv1a, murmur3.
  repeat match goal with |- context [if ?b then _ else _] => destruct b end;
    try apply ushr0_range.
  destruct (fold_left _ _ _). apply ushr0_range.
Qed.

Lemma getCRCTable_ok cache :
  cache_ok cache -> getCRCTable cache = (build_table, Some build_table).
Proof. intros [-> | ->]; reflexivity. Qed.

(** [generate] on valid arguments, whatever the state of the table cache. *)
Lemma generate_valid s algorithm l cache :
  valid_args s algorithm l -> cache_ok cache ->
  exists cache',
    generate (VString s) algorithm (Int l) cache
      = (Ok (format36 (hash_of algorithm s build_table) l), cache')
    /\ cache_ok cache'.
Proof.
  intros Hv Hc. unfold generate. rewrite (validateInput_ok _ _ _ Hv).
  destruct Hv as (_ & Halg & _).
  pose proof (hash_of_range algorithm s build_table) as Hr.
  assert (forall h, 0 <= h < 2 ^ 32 -> Z.abs h = h) as Habs by (intros; lia).
  apply Habs in Hr. clear Habs.
  unfold format36. unfold hash_of in *. unfold crc32.
  rewrite (getCRCTable_ok _ Hc).
  destruct (String.eqb_spec algorithm "djb2") as [E1|E1];
    [rewrite Hr; destruct (_ <? _); eauto|].
  destruct (String.eqb_spec algorithm "crc32") as [E2|E2];
    [rewrite Hr; destruct (_ <? _); eexists; (split; [reflexivity|]);
     right; reflexivity|].
  destruct (String.eqb_spec algorithm "adler32") as [E3|E3];
    [rewrite Hr; destruct (_ <? _); eauto|].
  destruct (String.eqb_spec algorithm "fnv1a") as [E4|E4];
    [rewrite Hr; destruct (_ <? _); eauto|].
  destruct (String.eqb_spec algorithm "murmur3") as [E5|E5];
    [rewrite Hr; destruct (_ <? _); eauto|].
  exfalso. unfold VALID_ALGORITHMS in Halg.
  destruct Halg as [H | [H | [H | [H | [H | []]]]]]; congruence.
Qed.

Lemma length_format36 hash l :
  0 <= l -> length (format36 hash l) = Z.to_nat l.
Proof.
  intros Hl. unfold format36, padStart0, substring0.
  destruct (Z.ltb_spec (Z.of_nat (length (toString36 hash))) l).
  - rewrite length_app, length_replicate. lia.
  - rewrite length_take. lia.
Qed.

Lemma digit36_lower d : 0 <= d < 36 -> is_lower36 (digit36 d) = true.
Proof.
  intros Hd. unfold is_lower36, digit36.
  destruct (Z.ltb_spec d 10).
  - apply orb_true_iff. left. apply andb_true_iff. split; apply Z.leb_le; lia.
  - apply orb_true_iff. right. apply andb_true_iff. split; apply Z.leb_le; lia.
Qed.

Lemma toString36_go_lower fuel : forall n acc,
  forallb is_lower36 acc = true ->
  forallb is_lower36 (toString36_go fuel n acc) = true.
Proof.
  induction fuel as [|fuel IH]; intros n acc Hacc; cbn [toString36_go].
  - cbn. rewrite digit36_lower, Hacc; [reflexivity|]. apply Z.mod_pos_bound. lia.
  - assert (forallb is_lower36 (digit36 (n mod 36) :: acc) = true) as H.
    { cbn. rewrite digit36_lower, Hacc; [reflexivity|].
      apply Z.mod_pos_bound. lia. }
    destruct (n / 36 =? 0); [exact H | apply IH, H].
Qed.

Lemma format36_lower hash l :
  forallb is_lower36 (format36 hash l) = true.
Proof.
  assert (forallb is_lower36 (toString36 hash) = true) as Hs
    by (apply toString36_go_lower; reflexivity).
  unfold format36, padStart0, substring0.
  destruct (_ <? _).
  - rewrite forallb_app, Hs, andb_true_r.
    induction (Z.to_nat _) as [|k IH]; [reflexivity | exact IH].
  - apply forallb_forall. intros c Hc. rewrite forallb_forall in Hs.
    apply Hs. apply list_elem_of_In in Hc.
    apply elem_of_take in Hc as (i & Hi & _).
    apply list_elem_of_In. eapply list_elem_of_lookup_2, Hi.
Qed.

Lemma toLowerCase_lower s :
  forallb is_lower36 s = true -> toLowerCase s = s.
Proof.
  induction s as [|c s IH]; [reflexivity|]. cbn [forallb toLowerCase map].
  intros [Hc Hs]%andb_true_iff. fold (toLowerCase s). rewrite (IH Hs).
  f_equal. unfold is_lower36 in Hc.
  destruct (Z.leb_spec 65 c), (Z.leb_spec c 90); cbn [andb]; try reflexivity.
  apply orb_true_iff in Hc as [Hc|Hc]; apply andb_true_iff in Hc as [H1 H2];
    apply Z.leb_le in H1, H2; lia.
Qed.

Lemma lower36_regex s :
  s <> [] -> forallb is_lower36 s = true -> base36_regex_test s = true.
Proof.
  intros Hne Hs. destruct s as [|c s]; [congruence|].
  unfold base36_regex_test. apply forallb_forall. intros x Hx.
  rewrite forallb_forall in Hs. specialize (Hs x Hx).
  unfold is_base36_char. unfold is_lower36 in Hs. rewrite Hs. reflexivity.
Qed.

(** [validate] accepts the digest [generate] produced for the same arguments. *)
Lemma validate_generated s algorithm l cache :
  valid_args s algorithm l -> cache_ok cache ->
  fst (validate (VString s)
         (VString (format36 (hash_of algorithm s build_table) l))
         algorithm (Int l) cache) = Ok true.
Proof.
  intros Hv Hc. destruct (generate_valid s algorithm l cache Hv Hc) as (c' & Hg & _).
  set (d := format36 _ _) in *.
  assert (length d = Z.to_nat l) as Hlen.
  { apply length_format36. destruct Hv as (_ & _ & Hl).
    unfold MIN_CHECKSUM_LENGTH in Hl. lia. }
  assert (d <> []) as Hne.
  { intros E. rewrite E in Hlen. cbn in Hlen. destruct Hv as (_ & _ & Hl).
    unfold MIN_CHECKSUM_LENGTH in Hl. lia. }
  pose proof (format36_lower (hash_of algorithm s build_table) l) as Hlow.
  fold d in Hlow.
  unfold validate.
  destruct (Z.eqb_spec (Z.of_nat (length d)) 0) as [E|_].
  { destruct d; [congruence | cbn in E; lia]. }
  rewrite (lower36_regex d Hne Hlow). cbn [negb]. rewrite Hg. cbn [fst].
  unfold jsstr_eqb. rewrite bool_decide_eq_true_2; reflexivity.
Qed.

(** C7. For every input string of at most 1,000,000 characters, every one of
    the five algorithm names and every integer length in [1,16]: two
    successive calls of [Checksum.generate] on the same arguments return the
    same digest (whatever the state of the CRC table cache), and
    [Checksum.validate] on that digest with the same algorithm and length
    returns [true].  Moreover the crc32 digest of "data" at length 8 does not
    validate under "fnv1a". *)
Theorem generate_deterministic_and_validates :
  (forall s algorithm l cache,
      valid_args s algorithm l -> cache_ok cache ->
      exists d cache1 cache2,
        generate (VString s) algorithm (Int l) cache = (Ok d, cache1)
        /\ generate (VString s) algorithm (Int l) cache1 = (Ok d, cache2)
        /\ (forall c, cache_ok c ->
              fst (generate (VString s) algorithm (Int l) c) = Ok d)
        /\ (forall c, cache_ok c ->
              fst (validate (VString s) (VString d) algorithm (Int l) c)
                = Ok true))
  /\ (forall c d, cache_ok c ->
        fst (generate (VString (js "data")) "crc32" (Int 8) c) = Ok d ->
        fst (validate (VString (js "data")) (VString d) "fnv1a" (Int 8) c)
          = Ok false).
Proof.
  split.
  - intros s algorithm l cache Hv Hc.
    destruct (generate_valid s algorithm l cache Hv Hc) as (c1 & Hg1 & Hc1).
    destruct (generate_valid s algorithm l c1 Hv Hc1) as (c2 & Hg2 & Hc2).
    eexists _, c1, c2. repeat split; try eassumption.
    + intros c Hcc. destruct (generate_valid s algorithm l c Hv Hcc) as (c3 & -> & _).
      reflexivity.
    + intros c Hcc. apply validate_generated; assumption.
  - intros c d Hc Hd.
    assert (d = js "01c9kfab") as ->.
    { destruct Hc as [-> | ->]; vm_compute in Hd; injection Hd as <-; reflexivity. }
    destruct Hc as [-> | ->]; vm_compute; reflexivity.
Qed.

Lemma generate_deterministic_and_validates_witness :
  fst (generate (VString (js "hello")) "murmur3" (Int 4) None) = Ok (js "a520")
  /\ fst (validate (VString (js "hello")) (VString (js "a520")) "murmur3" (Int 4) None)
       = Ok true.
Proof.
  assert (valid_args (js "hello") "murmur3" 4) as Hv.
  { unfold valid_args. split; [vm_compute; discriminate|].
    split; [cbn; tauto | vm_compute; split; discriminate]. }
  assert (cache_ok None) as Hc by (left; reflexivity).
  destruct (proj1 generate_deterministic_and_validates
              (js "hello") "murmur3"%string 4 None Hv Hc)
    as (d & c1 & c2 & H1 & H2 & H3 & H4).
  assert (d = js "a520") as ->.
  { vm_compute in H1. injection H1 as <- _. reflexivity. }
  split; [rewrite H1; reflexivity | apply H4, Hc].
Defined.

(** C8. For every valid input, each of the five algorithms and every integer
    length in [1,16], [Checksum.generate] returns a string of exactly
    [length] characters: the base-36 rendering of the unsigned 32-bit hash
    of the input under the chosen algorithm, left-padded with '0' when
    shorter than [length] and cut to its first [length] characters
    otherwise. *)
Theorem generate_length s algorithm l cache :
  valid_args s algorithm l -> cache_ok cache ->
  exists d,
    fst (generate (VString s) algorithm (Int l) cache) = Ok d
    /\ d = format36 (hash_of algorithm s build_table) l
    /\ 0 <= hash_of algorithm s build_table < 2 ^ 32
    /\ Z.of_nat (length d) = l
    /\ (Z.of_nat (length (toString36 (hash_of algorithm s build_table))) < l ->
        d = replicate
              (Z.to_nat l
               - length (toString36 (hash_of algorithm s build_table))) 48
              ++ toString36 (hash_of algorithm s build_table))
    /\ (l <= Z.of_nat (length (toString36 (hash_of algorithm s build_table))) ->
        d = take (Z.to_nat l)
              (toString36 (hash_of algorithm s build_table))).
Proof.
  intros Hv Hc.
  destruct (generate_valid s algorithm l cache Hv Hc) as (c1 & Hg & _).
  exists (format36 (hash_of algorithm s build_table) l).
  destruct Hv as (_ & _ & Hl). unfold MIN_CHECKSUM_LENGTH in Hl.
  split; [rewrite Hg; reflexivity|]. split; [reflexivity|].
  split; [apply hash_of_range|].
  split; [rewrite length_format36; lia|].
  unfold format36, padStart0, substring0. split; intros H.
  - destruct (Z.ltb_spec
                (Z.of_nat
                   (length (toString36 (hash_of algorithm s build_table))))
                l); [|lia].
    f_equal. f_equal. lia.
  - destruct (Z.ltb_spec
                (Z.of_nat
                   (length (toString36 (hash_of algorithm s build_table))))
                l); [lia|].
    reflexivity.
Qed.

Lemma generate_length_witness :
  exists d,
    fst (generate (VString (js "data")) "crc32" (Int 8) None) = Ok d
    /\ d = format36 (hash_of "crc32" (js "data") build_table) 8
    /\ 0 <= hash_of "crc32" (js "data") build_table < 2 ^ 32
    /\ Z.of_nat (length d) = 8
    /\ (Z.of_nat (length (toString36 (hash_of "crc32" (js "data")
                                        build_table))) < 8 ->
        d = replicate
              (Z.to_nat 8
               - length (toString36 (hash_of "crc32" (js "data")
                                       build_table))) 48
              ++ toString36 (hash_of "crc32" (js "data") build_table))
    /\ (8 <= Z.of_nat (length (toString36 (hash_of "crc32" (js "data")
                                             build_table))) ->
        d = take (Z.to_nat 8)
              (toString36 (hash_of "crc32" (js "data") build_table))).
Proof.
  apply (generate_length (js "data") "crc32"%string 8 None).
  - unfold valid_args. split; [vm_compute; discriminate|].
    split; [cbn; tauto | vm_compute; split; discriminate].
  - left; reflexivity.
Defined.

End ChecksumProps.

Module GeneratorProps.
Import Generator.

Section Safe.
Variable generate : nat -> jsstr.

(** The loop always ends within [maxAttempts - attempts] iterations. *)
Lemma safe_loop_total options : forall fuel attempts,
  0 <= attempts ->
  (Z.to_nat (maxAttempts options - attempts) <= fuel)%nat ->
  exists r tr, safe_loop generate options fuel attempts = Some (r, tr).
Proof.
  induction fuel as [|fuel IH]; intros attempts Ha Hf; cbn [safe_loop].
  - destruct (Z.ltb_spec attempts (maxAttempts options)); [lia | eauto].
  - destruct (Z.ltb_spec attempts (maxAttempts options)); [|eauto].
    destruct (checkFunction options _ _) as [[|]|e]; eauto.
    destruct (IH (attempts + 1)) as (r & tr & ->); [lia | lia | eauto].
Qed.

Lemma safe_total options :
  exists r tr, safe generate options = Some (r, tr).
Proof. apply safe_loop_total; lia. Qed.

End Safe.

(** C3. With an acceptance predicate that always answers [false] and
    [maxAttempts = 3], the base generator and the predicate are each invoked
    exactly 3 times and the run then fails with the exhaustion error naming
    the maximum 3; with a predicate that answers [true] on the 2nd attempt
    (and [false] on the 1st) and room for two attempts, exactly 2 attempts
    occur and the 2nd candidate is returned without failure. *)
Theorem safe_attempts (generate : nat -> jsstr) (nm backoff_ : string) :
  (forall check,
      (forall k id, check k id = Ok false) ->
      exists tr,
        safe generate {| name := nm; maxAttempts := 3; backoffType := backoff_;
                         checkFunction := check |}
          = Some (Throw (Error "Failed to generate unique ID after 3 attempts"), tr)
        /\ generated tr = [generate 0%nat; generate 1%nat; generate 2%nat]
        /\ checked tr = [generate 0%nat; generate 1%nat; generate 2%nat])
  /\ (forall check max,
        2 <= max ->
        check 0%nat (generate 0%nat) = Ok false ->
        check 1%nat (generate 1%nat) = Ok true ->
        exists tr,
          safe generate {| name := nm; maxAttempts := max;
                           backoffType := backoff_; checkFunction := check |}
            = Some (Ok (generate 1%nat), tr)
          /\ generated tr = [generate 0%nat; generate 1%nat]
          /\ checked tr = [generate 0%nat; generate 1%nat]).
Proof.
  split.
  - intros check Hc. unfold safe. cbv. rewrite !Hc.
    eexists. split; [reflexivity|]. split; reflexivity.
  - intros check max Hmax H0 H1. unfold safe. cbn [maxAttempts].
    destruct (Z.to_nat max) as [|[|fuel]] eqn:E; [lia | lia |].
    cbn [safe_loop maxAttempts checkFunction].
    destruct (Z.ltb_spec 0 max); [|lia].
    change (Z.to_nat 0) with 0%nat. rewrite H0.
    destruct (Z.ltb_spec (0 + 1) max); [|lia].
    change (Z.to_nat (0 + 1)) with 1%nat. rewrite H1.
    eexists. split; [reflexivity|]. split; reflexivity.
Qed.

Lemma safe_attempts_witness :
  let gen := fun k : nat => js "id-" ++ [48 + Z.of_nat k] in
  (exists tr,
      safe gen {| name := "demo"; maxAttempts := 3; backoffType := "linear";
                  checkFunction := fun _ _ => Ok false |}
        = Some (Throw (Error "Failed to generate unique ID after 3 attempts"), tr)
      /\ generated tr = [gen 0%nat; gen 1%nat; gen 2%nat]
      /\ checked tr = [gen 0%nat; gen 1%nat; gen 2%nat])
  /\ (exists tr,
        safe gen {| name := "demo"; maxAttempts := 3; backoffType := "linear";
                    checkFunction := fun k _ => Ok (Nat.eqb k 1) |}
          = Some (Ok (gen 1%nat), tr)
        /\ generated tr = [gen 0%nat; gen 1%nat]
        /\ checked tr = [gen 0%nat; gen 1%nat]).
Proof.
  intros gen.
  destruct (safe_attempts gen "demo" "linear") as [H1 H2]. split.
  - apply (H1 (fun _ _ => Ok false)). reflexivity.
  - apply (H2 (fun k _ => Ok (Nat.eqb k 1)) 3); [lia | reflexivity | reflexivity].
Defined.

Lemma safe_loop_all_rejected generate options :
  (forall k id, checkFunction options k id = Ok false) ->
  forall fuel attempts,
    Z.to_nat (maxAttempts options - attempts) = fuel ->
    safe_loop generate options fuel attempts
      = Some (Throw (exhausted options),
              failing_run generate options fuel attempts).
Proof.
  intros Hc. induction fuel as [|fuel IH]; intros attempts Hf; cbn [safe_loop].
  - destruct (Z.ltb_spec attempts (maxAttempts options)); [lia | reflexivity].
  - destruct (Z.ltb_spec attempts (maxAttempts options)); [|lia].
    rewrite Hc, IH by lia. reflexivity.
Qed.

Lemma failing_run_S generate options n attempts :
  failing_run generate options (S n) attempts
    = Generated (generate (Z.to_nat attempts))
        :: Checked (generate (Z.to_nat attempts))
        :: Slept (backoff options (attempts + 1))
        :: failing_run generate options n (attempts + 1).
Proof. reflexivity. Qed.

Lemma last_failing_run generate options n attempts :
  last (failing_run generate options (S n) attempts)
    = Some (Slept (backoff options (attempts + Z.of_nat (S n)))).
Proof.
  revert attempts. induction n as [|n IH]; intros attempts;
    rewrite failing_run_S, !last_cons.
  - cbn [failing_run last].
    replace (attempts + Z.of_nat 1) with (attempts + 1) by lia. reflexivity.
  - rewrite IH.
    replace (attempts + 1 + Z.of_nat (S n)) with (attempts + Z.of_nat (S (S n)))
      by lia.
    reflexivity.
Qed.

(** Whenever every candidate is rejected, the run sleeps once more after the
    last failed attempt and only then raises the exhaustion error. *)
Lemma safe_sleeps_before_exhaustion generate options :
  1 <= maxAttempts options ->
  (forall k id, checkFunction options k id = Ok false) ->
  exists tr,
    safe generate options = Some (Throw (exhausted options), tr)
    /\ last tr = Some (Slept (backoff options (maxAttempts options))).
Proof.
  intros Hm Hc. unfold safe. rewrite safe_loop_all_rejected by (auto || lia).
  eexists. split; [reflexivity|].
  destruct (Z.to_nat (maxAttempts options)) as [|n] eqn:E; [lia|].
  rewrite last_failing_run.
  replace (0 + Z.of_nat (S n)) with (maxAttempts options) by lia. reflexivity.
Qed.

(** What holds of the delays in every run: the trace starts with an attempt,
    a successful run ends with the accepting check, and the [j]-th delay
    lasts [backoff] of the number of failed attempts so far. *)
Lemma safe_loop_delays generate options : forall fuel attempts r tr,
  safe_loop generate options fuel attempts = Some (r, tr) ->
  (tr = [] \/ exists id rest, tr = Generated id :: Checked id :: rest)
  /\ (forall id, r = Ok id -> last tr = Some (Checked id))
  /\ delays tr
     = map (fun j => backoff options (attempts + Z.of_nat j))
           (seq 1 (length (delays tr))).
Proof.
  induction fuel as [|fuel IH]; intros attempts r tr; cbn [safe_loop].
  - destruct (attempts <? maxAttempts options); [discriminate|].
    intros [= <- <-]. split; [auto|]. split; [discriminate | reflexivity].
  - destruct (attempts <? maxAttempts options).
    2:{ intros [= <- <-]. split; [auto|]. split; [discriminate | reflexivity]. }
    destruct (checkFunction options _ _) as [[|]|e].
    + intros [= <- <-]. split; [eauto|].
      split; [intros id [= <-]; reflexivity | reflexivity].
    + destruct (safe_loop generate options fuel (attempts + 1))
        as [[r' tr']|] eqn:E; [|discriminate].
      intros [= <- <-]. destruct (IH _ _ _ E) as (Ha & Hb & Hc).
      split; [eauto|]. split.
      * intros id Hid. specialize (Hb id Hid). rewrite !last_cons, Hb.
        reflexivity.
      * change (delays (Generated (generate (Z.to_nat attempts))
                          :: Checked (generate (Z.to_nat attempts))
                          :: Slept (backoff options (attempts + 1)) :: tr'))
          with (backoff options (attempts + 1) :: delays tr').
        cbn [length seq map]. f_equal.
        rewrite Hc at 1.
        rewrite <- (seq_shift (length (delays tr')) 1), map_map.
        apply map_ext. intros j. f_equal. lia.
    + intros [= <- <-]. split; [eauto|]. split; [discriminate | reflexivity].
Qed.

(** C4 (evaluation at the failing input). With [maxAttempts = 3], exponential
    backoff and a predicate that always answers [false], the run is
    generate, check, sleep 2, generate, check, sleep 4, generate, check,
    sleep 8, exhaustion: the delay of 8 comes after the final failed attempt
    and no attempt follows it. *)
Theorem safe_delay_after_final_attempt :
  let gen := fun _ : nat => js "x" in
  let tr := [Generated (js "x"); Checked (js "x"); Slept 2;
             Generated (js "x"); Checked (js "x"); Slept 4;
             Generated (js "x"); Checked (js "x"); Slept 8] in
  safe gen {| name := "t"; maxAttempts := 3; backoffType := "exponential";
              checkFunction := fun _ _ => Ok false |}
    = Some (Throw (Error "Failed to generate unique ID after 3 attempts"), tr)
  /\ ~ delays_between_attempts tr.
Proof.
  split; [reflexivity|].
  intros H. destruct (H 8%nat 8 eq_refl) as (id & Hid). discriminate Hid.
Qed.

Section RandomString.
Variable random_index : nat -> Z -> Z.

Lemma concat_nil_map {A B} (f : A -> list B) (l : list A) :
  (forall a, f a = []) -> concat (map f l) = [].
Proof.
  intros Hf. induction l as [|a l IH]; [reflexivity|].
  cbn [map concat]. rewrite Hf, IH. reflexivity.
Qed.

(** C9 (as amended). [generateRandomString] never raises: with an empty
    alphabet it returns the empty string for every requested length, and with
    length 0 it returns the empty string for every alphabet. *)
Theorem generateRandomString_empty k :
  (forall len, generateRandomString random_index k len [] = Ok [])
  /\ (forall alphabet, generateRandomString random_index k 0 alphabet = Ok []).
Proof.
  split.
  - intros len. unfold generateRandomString. f_equal.
    apply concat_nil_map. intros i. reflexivity.
  - intros alphabet. reflexivity.
Qed.

End RandomString.

(** C9 (counterexample). Asking for 5 characters from the empty alphabet
    raises nothing: the call returns the empty string. *)
Lemma generateRandomString_empty_alphabet_returns :
  generateRandomString (fun _ _ => 0) 0 5 [] = Ok []
  /\ ~ (exists e, generateRandomString (fun _ _ => 0) 0 5 [] = Throw e).
Proof.
  split; [reflexivity|]. intros [e He]. discriminate He.
Qed.

End GeneratorProps.





Module Base64Props.
Import Base64.

(** Induction on a list three elements at a time. *)
Lemma list_ind3 {A} (Q : list A -> Prop) :
  Q [] -> (forall a, Q [a]) -> (forall a b, Q [a; b]) ->
  (forall a b c l, Q l -> Q (a :: b :: c :: l)) ->
  forall l, Q l.
Proof.
  intros H0 H1 H2 H3 l.
  assert (Q l /\ (forall a, Q (a :: l)) /\ (forall a b, Q (a :: b :: l)))
    as [H _].
  { induction l as [|x l (IH0 & IH1 & IH2)]; [auto|].
    split; [apply IH1|]. split; [intros a; apply IH2|].
    intros a b. apply H3, IH0. }
  exact H.
Qed.

Lemma sextets_range bs : Forall is_byte bs -> Forall is_sextet (sextets bs).
Proof.
  unfold is_byte, is_sextet.
  induction bs as [| a | a b | a b c l IH] using list_ind3; intros H; cbn [sextets].
  - constructor.
  - apply Forall_cons in H as [Ha _].
    repeat constructor; Z.div_mod_to_equations; lia.
  - apply Forall_cons in H as [Ha H]. apply Forall_cons in H as [Hb _].
    repeat constructor; Z.div_mod_to_equations; lia.
  - apply Forall_cons in H as [Ha H]. apply Forall_cons in H as [Hb H].
    apply Forall_cons in H as [Hc H].
    repeat (constructor; [Z.div_mod_to_equations; lia|]). apply IH, H.
Qed.

Lemma bytes_sextets bs : Forall is_byte bs -> bytes (sextets bs) = bs.
Proof.
  unfold is_byte.
  induction bs as [| a | a b | a b c l IH] using list_ind3; intros H.
  - reflexivity.
  - apply Forall_cons in H as [Ha _]. cbn [sextets bytes]. f_equal.
    Z.div_mod_to_equations; lia.
  - apply Forall_cons in H as [Ha H]. apply Forall_cons in H as [Hb _].
    cbn [sextets bytes]. f_equal; [|f_equal]; Z.div_mod_to_equations; lia.
  - apply Forall_cons in H as [Ha H]. apply Forall_cons in H as [Hb H].
    apply Forall_cons in H as [Hc H].
    cbn [sextets bytes]. rewrite (IH H).
    f_equal; [|f_equal; [|f_equal]]; Z.div_mod_to_equations; lia.
Qed.

Lemma char_of_sextet n :
  is_sextet n ->
  value_of (char_of n) = Some n
  /\ is_ascii_whitespace (char_of n) = false
  /\ (char_of n =? 61) = false.
Proof.
  unfold is_sextet. intros Hn.
  rewrite <- (Z2Nat.id n) by lia.
  assert (Z.to_nat n < 64)%nat as Hk by lia.
  revert Hk. generalize (Z.to_nat n). clear n Hn. intros k Hk.
  do 64 (destruct k as [|k]; [vm_compute; auto|]). lia.
Qed.

Lemma mapM_value_of sx :
  Forall is_sextet sx -> mapM value_of (map char_of sx) = Some sx.
Proof.
  induction 1 as [|n sx Hn _ IH]; [reflexivity|].
  cbn [map mapM]. destruct (char_of_sextet n Hn) as (-> & _).
  cbn. rewrite IH. reflexivity.
Qed.

Lemma filter_no_whitespace (s : jsstr) :
  Forall (fun c => is_ascii_whitespace c = false) s ->
  filter (fun c => is_ascii_whitespace c = false) s = s.
Proof.
  induction 1 as [|c s Hc _ IH]; [reflexivity|].
  rewrite filter_cons_True by exact Hc. rewrite IH. reflexivity.
Qed.

Lemma mod3_step n : (S (S (S n)) mod 3 = n mod 3)%nat.
Proof.
  replace (S (S (S n))) with (n + 1 * 3)%nat by lia. apply Nat.Div0.mod_add.
Qed.

Lemma mod4_step n : (S (S (S (S n))) mod 4 = n mod 4)%nat.
Proof.
  replace (S (S (S (S n)))) with (n + 1 * 4)%nat by lia.
  apply Nat.Div0.mod_add.
Qed.

(** The number of 6-bit groups against the number of bytes. *)
Lemma sextets_length bs :
  (length bs mod 3 = 0 /\ length (sextets bs) mod 4 = 0)%nat
  \/ (length bs mod 3 = 1 /\ length (sextets bs) mod 4 = 2)%nat
  \/ (length bs mod 3 = 2 /\ length (sextets bs) mod 4 = 3)%nat.
Proof.
  induction bs as [| a | a b | a b c l IH] using list_ind3.
  - left. split; reflexivity.
  - right. left. split; reflexivity.
  - right. right. split; reflexivity.
  - cbn [sextets length]. rewrite mod3_step, mod4_step. exact IH.
Qed.

Lemma strip_padding_encoded (X : jsstr) (n : nat) :
  Forall (fun c => (c =? 61) = false) X ->
  (n mod 3 = 0 /\ length X mod 4 = 0)%nat
  \/ (n mod 3 = 1 /\ length X mod 4 = 2)%nat
  \/ (n mod 3 = 2 /\ length X mod 4 = 3)%nat ->
  strip_padding (X ++ padding n) = X.
Proof.
  intros HX Hn. unfold strip_padding, padding.
  assert (forall y r, reverse X = y :: r -> (y =? 61) = false) as Hlast.
  { intros y r Hr. rewrite Forall_forall in HX. apply HX.
    apply elem_of_reverse. rewrite Hr. left. }
  destruct Hn as [[-> HL] | [[-> HL] | [-> HL]]].
  - rewrite app_nil_r, HL. cbn [Nat.eqb].
    destruct (reverse X) as [|y r] eqn:Hr; [reflexivity|].
    rewrite (Hlast y r eq_refl). reflexivity.
  - rewrite length_app. cbn [length].
    replace ((length X + 2) mod 4)%nat with 0%nat
      by (rewrite <- Nat.Div0.add_mod_idemp_l, HL; reflexivity).
    cbn [Nat.eqb]. change (X ++ [61; 61]) with (X ++ [61] ++ [61]).
    rewrite !reverse_app.
    change (reverse [61]) with [61]. cbn [app Z.eqb Pos.eqb].
    apply reverse_involutive.
  - rewrite length_app. cbn [length].
    replace ((length X + 1) mod 4)%nat with 0%nat
      by (rewrite <- Nat.Div0.add_mod_idemp_l, HL; reflexivity).
    cbn [Nat.eqb]. rewrite reverse_app. change (reverse [61]) with [61].
    cbn [app Z.eqb Pos.eqb].
    destruct (reverse X) as [|y r] eqn:Hr.
    + apply (f_equal reverse) in Hr. rewrite reverse_involutive in Hr.
      rewrite Hr. reflexivity.
    + rewrite (Hlast y r eq_refl). rewrite <- Hr.
      apply reverse_involutive.
Qed.

Lemma char_of_not_colon n : is_sextet n -> (char_of n =? 58) = false.
Proof.
  unfold is_sextet. intros Hn.
  rewrite <- (Z2Nat.id n) by lia.
  assert (Z.to_nat n < 64)%nat as Hk by lia.
  revert Hk. generalize (Z.to_nat n). clear n Hn. intros k Hk.
  do 64 (destruct k as [|k]; [vm_compute; auto|]). lia.
Qed.

(** The output of [btoa] holds no colon. *)
Lemma btoa_no_colon bs z :
  Forall is_byte bs -> btoa bs = Ok z -> includes z 58 = false.
Proof.
  intros Hb. unfold btoa. destruct (forallb _ bs); [|discriminate].
  intros [= <-]. unfold includes. rewrite existsb_app.
  apply orb_false_iff. split.
  - pose proof (sextets_range bs Hb) as Hs.
    induction Hs as [|n sx Hn _ IH]; [reflexivity|].
    cbn [map existsb]. rewrite IH, orb_false_r, Z.eqb_sym.
    apply char_of_not_colon, Hn.
  - unfold padding. destruct (length bs mod 3)%nat as [|[|[|?]]]; reflexivity.
Qed.

(** [atob] undoes [btoa]. *)
Lemma atob_btoa bs :
  Forall is_byte bs ->
  exists z, btoa bs = Ok z /\ atob z = Ok bs /\ (bs <> [] -> z <> []).
Proof.
  intros Hb. unfold btoa.
  assert (forallb (fun c => c <=? 255) bs = true) as ->.
  { apply forallb_forall. intros c Hc. rewrite Forall_forall in Hb.
    apply list_elem_of_In in Hc. apply Hb in Hc. unfold is_byte in Hc.
    apply Z.leb_le. lia. }
  eexists. split; [reflexivity|].
  pose proof (sextets_range bs Hb) as Hs.
  set (X := map char_of (sextets bs)).
  assert (Forall (fun c => (c =? 61) = false) X) as HX61.
  { unfold X. apply Forall_forall. intros c Hc.
    apply list_elem_of_In, in_map_iff in Hc as (n & <- & Hn).
    rewrite Forall_forall in Hs. apply list_elem_of_In in Hn.
    apply (char_of_sextet n (Hs n Hn)). }
  assert (Forall (fun c => is_ascii_whitespace c = false) X) as HXws.
  { unfold X. apply Forall_forall. intros c Hc.
    apply list_elem_of_In, in_map_iff in Hc as (n & <- & Hn).
    rewrite Forall_forall in Hs. apply list_elem_of_In in Hn.
    apply (char_of_sextet n (Hs n Hn)). }
  assert (length X = length (sextets bs)) as HlenX by apply length_map.
  split.
  - unfold atob. rewrite filter_no_whitespace.
    2:{ apply Forall_app. split; [exact HXws|].
        unfold padding. destruct (length bs mod 3)%nat as [|[|[|?]]];
          repeat constructor. }
    rewrite strip_padding_encoded
      by (try exact HX61; rewrite HlenX; apply sextets_length).
    destruct (sextets_length bs) as [[_ H] | [[_ H] | [_ H]]];
      rewrite HlenX, H; cbn [Nat.eqb]; unfold X;
      rewrite (mapM_value_of _ Hs), (bytes_sextets _ Hb); reflexivity.
  - intros Hne E. apply app_eq_nil in E as [E _]. unfold X in E.
    apply map_eq_nil in E. destruct bs as [|a [|b [|c l]]]; try congruence;
      discriminate E.
Qed.

Lemma value_of_sextet c n : value_of c = Some n -> is_sextet n.
Proof.
  unfold value_of, is_sextet.
  destruct (Z.leb_spec 65 c), (Z.leb_spec c 90); cbn [andb];
    try (intros [= <-]; lia);
    destruct (Z.leb_spec 97 c), (Z.leb_spec c 122); cbn [andb];
    try (intros [= <-]; lia);
    destruct (Z.leb_spec 48 c), (Z.leb_spec c 57); cbn [andb];
    try (intros [= <-]; lia);
    destruct (c =? 43); try (intros [= <-]; lia);
    destruct (c =? 47); try (intros [= <-]; lia); discriminate.
Qed.

Lemma bytes_range sx : Forall is_sextet sx -> Forall is_byte (bytes sx).
Proof.
  assert (forall l, Forall is_sextet l /\ (length l <= 3)%nat ->
                    Forall is_byte (bytes l)) as Hshort.
  { unfold is_sextet, is_byte. intros [|a [|b [|c [|d l]]]] [H Hl];
      cbn [bytes]; try constructor; cbn [length] in Hl; try lia.
    - apply Forall_cons in H as [Ha H]. apply Forall_cons in H as [Hb _].
      Z.div_mod_to_equations; lia.
    - constructor.
    - apply Forall_cons in H as [Ha H]. apply Forall_cons in H as [Hb _].
      Z.div_mod_to_equations; lia.
    - apply Forall_cons in H as [Ha H]. apply Forall_cons in H as [Hb H].
      apply Forall_cons in H as [Hc _].
      constructor; [Z.div_mod_to_equations; lia | constructor]. }
  intros H. remember (length sx) as n eqn:Hn. revert sx H Hn.
  induction n as [n IH] using lt_wf_ind. intros sx H Hn.
  destruct sx as [|a [|b [|c [|d l]]]];
    try (apply Hshort; split; [exact H | cbn; lia]).
  apply Forall_cons in H as [Ha H]. apply Forall_cons in H as [Hb H].
  apply Forall_cons in H as [Hc H]. apply Forall_cons in H as [Hd H].
  cbn [bytes]. unfold is_sextet, is_byte in *.
  repeat (constructor; [Z.div_mod_to_equations; lia|]).
  apply (IH (length l)); [subst n; cbn; lia | exact H | reflexivity].
Qed.

(** [atob] returns code units up to 255 only. *)
Lemma atob_bytes z bs : atob z = Ok bs -> Forall is_byte bs.
Proof.
  unfold atob. destruct (_ =? 1)%nat; [discriminate|].
  destruct (mapM value_of _) as [sx|] eqn:E; [|discriminate].
  intros [= <-]. apply bytes_range.
  apply mapM_Some_1 in E. induction E as [|c n s sx Hcn _ IH]; constructor.
  - eapply value_of_sextet, Hcn.
  - exact IH.
Qed.

End Base64Props.



Module EncoderProps.
Import Base64 Encoder Base64Props.


Lemma match_length_spec input i offset : forall fuel L,
  (i + L <= length input)%nat -> (L <= 255)%nat ->
  let L' := match_length input i offset fuel L in
  (L <= L')%nat /\ (L' <= 255)%nat /\ (i + L' <= length input)%nat
  /\ forall j, (L <= j < L')%nat ->
               input !! (i - offset + j)%nat = input !! (i + j)%nat.
Proof.
  induction fuel as [|fuel IH]; intros L HL H255; cbn [match_length].
  - repeat split; try lia; intros j Hj; lia.
  - destruct (Nat.ltb_spec (i + L) (length input)) as [H1|H1]; cbn [andb].
    2:{ repeat split; try lia; intros j Hj; lia. }
    destruct (bool_decide _) eqn:H2; cbn [andb].
    2:{ repeat split; try lia; intros j Hj; lia. }
    destruct (Nat.ltb_spec L 255) as [H3|H3].
    2:{ repeat split; try lia; intros j Hj; lia. }
    apply bool_decide_eq_true_1 in H2.
    destruct (IH (S L)) as (Ha & Hb & Hc & Hd); [lia | lia |].
    repeat split; try lia. intros j Hj.
    destruct (decide (j = L)) as [->|Hne]; [exact H2 | apply Hd; lia].
Qed.

Lemma match_length_beyond input i offset fuel :
  (length input <= i)%nat -> match_length input i offset fuel 0 = 0%nat.
Proof.
  intros Hi. destruct fuel as [|fuel]; cbn [match_length]; [reflexivity|].
  destruct (Nat.ltb_spec (i + 0) (length input)); [lia | reflexivity].
Qed.

Lemma longest_fold input i (Q : nat -> Prop) offs :
  Forall Q offs -> forall st,
  ((0 < fst st)%nat ->
     Q (snd st) /\ fst st = match_length input i (snd st) 255 0) ->
  let st' := fold_left (match_step input i) offs st in
  (0 < fst st')%nat ->
  Q (snd st') /\ fst st' = match_length input i (snd st') 255 0.
Proof.
  induction 1 as [|o offs Ho _ IH]; intros [mL mO] Hst; cbn [fold_left].
  - exact Hst.
  - apply IH. unfold match_step.
    destruct (Nat.ltb_spec mL (match_length input i o 255 0)); cbn [fst snd].
    + intros _. split; [exact Ho | reflexivity].
    + exact Hst.
Qed.

Lemma longest_match_spec input i maxLength maxOffset :
  longest_match input i = (maxLength, maxOffset) ->
  (0 < maxLength)%nat ->
  (1 <= maxOffset <= i)%nat /\ (maxOffset <= 255)%nat
  /\ (maxLength <= 255)%nat /\ (i + maxLength <= length input)%nat
  /\ forall j, (j < maxLength)%nat ->
               input !! (i - maxOffset + j)%nat = input !! (i + j)%nat.
Proof.
  intros Hlm Hpos. unfold longest_match in Hlm.
  pose proof (longest_fold input i (fun o => 1 <= o <= Nat.min i 255)%nat
                (seq 1 (Nat.min i 255))) as Hf.
  specialize (Hf ltac:(apply Forall_forall; intros o Ho;
                        apply list_elem_of_In, in_seq in Ho; lia)
                 (0%nat, 0%nat) ltac:(cbn; lia)).
  cbn zeta in Hf. rewrite Hlm in Hf. cbn [fst snd] in Hf.
  destruct (Hf Hpos) as [Ho HL].
  destruct (Nat.le_gt_cases i (length input)) as [Hi|Hi].
  - pose proof (match_length_spec input i maxOffset 255 0
                  ltac:(lia) ltac:(lia)) as Hm.
    cbn zeta in Hm. rewrite <- HL in Hm. destruct Hm as (_ & Hb & Hc & Hd).
    repeat split; try lia. intros j Hj. apply Hd. lia.
  - exfalso. rewrite HL, match_length_beyond in Hpos; lia.
Qed.

Lemma lz77_copy_spec input i off : forall n j dec,
  (1 <= off <= i)%nat ->
  dec = take (i + j) input ->
  (i + j + n <= length input)%nat ->
  (forall k, (j <= k < j + n)%nat ->
             input !! (i - off + k)%nat = input !! (i + k)%nat) ->
  lz77_copy dec (Z.of_nat i - Z.of_nat off) (Z.of_nat j) n
    = take (i + j + n) input.
Proof.
  induction n as [|n IH]; intros j dec Hoff Hdec Hlen Heq; cbn [lz77_copy].
  - rewrite Hdec. f_equal. lia.
  - destruct (Z.ltb_spec (Z.of_nat i - Z.of_nat off + Z.of_nat j) 0); [lia|].
    replace (Z.to_nat (Z.of_nat i - Z.of_nat off + Z.of_nat j))
      with (i - off + j)%nat by lia.
    destruct (lookup_lt_is_Some_2 input (i + j)%nat ltac:(lia)) as [c Hc].
    assert (dec !! (i - off + j)%nat = Some c) as ->.
    { rewrite Hdec, lookup_take_lt by lia. rewrite Heq by lia. exact Hc. }
    cbn [ToString].
    replace (Z.of_nat j + 1) with (Z.of_nat (S j)) by lia.
    rewrite (IH (S j)); [f_equal; lia | exact Hoff | | lia |].
    + rewrite Hdec. replace (i + S j)%nat with (S (i + j)) by lia.
      symmetry. apply take_S_r, Hc.
    + intros k Hk. apply Heq. lia.
Qed.

Lemma lz77_loop_acc input : forall fuel i acc,
  lz77_loop input fuel i acc = acc ++ lz77_loop input fuel i [].
Proof.
  induction fuel as [|fuel IH]; intros i acc; cbn [lz77_loop].
  - rewrite app_nil_r. reflexivity.
  - destruct (input !! i) as [c|]; [|rewrite app_nil_r; reflexivity].
    destruct (longest_match input i) as [maxLength maxOffset].
    destruct (4 <=? maxLength)%nat; [|destruct (c =? 255)];
      rewrite IH, (IH _ ([] ++ _)), app_assoc; reflexivity.
Qed.

Lemma expand_token x len rest dec :
  x <> 0 ->
  lz77_expand (255 :: x :: len :: rest) dec
    = lz77_expand rest
        (lz77_copy dec (Z.of_nat (length dec) - x) 0 (Z.to_nat len)).
Proof.
  intros Hx. cbn [lz77_expand]. rewrite Z.eqb_refl.
  destruct (Z.eqb_spec x 0); [congruence | reflexivity].
Qed.

Lemma expand_escape rest dec :
  lz77_expand (255 :: 0 :: rest) dec = lz77_expand rest (dec ++ [255]).
Proof. reflexivity. Qed.

Lemma expand_literal c rest dec :
  c <> 255 -> lz77_expand (c :: rest) dec = lz77_expand rest (dec ++ [c]).
Proof.
  intros Hc. cbn [lz77_expand].
  destruct (Z.eqb_spec c 255); [congruence | reflexivity].
Qed.

(** Expanding what the compressor emits from position [i] on, starting from
    the first [i] characters, rebuilds the input. *)
Lemma lz77_expand_loop input : forall fuel i,
  (i <= length input)%nat -> (length input - i <= fuel)%nat ->
  lz77_expand (lz77_loop input fuel i []) (take i input) = input.
Proof.
  induction fuel as [|fuel IH]; intros i Hi Hfuel; cbn [lz77_loop].
  - cbn [lz77_expand]. apply take_ge. lia.
  - destruct (input !! i) as [c|] eqn:Hc.
    2:{ cbn [lz77_expand]. apply take_ge. apply lookup_ge_None_1, Hc. }
    pose proof (lookup_lt_Some _ _ _ Hc) as Hlt.
    destruct (longest_match input i) as [maxLength maxOffset] eqn:Hlm.
    destruct (Nat.leb_spec 4 maxLength) as [H4|H4].
    + destruct (longest_match_spec _ _ _ _ Hlm ltac:(lia))
        as (Ho & Ho255 & HL255 & HiL & Heq).
      rewrite lz77_loop_acc. cbn [app].
      rewrite expand_token by lia.
      rewrite length_take, Nat.min_l by lia. rewrite Nat2Z.id.
      change 0 with (Z.of_nat 0).
      rewrite (lz77_copy_spec input i maxOffset maxLength 0%nat);
        [| lia | f_equal; lia | lia | intros k Hk; apply Heq; lia].
      replace (i + 0 + maxLength)%nat with (i + maxLength)%nat by lia.
      apply IH; lia.
    + destruct (Z.eqb_spec c 255) as [->|Hne].
      * rewrite lz77_loop_acc. cbn [app]. rewrite expand_escape.
        rewrite <- (take_S_r _ _ _ Hc).
        replace (S i) with (i + 1)%nat by lia. apply IH; lia.
      * rewrite lz77_loop_acc. cbn [app]. rewrite expand_literal by exact Hne.
        rewrite <- (take_S_r _ _ _ Hc).
        replace (S i) with (i + 1)%nat by lia. apply IH; lia.
Qed.

(** The compressor emits code units up to 255 only. *)
Lemma lz77_loop_bytes input :
  Forall is_byte input ->
  forall fuel i acc, Forall is_byte acc ->
  Forall is_byte (lz77_loop input fuel i acc).
Proof.
  intros Hin. induction fuel as [|fuel IH]; intros i acc Hacc;
    cbn [lz77_loop]; [exact Hacc|].
  destruct (input !! i) as [c|] eqn:Hc; [|exact Hacc].
  destruct (longest_match input i) as [maxLength maxOffset] eqn:Hlm.
  destruct (Nat.leb_spec 4 maxLength) as [H4|H4].
  - destruct (longest_match_spec _ _ _ _ Hlm ltac:(lia))
      as (Ho & Ho255 & HL255 & _).
    apply IH. apply Forall_app. split; [exact Hacc|].
    unfold is_byte. repeat constructor; lia.
  - destruct (c =? 255); apply IH; apply Forall_app; (split; [exact Hacc|]).
    + unfold is_byte. repeat constructor; lia.
    + constructor; [|constructor]. rewrite Forall_forall in Hin.
      apply Hin. eapply list_elem_of_lookup_2, Hc.
Qed.


(** The sequence-match compression is lossless on every non-empty string
    of code points 0 to 255. *)
Theorem lz77_roundtrip (s : jsstr) :
  s <> [] -> Forall is_byte s ->
  exists z,
    compress s (JString (js "lz77")) = Ok z
    /\ decompress (Str z) (Some (JString (js "lz77"))) = Str s.
Proof.
  intros Hne Hb.
  pose proof (lz77_expand_loop s (length s) 0 ltac:(lia) ltac:(lia)) as Hexp.
  change (take 0 s) with (@nil Z) in Hexp.
  set (c := lz77_loop s (length s) 0 []) in *.
  assert (Forall is_byte c) as Hc by (apply lz77_loop_bytes; [exact Hb | constructor]).
  assert (c <> []) as Hcne.
  { intros E. rewrite E in Hexp. cbn in Hexp. congruence. }
  destruct (atob_btoa c Hc) as (z & Hz & Hzc & Hzne).
  exists z. split.
  - destruct s as [|a s]; [congruence|]. unfold compress.
    rewrite bool_decide_eq_true_2 by reflexivity. exact Hz.
  - specialize (Hzne Hcne). destruct z as [|a z]; [congruence|].
    unfold decompress. rewrite bool_decide_eq_true_2 by reflexivity.
    unfold decompress_lz77_try. rewrite Hzc. cbn. rewrite Hexp. reflexivity.
Qed.



(** C10. [Encoder.decode] called on an array of encodings reverses that
    array in place: after the call the caller's array holds the encodings in
    reversed order (every other array of the store is untouched), and the
    decodings are applied in the mirror order of encoding, the last encoding
    of the array being decoded first. *)
Theorem decode_reverses_callers_array (P : Platform)
    (store : gmap positive (list json)) (l : positive) (arr : list json)
    (input : strU) (autoDetect : bool) :
  store !! l = Some arr ->
  let '(r, store') := decode P store input (ArrayRef l) autoDetect in
  store' !! l = Some (reverse arr)
  /\ (forall l', l' <> l -> store' !! l' = store !! l')
  /\ r = decode_loop P autoDetect input (reverse arr)
  /\ (forall init final, arr = init ++ [final] ->
        r = (first ← (if autoDetect then Wrapper.autoDetectAndDecode P input
                      else Wrapper.decode P input final);
             decode_loop P autoDetect first (reverse init))).
Proof.
  intros Hl. unfold decode. rewrite Hl. unfold decode_array.
  split; [apply lookup_insert_eq|].
  split; [intros l' Hne; apply lookup_insert_ne; congruence|].
  split; [reflexivity|].
  intros init final ->. rewrite reverse_snoc. reflexivity.
Qed.

Lemma decode_reverses_callers_array_witness :
  let store : gmap positive (list json) :=
    {[ 1%positive := [JString (js "base64"); JString (js "hex")] ]} in
  let '(r, store') :=
    decode Demo.platform store (Str (js "614756736247383d"))
           (ArrayRef 1%positive) false in
  store' !! 1%positive = Some [JString (js "hex"); JString (js "base64")]
  /\ r = Ok (Str (js "hello")).
Proof.
  intros store.
  pose proof (decode_reverses_callers_array Demo.platform store 1%positive
                [JString (js "base64"); JString (js "hex")]
                (Str (js "614756736247383d")) false eq_refl) as H.
  destruct (decode Demo.platform store (Str (js "614756736247383d"))
              (ArrayRef 1%positive) false) as [r store'].
  destruct H as (H1 & _ & H2 & _). split; [exact H1|].
  rewrite H2. vm_compute. reflexivity.
Defined.

Lemma initial_array_lookup code :
  is_byte code -> initial_array !! Z.to_nat code = Some [code].
Proof.
  unfold is_byte. intros Hc. unfold initial_array.
  change (map (fun i => [Z.of_nat i]) (seq 0 256))
    with ((fun i => [Z.of_nat i]) <$> seq 0 256).
  rewrite list_lookup_fmap, lookup_seq_lt by lia.
  cbn. do 2 f_equal. lia.
Qed.

Lemma lzw_expand_bytes : forall codes ext nextCode ch result,
  Forall is_byte codes ->
  lzw_expand codes (initial_array ++ ext) nextCode (Str ch) result
    = Ok (result ++ codes).
Proof.
  induction codes as [|code codes IH]; intros ext nextCode ch result Hb;
    cbn [lzw_expand].
  - rewrite app_nil_r. reflexivity.
  - apply Forall_cons in Hb as [Hc Hb].
    assert (code < Z.of_nat (length (initial_array ++ ext))) as Hlt.
    { rewrite length_app. change (length initial_array) with 256%nat.
      unfold is_byte in Hc. lia. }
    destruct (Z.ltb_spec code (Z.of_nat (length (initial_array ++ ext))));
      [|lia].
    rewrite lookup_app_l
      by (change (length initial_array) with 256%nat; unfold is_byte in Hc; lia).
    rewrite (initial_array_lookup code Hc).
    change (Ok (Str [code]) ≫= ?k) with (k (Str [code])). cbv beta.
    cbn [ToString first_char].
    destruct (nextCode <? 65536).
    + rewrite <- app_assoc, IH by exact Hb. rewrite <- app_assoc. reflexivity.
    + rewrite IH by exact Hb. rewrite <- app_assoc. reflexivity.
Qed.

(** The dictionary decompressor never expands anything: [atob] yields code
    units below 256 only, each of which stands for itself, so that the
    result is the decoded text as it is. *)
Lemma decompress_gzip_is_atob z c rest :
  atob z = Ok (c :: rest) ->
  decompress_gzip_try z = Ok (Str (c :: rest)).
Proof.
  intros Hz. pose proof (atob_bytes _ _ Hz) as Hb.
  apply Forall_cons in Hb as [Hc Hb].
  unfold decompress_gzip_try. rewrite Hz.
  change (Ok (c :: rest) ≫= ?k) with (k (c :: rest)). cbv beta zeta iota.
  rewrite (initial_array_lookup c Hc).
  rewrite <- (app_nil_r initial_array), lzw_expand_bytes by exact Hb.
  reflexivity.
Qed.

(** [compress] and [decompress] on the empty string. *)
Lemma compress_decompress_empty (method : json) :
  compress [] method = Ok [] /\ decompress (Str []) (Some method) = Str [].
Proof. split; reflexivity. Qed.

(** C2 (evaluation at the failing input). The dictionary compressor pushes
    the codes 97 and 256 for "aaa"; the character of code 256 is outside the
    range of [btoa], so that [compress("aaa", "gzip")] throws and there is
    nothing to decompress. *)
Theorem compress_gzip_aaa_throws :
  lzw_codes (js "aaa") = [Some 97; Some 256]
  /\ compress (js "aaa") (JString (js "gzip")) = Throw InvalidCharacterError.
Proof. split; vm_compute; reflexivity. Qed.

End EncoderProps.

Module PipelineProps.
Import Pipeline Examples.

(** No piece of [input.split(":")] holds a colon. *)
Lemma split_colon_pieces input : forall piece,
  includes piece 58 = false ->
  Forall (fun p => includes p 58 = false) (split_colon input piece).
Proof.
  induction input as [|c rest IH]; intros piece Hp; cbn [split_colon].
  - constructor; [exact Hp | constructor].
  - destruct (Z.eqb_spec c 58) as [->|Hc].
    + constructor; [exact Hp | apply IH; reflexivity].
    + apply IH. unfold includes in Hp |- *. rewrite existsb_app, Hp.
      cbn [existsb orb].
      destruct (Z.eqb_spec 58 c); [congruence | reflexivity].
Qed.

(** Whatever the input, the payload that [reverse] works on is free of
    colons: it ends where the second colon of the input stands. *)
Lemma split2_content_no_colon input configStr content :
  split2 input = (configStr, Str content) -> includes content 58 = false.
Proof.
  unfold split2. intros H.
  pose proof (split_colon_pieces input [] eq_refl) as Hall.
  destruct (split_colon input []) as [|a [|b l]]; cbn in H; try discriminate.
  injection H as _ <-.
  apply Forall_cons in Hall as [_ Hall]. apply Forall_cons in Hall as [Hb _].
  exact Hb.
Qed.

(** C5 (evaluation at the failing input). For the envelope made of the
    configuration of a bare reversible pipeline, a colon and the payload
    "a:b", [reverse] splits off "a" as the payload, not "a:b": what follows
    the second colon is dropped, and "a" is returned. *)
Theorem reverse_drops_after_second_colon :
  split2 (bare_config ++ js ":a:b") = (Str bare_config, Str (js "a"))
  /\ reverse Demo.platform (bare_config ++ js ":a:b") = Some (Str (js "a")).
Proof. split; vm_compute; reflexivity. Qed.

(** C1 (evaluation at the failing input). A pipeline with no encoder, no
    compression and reversibility enabled turns "a:b" into its configuration
    prefix followed by ":a:b", and [reverse] of that envelope is "a", not
    "a:b". With the dictionary compression instead, [process] itself throws
    on "aaa". *)
Theorem reverse_process_loses_input :
  process Demo.platform bare (js "a:b") = Ok (bare_config ++ js ":a:b")
  /\ reverse Demo.platform (bare_config ++ js ":a:b") = Some (Str (js "a"))
  /\ process Demo.platform gzipped (js "aaa") = Throw InvalidCharacterError.
Proof. split; [|split]; vm_compute; reflexivity. Qed.

Section Reverse.
Context (P : Platform).

Lemma bind_Ok {A B} (a : A) (k : A -> res B) : (Ok a ≫= k) = k a.
Proof. reflexivity. Qed.

Lemma split_colon_free b : forall piece,
  includes b 58 = false -> split_colon b piece = [piece ++ b].
Proof.
  induction b as [|c b IH]; intros piece Hb; cbn [split_colon].
  - rewrite app_nil_r. reflexivity.
  - unfold includes in Hb. cbn [existsb] in Hb.
    apply orb_false_iff in Hb as [Hc Hb]. rewrite Z.eqb_sym in Hc. rewrite Hc.
    rewrite IH by exact Hb. rewrite <- app_assoc. reflexivity.
Qed.

Lemma split_colon_first a b : forall piece,
  includes a 58 = false ->
  split_colon (a ++ 58 :: b) piece = (piece ++ a) :: split_colon b [].
Proof.
  induction a as [|c a IH]; intros piece Ha; cbn [split_colon app].
  - rewrite Z.eqb_refl, app_nil_r. reflexivity.
  - unfold includes in Ha. cbn [existsb] in Ha.
    apply orb_false_iff in Ha as [Hc Ha]. rewrite Z.eqb_sym in Hc. rewrite Hc.
    rewrite IH by exact Ha. rewrite <- app_assoc. reflexivity.
Qed.

(** An envelope whose two parts hold no colon splits into these parts. *)
Lemma split2_envelope a b :
  includes a 58 = false -> includes b 58 = false ->
  split2 (a ++ js ":" ++ b) = (Str a, Str b)
  /\ includes (a ++ js ":" ++ b) 58 = true.
Proof.
  intros Ha Hb. split.
  - unfold split2. change (js ":" ++ b) with (58 :: b).
    rewrite split_colon_first by exact Ha.
    rewrite split_colon_free by exact Hb. reflexivity.
  - unfold includes. rewrite existsb_app. apply orb_true_iff. right.
    reflexivity.
Qed.

(** With a second colon in the envelope, the payload ends before it:
    whatever follows is dropped. *)
Lemma split2_cuts_at_second_colon a b c :
  includes a 58 = false -> includes b 58 = false ->
  split2 (a ++ js ":" ++ b ++ js ":" ++ c) = (Str a, Str b).
Proof.
  intros Ha Hb. unfold split2.
  change (a ++ js ":" ++ b ++ js ":" ++ c) with (a ++ 58 :: (b ++ 58 :: c)).
  rewrite split_colon_first by exact Ha.
  rewrite (split_colon_first b c []) by exact Hb.
  reflexivity.
Qed.

(** Round trip, where the defects do not bite: compression "none" or
    "lz77", and a payload without colon. *)
Theorem reverse_process_roundtrip (p : EncodingPipeline)
    (s encoded configStr : jsstr) :
  isReversible p = true ->
  encodes_to P p s encoded ->
  decodes_back P p s encoded ->
  config_survives P p configStr ->
  (compressionMethod p = js "none" /\ includes encoded 58 = false)
  \/ (compressionMethod p = js "lz77"
      /\ Forall Base64.is_byte encoded) ->
  exists envelope,
    process P p s = Ok envelope /\ reverse P envelope = Some (Str s).
Proof.
  intros Hrev Henc Hdec (Hcfg & Hcolon & text & Hatob & Hparse) Hcomp.
  (* the payload and its decompression *)
  assert (exists payload,
             (if bool_decide (compressionMethod p <> js "none")
              then Encoder.compress encoded (JString (compressionMethod p))
              else Ok encoded) = Ok payload
             /\ includes payload 58 = false
             /\ (if negb (is_string (Some (JString (compressionMethod p)))
                                    (js "none"))
                 then Encoder.decompress (Str payload)
                        (Some (JString (compressionMethod p)))
                 else Str payload) = Str encoded)
    as (payload & Hpay & Hpc & Hdecomp).
  { destruct Hcomp as [[-> Hc] | [-> Hb]].
    - exists encoded. rewrite bool_decide_eq_false_2 by tauto.
      split; [reflexivity|]. split; [exact Hc | reflexivity].
    - rewrite bool_decide_eq_true_2 by (vm_compute; congruence).
      change (negb (is_string (Some (JString (js "lz77"))) (js "none")))
        with true. cbv iota.
      destruct encoded as [|c encoded].
      + exists []. repeat split; reflexivity.
      + destruct (EncoderProps.lz77_roundtrip (c :: encoded)) as (z & Hz & Hd);
          [discriminate | exact Hb |].
        exists z. split; [exact Hz|]. split; [|exact Hd].
        unfold Encoder.compress in Hz.
        rewrite bool_decide_eq_true_2 in Hz by reflexivity.
        unfold Encoder.compress_lz77 in Hz.
        eapply Base64Props.btoa_no_colon; [|exact Hz].
        apply EncoderProps.lz77_loop_bytes; [exact Hb | constructor]. }
  destruct (split2_envelope configStr payload Hcolon Hpc) as [Hsplit Hinc].
  exists (configStr ++ js ":" ++ payload). split.
  - unfold process. unfold encodes_to in Henc.
    destruct (encoders p) as [|e0 es] eqn:He.
    + subst encoded. cbn [length Nat.ltb Nat.leb].
      rewrite bind_Ok, Hpay, bind_Ok, Hrev, Hcfg, bind_Ok. reflexivity.
    + destruct Henc as (results & Hres & Hlast).
      cbn [length Nat.ltb Nat.leb]. rewrite Hres, bind_Ok, Hlast.
      rewrite bind_Ok, Hpay, bind_Ok, Hrev, Hcfg, bind_Ok. reflexivity.
  - unfold reverse. rewrite Hinc. cbn [negb]. unfold reverse_try.
    rewrite Hsplit. cbn [ToString]. rewrite Hatob, bind_Ok, Hparse, bind_Ok.
    unfold config_of. rewrite bind_Ok.
    change (get_field (js "c") _)
      with (Some (JString (compressionMethod p))).
    change (get_field (js "e") _)
      with (Some (JArray (map JString (encoders p)))).
    rewrite Hdecomp. cbn [has_encoders]. rewrite bind_Ok, length_map.
    unfold encodes_to in Henc. unfold decodes_back in Hdec.
    destruct (encoders p) as [|e0 es] eqn:He.
    + subst encoded. reflexivity.
    + cbn [length Nat.ltb Nat.leb]. unfold Encoder.decode_array. cbn [fst].
      rewrite Hdec. reflexivity.
Qed.

Lemma decompress_catches payload m :
  payload <> [] ->
  (m = js "lz77" /\ (exists e, Encoder.decompress_lz77_try payload = Throw e))
  \/ (m = js "gzip" /\ (exists e, Encoder.decompress_gzip_try payload = Throw e)) ->
  Encoder.decompress (Str payload) (Some (JString m)) = Str payload.
Proof.
  intros Hne H. destruct payload as [|c payload]; [congruence|].
  unfold Encoder.decompress.
  destruct H as [[-> [e He]] | [-> [e He]]].
  - rewrite bool_decide_eq_true_2 by reflexivity. rewrite He. reflexivity.
  - rewrite bool_decide_eq_false_2 by (vm_compute; congruence).
    rewrite bool_decide_eq_true_2 by reflexivity. rewrite He. reflexivity.
Qed.

(** A failed decompression does not stop [reverse]: for an envelope whose
    configuration announces "lz77" or "gzip" and no encoder, and whose
    payload makes the decompressor throw, [reverse] returns the payload as
    it is, on every platform. *)
Lemma reverse_after_failed_decompression configStr text fields payload m :
  includes configStr 58 = false -> includes payload 58 = false ->
  payload <> [] ->
  Base64.atob configStr = Ok text ->
  JSON_parse P text = Ok (JObject fields) ->
  get_field (js "c") fields = Some (JString m) ->
  get_field (js "e") fields = Some (JArray []) ->
  (m = js "lz77" /\ (exists e, Encoder.decompress_lz77_try payload = Throw e))
  \/ (m = js "gzip"
      /\ (exists e, Encoder.decompress_gzip_try payload = Throw e)) ->
  reverse P (configStr ++ js ":" ++ payload) = Some (Str payload).
Proof.
  intros Hc Hp Hne Hatob Hparse Hfc Hfe Hm.
  destruct (split2_envelope configStr payload Hc Hp) as [Hs Hi].
  unfold reverse. rewrite Hi. cbn [negb]. unfold reverse_try. rewrite Hs.
  cbn [ToString]. rewrite Hatob, bind_Ok, Hparse, !bind_Ok, Hfc, Hfe.
  assert (Hnone : is_string (Some (JString m)) (js "none") = false).
  { cbn [is_string]. apply bool_decide_eq_false_2.
    destruct Hm as [[-> _] | [-> _]]; vm_compute; congruence. }
  rewrite Hnone. cbn [negb]. rewrite (decompress_catches payload m Hne Hm).
  reflexivity.
Qed.

(** Where [reverse] answers [null]: for every input without a colon, for
    every input whose configuration segment is not base64, for every input
    whose decoded configuration does not parse, and whenever anything else
    in its [try] block throws (a decoder of the processor, a property read
    on [null] or [undefined]).  A failure inside a decompressor is caught by
    [Encoder.decompress] itself, which then returns its input unchanged. *)
Theorem reverse_sentinel (input : jsstr) :
  (includes input 58 = false -> reverse P input = None)
  /\ (forall e, Base64.atob (ToString (fst (split2 input))) = Throw e ->
                reverse P input = None)
  /\ (forall decoded e,
        Base64.atob (ToString (fst (split2 input))) = Ok decoded ->
        JSON_parse P decoded = Throw e ->
        reverse P input = None)
  /\ (forall e, reverse_try P input = Throw e -> reverse P input = None)
  /\ (forall payload m,
        payload <> [] ->
        (m = js "lz77"
         /\ (exists e, Encoder.decompress_lz77_try payload = Throw e))
        \/ (m = js "gzip"
            /\ (exists e, Encoder.decompress_gzip_try payload = Throw e)) ->
        Encoder.decompress (Str payload) (Some (JString m)) = Str payload).
Proof.
  assert (forall e, reverse_try P input = Throw e -> reverse P input = None)
    as Htry.
  { intros e He. unfold reverse. rewrite He. destruct (negb _); reflexivity. }
  split; [|split; [|split; [|split]]].
  - intros H. unfold reverse. rewrite H. reflexivity.
  - intros e He. apply (Htry e). unfold reverse_try.
    destruct (split2 input) as [configStr content]. cbn [fst] in He.
    rewrite He. reflexivity.
  - intros decoded e Hd He. apply (Htry e). unfold reverse_try.
    destruct (split2 input) as [configStr content]. cbn [fst] in Hd.
    rewrite Hd. cbn. rewrite He. reflexivity.
  - exact Htry.
  - apply decompress_catches.
Qed.

End Reverse.

Lemma reverse_sentinel_witness :
  reverse Demo.platform (js "no delimiter here") = None
  /\ reverse Demo.platform (js "%%%:payload") = None
  /\ reverse Demo.platform (js "aGVsbG8=:payload") = None
  /\ Encoder.decompress (Str (js "!!!")) (Some (JString (js "lz77")))
     = Str (js "!!!").
Proof.
  split; [|split; [|split]].
  - apply (proj1 (reverse_sentinel Demo.platform (js "no delimiter here"))).
    vm_compute. reflexivity.
  - destruct (reverse_sentinel Demo.platform (js "%%%:payload"))
      as (_ & H & _).
    apply (H InvalidCharacterError). vm_compute. reflexivity.
  - destruct (reverse_sentinel Demo.platform (js "aGVsbG8=:payload"))
      as (_ & _ & H & _).
    apply (H (js "hello") SyntaxError); vm_compute; reflexivity.
  - destruct (reverse_sentinel Demo.platform []) as (_ & _ & _ & _ & H).
    apply H; [discriminate|]. left. split; [reflexivity|].
    exists InvalidCharacterError. vm_compute. reflexivity.
Defined.

(** C6 (evaluation at the failing input). The envelope announces the
    compression "lz77" and carries the payload "!!!", which is not base64:
    the decompressor throws on it, [Encoder.decompress] swallows the failure
    and returns its input, and [reverse] goes on and returns "!!!" where
    [null] is announced for a reversal that is not possible. The same
    happens with "gzip". *)
Theorem reverse_returns_payload_when_decompression_fails :
  Encoder.decompress_lz77_try (js "!!!") = Throw InvalidCharacterError
  /\ Encoder.decompress (Str (js "!!!")) (Some (JString (js "lz77")))
     = Str (js "!!!")
  /\ reverse Demo.platform (lz77_config ++ js ":!!!") = Some (Str (js "!!!"))
  /\ reverse Demo.platform (lz77_config ++ js ":!!!") <> None
  /\ Encoder.decompress_gzip_try (js "!!!") = Throw InvalidCharacterError
  /\ reverse Demo.platform (gzip_config ++ js ":!!!") = Some (Str (js "!!!")).
Proof.
  split; [vm_compute; reflexivity|]. split; [vm_compute; reflexivity|].
  split; [vm_compute; reflexivity|]. split; [vm_compute; discriminate|].
  split; vm_compute; reflexivity.
Qed.

End PipelineProps.



Module ChecksumFacts.
Import Checksum ChecksumTry ChecksumProps.

Lemma validateInput_cases input algorithm len :
  (accepted input algorithm len /\
   exists s l, input = VString s /\ len = Int l
               /\ validateInput input algorithm len = Ok (s, l))
  \/ (~ accepted input algorithm len /\
      exists msg, validateInput input algorithm len = Throw (ChecksumError msg)).
Proof.
  unfold accepted, valid_args.
  destruct input as [| | s | ty];
    try solve [right; split; [intros (s' & l' & [=] & _) | cbn; eauto]].
  unfold validateInput.
  destruct (Z.gtb_spec (Z.of_nat (length s)) MAX_INPUT_LENGTH).
  { right. split; [|eauto]. intros (s' & l' & [= <-] & _ & H' & _). lia. }
  destruct (includes_alg algorithm) eqn:Ealg; cbn [negb].
  2:{ right. split; [|eauto].
      intros (s' & l' & _ & _ & _ & Hin & _).
      assert (includes_alg algorithm = true); [|congruence].
      apply existsb_exists. exists algorithm.
      split; [exact Hin | apply String.eqb_refl]. }
  apply existsb_exists in Ealg as (a & Ha & Heq). apply String.eqb_eq in Heq.
  subst a.
  destruct len as [l|].
  2:{ right. split; [|eauto]. intros (s' & l' & _ & [=] & _). }
  destruct (Z.ltb_spec l MIN_CHECKSUM_LENGTH); cbn [orb].
  { right. split; [|eauto]. intros (s' & l' & _ & [= <-] & _ & _ & H'). lia. }
  destruct (Z.gtb_spec l MAX_CHECKSUM_LENGTH).
  { right. split; [|eauto]. intros (s' & l' & _ & [= <-] & _ & _ & H'). lia. }
  left. split; [|eauto]. exists s, l. repeat split; try lia. exact Ha.
Qed.

(** [generate] on accepted arguments returns a digest, whatever the cache
    holds. *)
Lemma generate_accepted input algorithm len cache :
  accepted input algorithm len ->
  exists d cache', generate input algorithm len cache = (Ok d, cache').
Proof.
  intros Hacc.
  destruct (validateInput_cases input algorithm len)
    as [(_ & s & l & -> & -> & Hv) | (Hn & _)]; [|tauto].
  destruct Hacc as (s' & l' & [= <-] & [= <-] & _ & Halg & _).
  unfold generate. rewrite Hv. unfold crc32.
  destruct (getCRCTable cache) as [t c'].
  destruct (String.eqb_spec algorithm "djb2");
    [destruct (_ <? _); eauto|].
  destruct (String.eqb_spec algorithm "crc32");
    [destruct (_ <? _); eauto|].
  destruct (String.eqb_spec algorithm "adler32");
    [destruct (_ <? _); eauto|].
  destruct (String.eqb_spec algorithm "fnv1a");
    [destruct (_ <? _); eauto|].
  destruct (String.eqb_spec algorithm "murmur3");
    [destruct (_ <? _); eauto|].
  exfalso. unfold VALID_ALGORITHMS in Halg.
  destruct Halg as [H | [H | [H | [H | [H | []]]]]]; congruence.
Qed.

Lemma generate_rejected input algorithm len cache :
  ~ accepted input algorithm len ->
  exists msg,
    generate input algorithm len cache = (Throw (ChecksumError msg), cache).
Proof.
  intros Hn.
  destruct (validateInput_cases input algorithm len)
    as [(Ha & _) | (_ & msg & Hv)]; [tauto|].
  exists msg. unfold generate. rewrite Hv. reflexivity.
Qed.

(** X1. [generate] returns a digest exactly on the arguments that satisfy the
    validation constraints; on all others it raises a [ChecksumError] and
    leaves the table cache as it was. *)
Theorem generate_succeeds_iff_accepted input algorithm len cache :
  (accepted input algorithm len ->
   exists d cache', generate input algorithm len cache = (Ok d, cache'))
  /\ (~ accepted input algorithm len ->
      exists msg,
        generate input algorithm len cache
          = (Throw (ChecksumError msg), cache)).
Proof.
  split; [apply generate_accepted | apply generate_rejected].
Qed.

Lemma generate_succeeds_iff_accepted_witness :
  (exists d cache',
      generate (VString (js "abc")) "adler32" (Int 16) None = (Ok d, cache'))
  /\ (exists msg,
        generate (VString (js "abc")) "adler32" (Int 17) None
          = (Throw (ChecksumError msg), None))
  /\ (exists msg,
        generate VNull "djb2" (Int 4) None
          = (Throw (ChecksumError msg), None)).
Proof.
  split; [|split].
  - apply (proj1 (generate_succeeds_iff_accepted
                    (VString (js "abc")) "adler32"%string (Int 16) None)).
    exists (js "abc"), 16. repeat split; try (vm_compute; discriminate).
    cbn; tauto.
  - apply (proj2 (generate_succeeds_iff_accepted
                    (VString (js "abc")) "adler32"%string (Int 17) None)).
    intros (s & l & _ & [= <-] & _ & _ & _ & H). vm_compute in H. congruence.
  - apply (proj2 (generate_succeeds_iff_accepted
                    VNull "djb2"%string (Int 4) None)).
    intros (s & l & [=] & _).
Defined.

(** X2. The non-raising wrappers: [tryGenerate] answers [null] exactly on the
    arguments [generate] rejects, on which [tryValidate] answers [false]
    whatever the checksum; on accepted arguments [tryGenerate] returns a
    digest that [tryValidate] accepts. *)
Theorem try_wrappers input algorithm len cache :
  (~ accepted input algorithm len ->
   fst (tryGenerate input algorithm len cache) = None
   /\ forall checksum,
        fst (tryValidate input checksum algorithm len cache) = false)
  /\ (accepted input algorithm len -> cache_ok cache ->
      exists d,
        fst (tryGenerate input algorithm len cache) = Some d
        /\ fst (tryValidate input (VString d) algorithm len cache) = true).
Proof.
  split.
  - intros Hn. destruct (generate_rejected _ _ _ cache Hn) as (msg & Hg).
    unfold tryGenerate, tryValidate, validate. rewrite Hg.
    split; [reflexivity|]. intros [| | cs | ty]; try reflexivity.
    destruct (_ =? 0); [reflexivity|]. destruct (negb _); reflexivity.
  - intros (s & l & -> & -> & Hv) Hc.
    destruct (generate_valid s algorithm l cache Hv Hc) as (c' & Hg & _).
    eexists. unfold tryGenerate, tryValidate. rewrite Hg.
    split; [reflexivity|].
    pose proof (validate_generated s algorithm l cache Hv Hc) as Hval.
    destruct (validate _ _ _ _ _) as [[b|e] c'']; cbn [fst] in *; congruence.
Qed.

Lemma try_wrappers_witness :
  fst (tryGenerate (VString (js "abc")) "crc32" (Int 0) None) = None
  /\ fst (tryValidate (VString (js "abc")) (VString (js "zz")) "crc32" (Int 0)
            None) = false
  /\ exists d,
       fst (tryGenerate (VString (js "abc")) "crc32" (Int 6) None) = Some d
       /\ fst (tryValidate (VString (js "abc")) (VString d) "crc32" (Int 6)
                 None) = true.
Proof.
  destruct (try_wrappers (VString (js "abc")) "crc32" (Int 0) None) as [H0 _].
  destruct (try_wrappers (VString (js "abc")) "crc32" (Int 6) None) as [_ H6].
  assert (~ accepted (VString (js "abc")) "crc32" (Int 0)) as Hn.
  { intros (s & l & _ & [= <-] & _ & _ & H & _). vm_compute in H. congruence. }
  destruct (H0 Hn) as [Ha Hb]. split; [exact Ha|]. split; [apply Hb|].
  apply H6; [|left; reflexivity].
  exists (js "abc"), 6. repeat split; try (vm_compute; discriminate).
  cbn; tauto.
Defined.

Lemma is_lower36_spec c :
  is_lower36 c = true -> 48 <= c <= 57 \/ 97 <= c <= 122.
Proof.
  unfold is_lower36. intros Hc.
  apply orb_true_iff in Hc as [Hc|Hc]; apply andb_true_iff in Hc as [Ha Hb];
    apply Z.leb_le in Ha, Hb; lia.
Qed.

Lemma toLowerCase_toUpperCase s :
  forallb is_lower36 s = true -> toLowerCase (toUpperCase s) = s.
Proof.
  induction s as [|c s IH]; [reflexivity|]. cbn [forallb].
  intros [Hc Hs]%andb_true_iff. unfold toLowerCase, toUpperCase in *.
  cbn [map]. rewrite (IH Hs). f_equal. apply is_lower36_spec in Hc.
  destruct (Z.leb_spec 97 c), (Z.leb_spec c 122); cbn [andb].
  - destruct (Z.leb_spec 65 (c - 32)), (Z.leb_spec (c - 32) 90); cbn [andb];
      lia.
  - destruct (Z.leb_spec 65 c), (Z.leb_spec c 90); cbn [andb]; lia.
  - destruct (Z.leb_spec 65 c), (Z.leb_spec c 90); cbn [andb]; lia.
  - lia.
Qed.

Lemma upper_regex s :
  s <> [] -> forallb is_lower36 s = true ->
  base36_regex_test (toUpperCase s) = true.
Proof.
  intros Hne Hs. destruct s as [|c s]; [congruence|].
  unfold base36_regex_test, toUpperCase. cbn [map].
  change (forallb is_base36_char
            (map (fun c => if (97 <=? c) && (c <=? 122) then c - 32 else c)
                 (c :: s)) = true).
  apply forallb_forall. intros y Hy. apply in_map_iff in Hy as (x & <- & Hx).
  rewrite forallb_forall in Hs. specialize (Hs x Hx).
  apply is_lower36_spec in Hs. unfold is_base36_char.
  destruct (Z.leb_spec 97 x), (Z.leb_spec x 122); cbn [andb]; lia.
Qed.

(** X3. [validate] compares without regard to case: for accepted arguments and a
    well-formed checksum it answers whether the lower-cased checksum is the
    digest of [generate]; in particular the upper-cased digest validates. *)
Theorem validate_ignores_case s algorithm l cache checksum :
  valid_args s algorithm l -> cache_ok cache ->
  base36_regex_test checksum = true ->
  exists d,
    fst (generate (VString s) algorithm (Int l) cache) = Ok d
    /\ fst (validate (VString s) (VString checksum) algorithm (Int l) cache)
       = Ok (bool_decide (toLowerCase checksum = d))
    /\ fst (validate (VString s) (VString (toUpperCase d)) algorithm (Int l)
                     cache) = Ok true.
Proof.
  intros Hv Hc Hre.
  destruct (generate_valid s algorithm l cache Hv Hc) as (c' & Hg & _).
  set (d := format36 _ _) in *. exists d.
  pose proof (format36_lower (hash_of algorithm s build_table) l) as Hlow.
  fold d in Hlow.
  assert (length d = Z.to_nat l) as Hlen.
  { apply length_format36. destruct Hv as (_ & _ & Hl).
    unfold MIN_CHECKSUM_LENGTH in Hl. lia. }
  assert (d <> []) as Hne.
  { intros E. rewrite E in Hlen. cbn in Hlen. destruct Hv as (_ & _ & Hl).
    unfold MIN_CHECKSUM_LENGTH in Hl. lia. }
  assert (forall cs, base36_regex_test cs = true ->
            fst (validate (VString s) (VString cs) algorithm (Int l) cache)
            = Ok (bool_decide (toLowerCase cs = d))) as Hval.
  { intros cs Hcs. unfold validate.
    destruct (Z.eqb_spec (Z.of_nat (length cs)) 0) as [E|_].
    { destruct cs; [discriminate Hcs | cbn in E; lia]. }
    rewrite Hcs. cbn [negb]. rewrite Hg. cbn [fst].
    rewrite (toLowerCase_lower d Hlow). unfold jsstr_eqb. f_equal.
    destruct (decide (d = toLowerCase cs)) as [E|E].
    - rewrite !bool_decide_eq_true_2; congruence.
    - rewrite !bool_decide_eq_false_2; congruence. }
  split; [rewrite Hg; reflexivity|]. split; [apply Hval, Hre|].
  rewrite (Hval _ (upper_regex d Hne Hlow)).
  rewrite bool_decide_eq_true_2; [reflexivity|].
  apply toLowerCase_toUpperCase, Hlow.
Qed.

Lemma validate_ignores_case_witness :
  exists d,
    fst (generate (VString (js "data")) "crc32" (Int 8) None) = Ok d
    /\ fst (validate (VString (js "data")) (VString (js "01C9kFaB")) "crc32"
                     (Int 8) None)
       = Ok (bool_decide (toLowerCase (js "01C9kFaB") = d))
    /\ fst (validate (VString (js "data")) (VString (toUpperCase d)) "crc32"
                     (Int 8) None) = Ok true.
Proof.
  apply (validate_ignores_case (js "data") "crc32"%string 8 None
           (js "01C9kFaB")).
  - unfold valid_args. split; [vm_compute; discriminate|].
    split; [cbn; tauto | vm_compute; split; discriminate].
  - left; reflexivity.
  - vm_compute. reflexivity.
Defined.

(** X4. [validate] raises a [ChecksumError] for a checksum that is missing, not
    a string, empty or holds a character outside [0-9a-zA-Z], before it looks
    at the other arguments; the table cache is left as it was. *)
Theorem validate_rejects_malformed input checksum algorithm len cache :
  match checksum with
  | VString cs => base36_regex_test cs = false
  | _ => True
  end ->
  exists msg,
    validate input checksum algorithm len cache
      = (Throw (ChecksumError msg), cache).
Proof.
  destruct checksum as [| | cs | ty]; intros H; cbn [validate]; eauto.
  destruct (_ =? 0); [eauto|]. rewrite H. cbn [negb]. eauto.
Qed.

Lemma validate_rejects_malformed_witness :
  exists msg,
    validate (VString (js "data")) (VString (js "01c9-fab")) "crc32" (Int 8)
             None
      = (Throw (ChecksumError msg), None).
Proof.
  apply (validate_rejects_malformed (VString (js "data"))
           (VString (js "01c9-fab")) "crc32"%string (Int 8) None).
  vm_compute. reflexivity.
Defined.

End ChecksumFacts.


Module HashFacts.
Import Checksum ChecksumTry ChecksumProps.

Lemma toString36_go_length : forall fuel k n acc,
  (1 <= k)%nat -> 0 <= n < 36 ^ Z.of_nat k ->
  (length (toString36_go fuel n acc) <= length acc + k)%nat.
Proof.
  induction fuel as [|fuel IH]; intros k n acc Hk Hn; cbn [toString36_go].
  - cbn [length]. lia.
  - destruct (Z.eqb_spec (n / 36) 0) as [E|E]; [cbn [length]; lia|].
    destruct k as [|[|k]]; [lia | |].
    + exfalso. apply E. apply Z.div_small. change (36 ^ Z.of_nat 1) with 36 in Hn.
      lia.
    + etransitivity; [apply (IH (S k))|cbn [length]; lia]; [lia|].
      replace (Z.of_nat (S (S k))) with (Z.succ (Z.of_nat (S k))) in Hn by lia.
      rewrite Z.pow_succ_r in Hn by lia.
      split; [apply Z.div_pos; lia|].
      apply Z.div_lt_upper_bound; lia.
Qed.

(** The base-36 rendering of an unsigned 32-bit number has at most 7
    characters. *)
Lemma toString36_length h :
  0 <= h < 2 ^ 32 -> (length (toString36 h) <= 7)%nat.
Proof.
  intros Hh. unfold toString36.
  apply (toString36_go_length _ 7 h []); [lia|].
  change (36 ^ Z.of_nat 7) with 78364164096. lia.
Qed.

Lemma generate_from_7 s algorithm l cache :
  valid_args s algorithm l -> cache_ok cache -> 7 <= l ->
  fst (generate (VString s) algorithm (Int l) cache)
  = Ok (replicate
          (Z.to_nat l - length (toString36 (hash_of algorithm s build_table)))
          48
        ++ toString36 (hash_of algorithm s build_table)).
Proof.
  intros Hv Hc Hl.
  destruct (generate_valid s algorithm l cache Hv Hc) as (c1 & Hg & _).
  pose proof (hash_of_range algorithm s build_table) as Hr.
  pose proof (toString36_length _ Hr) as Hlen.
  rewrite Hg. cbn [fst]. f_equal.
  unfold format36, padStart0, substring0.
  destruct (Z.ltb_spec
              (Z.of_nat (length (toString36 (hash_of algorithm s build_table))))
              l) as [Hlt|Hge].
  - f_equal. f_equal. lia.
  - assert (length (toString36 (hash_of algorithm s build_table))
            = Z.to_nat l) as E by lia.
    rewrite E, Nat.sub_diag. cbn [replicate app]. rewrite <- E.
    apply firstn_all.
Qed.

(** X5. A digest of 7 characters or more is never cut: it is the whole base-36
    rendering of the 32-bit hash of the input under the chosen algorithm
    (7 characters at most) behind as many zeros as it takes. A longer digest
    of the same input is therefore the shorter one behind more zeros:
    lengths beyond 7 add no information. *)
Theorem generate_pads_from_7 s algorithm l cache :
  valid_args s algorithm l -> cache_ok cache -> 7 <= l ->
  exists d,
    fst (generate (VString s) algorithm (Int l) cache) = Ok d
    /\ d = replicate
             (Z.to_nat l
              - length (toString36 (hash_of algorithm s build_table))) 48
           ++ toString36 (hash_of algorithm s build_table)
    /\ (length (toString36 (hash_of algorithm s build_table)) <= 7)%nat
    /\ forall l',
         l <= l' -> valid_args s algorithm l' ->
         fst (generate (VString s) algorithm (Int l') cache)
         = Ok (replicate (Z.to_nat (l' - l)) 48 ++ d).
Proof.
  intros Hv Hc Hl.
  pose proof (hash_of_range algorithm s build_table) as Hr.
  pose proof (toString36_length _ Hr) as Hlen.
  eexists. split; [apply generate_from_7; assumption|].
  split; [reflexivity|]. split; [exact Hlen|].
  intros l' Hl' Hv'. rewrite (generate_from_7 s algorithm l' cache Hv' Hc)
    by lia.
  f_equal. rewrite app_assoc. f_equal. rewrite <- replicate_add.
  f_equal. lia.
Qed.

Lemma generate_pads_from_7_witness :
  exists d,
    fst (generate (VString (js "data")) "crc32" (Int 8) None) = Ok d
    /\ d = replicate
             (Z.to_nat 8
              - length (toString36 (hash_of "crc32" (js "data") build_table)))
             48
           ++ toString36 (hash_of "crc32" (js "data") build_table)
    /\ (length (toString36 (hash_of "crc32" (js "data") build_table)) <= 7)%nat
    /\ forall l',
         8 <= l' -> valid_args (js "data") "crc32" l' ->
         fst (generate (VString (js "data")) "crc32" (Int l') None)
         = Ok (replicate (Z.to_nat (l' - 8)) 48 ++ d).
Proof.
  apply (generate_pads_from_7 (js "data") "crc32"%string 8 None).
  - unfold valid_args. split; [vm_compute; discriminate|].
    split; [cbn; tauto | vm_compute; split; discriminate].
  - left; reflexivity.
  - lia.
Defined.

(** *** The 32-bit arithmetic of the hash functions *)

Lemma ToInt32_mod z : ToInt32 z mod 2 ^ 32 = z mod 2 ^ 32.
Proof.
  unfold ToInt32.
  rewrite <- Zminus_mod_idemp_l, Z.mod_mod by lia.
  rewrite Zminus_mod_idemp_l.
  replace (z + 2 ^ 31 - 2 ^ 31) with z by lia. reflexivity.
Qed.

Lemma ToInt32_range z : - 2 ^ 31 <= ToInt32 z < 2 ^ 31.
Proof.
  unfold ToInt32. pose proof (Z.mod_pos_bound (z + 2 ^ 31) (2 ^ 32)). lia.
Qed.

Lemma ToInt32_small z : - 2 ^ 31 <= z < 2 ^ 31 -> ToInt32 z = z.
Proof.
  intros Hz. unfold ToInt32. rewrite Z.mod_small; lia.
Qed.

Lemma ushr0 x : ushr x 0 = x mod 2 ^ 32.
Proof.
  unfold ushr, ToUint32. change (0 mod 32) with 0. apply Z.shiftr_0_r.
Qed.

Lemma bor0 x : bor x 0 = ToInt32 x.
Proof. unfold bor. change (ToInt32 0) with 0. apply Z.lor_0_r. Qed.

Lemma shl_mod a n :
  0 <= n < 32 -> shl a n mod 2 ^ 32 = (a * 2 ^ n) mod 2 ^ 32.
Proof.
  intros Hn. unfold shl. rewrite ToInt32_mod, (Z.mod_small n 32) by lia.
  rewrite Z.shiftl_mul_pow2 by lia.
  rewrite <- Zmult_mod_idemp_l, ToInt32_mod, Zmult_mod_idemp_l. reflexivity.
Qed.

(** X6. [djb2] is hash * 33 + code, from 5381 on, modulo 2^32. *)
Theorem djb2_arithmetic str :
  djb2 str = fold_left (fun h c => h * 33 + c) str 5381 mod 2 ^ 32.
Proof.
  unfold djb2. rewrite ushr0.
  assert (forall h h', h mod 2 ^ 32 = h' mod 2 ^ 32 ->
            fold_left (fun hash charCode =>
                         bor (shl hash 5 + hash + charCode) 0) str h mod 2 ^ 32
            = fold_left (fun h c => h * 33 + c) str h' mod 2 ^ 32) as H.
  { induction str as [|c str IH]; intros h h' Hh; cbn [fold_left]; [exact Hh|].
    apply IH. rewrite bor0, ToInt32_mod.
    rewrite <- Zplus_mod_idemp_l, <- (Zplus_mod_idemp_l (shl h 5)).
    rewrite shl_mod by lia.
    rewrite (Zplus_mod_idemp_l (h * 2 ^ 5)), Zplus_mod_idemp_l.
    replace (h * 2 ^ 5 + h + c) with (h * 33 + c) by lia.
    rewrite <- Zplus_mod_idemp_l, <- Zmult_mod_idemp_l, Hh.
    rewrite Zmult_mod_idemp_l, Zplus_mod_idemp_l. reflexivity. }
  apply H. reflexivity.
Qed.

Lemma lor_disjoint k a :
  0 <= a < 2 ^ 16 -> Z.lor (k * 2 ^ 16) a = k * 2 ^ 16 + a.
Proof.
  intros Ha.
  assert (Z.land (k * 2 ^ 16) a = 0) as Hland.
  { apply Z.bits_inj'. intros i Hi. rewrite Z.land_spec, Z.bits_0.
    destruct (Z.lt_ge_cases i 16) as [Hlt|Hge].
    - rewrite Z.mul_pow2_bits_low by lia. reflexivity.
    - destruct (Z.eq_dec a 0) as [->|Hne];
        [rewrite Z.bits_0; apply andb_false_r|].
      rewrite (Z.bits_above_log2 a i); [apply andb_false_r | lia |].
      assert (Z.log2 a < 16); [|lia]. apply Z.log2_lt_pow2; lia. }
  pose proof (Z.add_lor_land (k * 2 ^ 16) a). lia.
Qed.

Lemma ToInt32_multiple z : exists k, ToInt32 (z * 2 ^ 16) = k * 2 ^ 16.
Proof.
  unfold ToInt32.
  exists (z - (z * 2 ^ 16 + 2 ^ 31) / 2 ^ 32 * 2 ^ 16).
  pose proof (Z.div_mod (z * 2 ^ 16 + 2 ^ 31) (2 ^ 32) ltac:(lia)). lia.
Qed.

Lemma adler_sums_range str :
  0 <= fst (adler_sums str) < 65521 /\ 0 <= snd (adler_sums str) < 65521.
Proof.
  unfold adler_sums.
  assert (forall a b, 0 <= a < 65521 -> 0 <= b < 65521 ->
            let r := fold_left
                       (fun '(a, b) ch =>
                          let a' := (a + ch) mod 65521 in
                          (a', (b + a') mod 65521)) str (a, b) in
            0 <= fst r < 65521 /\ 0 <= snd r < 65521) as H.
  { induction str as [|c str IH]; intros a b Ha Hb; cbn [fold_left];
      [cbn; lia|].
    apply IH; apply Z.mod_pos_bound; lia. }
  apply H; lia.
Qed.

(** X7. [adler32] is the second running sum times 65536 plus the first, both
    taken modulo 65521: the sign bit that [b << 16] may set is undone by the
    final [>>> 0]. *)
Theorem adler32_sums str :
  adler32 str = snd (adler_sums str) * 65536 + fst (adler_sums str)
  /\ 0 <= fst (adler_sums str) < 65521
  /\ 0 <= snd (adler_sums str) < 65521.
Proof.
  destruct (adler_sums_range str) as [Ha Hb]. split; [|tauto].
  unfold adler32. change (fold_left _ str (1, 0)) with (adler_sums str).
  destruct (adler_sums str) as [a b]. cbn [fst snd] in *.
  rewrite ushr0. unfold bor, shl.
  rewrite (ToInt32_small b), (ToInt32_small a) by lia.
  change (16 mod 32) with 16. rewrite Z.shiftl_mul_pow2 by lia.
  assert (forall x, ToInt32 (ToInt32 x) = ToInt32 x) as Hidem.
  { intros x. apply ToInt32_small, ToInt32_range. }
  rewrite Hidem.
  destruct (ToInt32_multiple b) as [k Hk]. rewrite Hk.
  rewrite lor_disjoint by lia. rewrite <- Hk.
  rewrite <- Zplus_mod_idemp_l, ToInt32_mod, Zplus_mod_idemp_l.
  apply Z.mod_small. lia.
Qed.

Lemma lxor_mod a b n :
  0 <= n -> Z.lxor a b mod 2 ^ n = Z.lxor (a mod 2 ^ n) (b mod 2 ^ n).
Proof.
  intros Hn. apply Z.bits_inj'. intros i Hi. rewrite Z.lxor_spec.
  destruct (Z.lt_ge_cases i n).
  - rewrite !Z.mod_pow2_bits_low by lia. apply Z.lxor_spec.
  - rewrite !Z.mod_pow2_bits_high by lia. reflexivity.
Qed.

(** X8. [fnv1a] is (hash xor code) * 16777619 modulo 2^32, from the offset basis
    2166136261 on: the signed 32-bit steps of the code compute the unsigned
    hash. *)
Theorem fnv1a_arithmetic str :
  fnv1a str
  = fold_left (fun h c => (Z.lxor h c * 16777619) mod 2 ^ 32) str 2166136261.
Proof.
  unfold fnv1a. rewrite ushr0.
  assert (forall h h', h mod 2 ^ 32 = h' -> 0 <= h' < 2 ^ 32 ->
            fold_left (fun hash ch => imul (bxor hash ch) 16777619) str h
              mod 2 ^ 32
            = fold_left (fun h c => (Z.lxor h c * 16777619) mod 2 ^ 32) str h')
    as H.
  { induction str as [|c str IH]; intros h h' Hh Hr; cbn [fold_left];
      [exact Hh|].
    apply IH; [|apply Z.mod_pos_bound; lia].
    unfold imul, bxor. rewrite ToInt32_mod.
    rewrite (ToInt32_small 16777619) by lia.
    rewrite <- Zmult_mod_idemp_l, ToInt32_mod.
    rewrite lxor_mod, !ToInt32_mod by lia. rewrite Hh.
    rewrite <- (Z.mod_small h' (2 ^ 32)) at 1 by lia.
    rewrite <- lxor_mod by lia. rewrite Zmult_mod_idemp_l. reflexivity. }
  apply H; [reflexivity | lia].
Qed.

End HashFacts.


Module GeneratorFacts.
Import Generator Generators GeneratorProps.

Lemma random_draws random_index (alphabet : jsstr) (l : list nat) k :
  (forall j, 0 <= random_index j (Z.of_nat (length alphabet))
               < Z.of_nat (length alphabet)) ->
  let s := concat
        (map (fun i =>
                match alphabet !! Z.to_nat
                        (random_index (k + i)%nat (Z.of_nat (length alphabet))) with
                | Some c =>
                    if 0 <=? random_index (k + i)%nat (Z.of_nat (length alphabet))
                    then [c] else []
                | None => []
                end) l) in
  length s = length l /\ Forall (fun c => c ∈ alphabet) s.
Proof.
  intros Hr. induction l as [|i l [IHl IHf]]; [split; [reflexivity | constructor]|].
  cbn [map concat]. specialize (Hr (k + i)%nat).
  destruct (lookup_lt_is_Some_2 alphabet
              (Z.to_nat (random_index (k + i)%nat (Z.of_nat (length alphabet)))))
    as [c Hc]; [lia|].
  rewrite Hc. destruct (Z.leb_spec 0 (random_index (k + i)%nat
                                        (Z.of_nat (length alphabet)))); [|lia].
  split.
  - cbn [app length]. f_equal. exact IHl.
  - constructor; [|exact IHf]. eapply list_elem_of_lookup_2. exact Hc.
Qed.

Lemma generateRandomString_in_range random_index k len (alphabet : jsstr) :
  (forall j, 0 <= random_index j (Z.of_nat (length alphabet))
               < Z.of_nat (length alphabet)) ->
  exists s, generateRandomString random_index k len alphabet = Ok s
            /\ length s = Z.to_nat len
            /\ Forall (fun c => c ∈ alphabet) s.
Proof.
  intros Hr. unfold generateRandomString. eexists. split; [reflexivity|].
  destruct (random_draws random_index alphabet (seq 0 (Z.to_nat len)) k Hr)
    as [Hl Hf].
  split; [|exact Hf]. rewrite Hl. apply length_seq.
Qed.

(** X9. When every draw [Math.floor(Math.random() * alphabet.length)] is an
    index of the alphabet, [generateRandomString] returns exactly [length]
    characters (none for a negative length), each taken from the alphabet. *)
Theorem generateRandomString_length_alphabet random_index k len
    (alphabet : jsstr) :
  (forall j, 0 <= random_index j (Z.of_nat (length alphabet))
               < Z.of_nat (length alphabet)) ->
  exists s, generateRandomString random_index k len alphabet = Ok s
            /\ length s = Z.to_nat len
            /\ Forall (fun c => c ∈ alphabet) s.
Proof.
  intros Hr. unfold generateRandomString. eexists. split; [reflexivity|].
  destruct (random_draws random_index alphabet (seq 0 (Z.to_nat len)) k Hr)
    as [Hl Hf].
  split; [|exact Hf]. rewrite Hl. apply length_seq.
Qed.

Lemma generateRandomString_length_alphabet_witness :
  exists s, generateRandomString (fun j n => Z.of_nat j mod n) 5 4 (js "abc")
              = Ok s
            /\ length s = Z.to_nat 4
            /\ Forall (fun c => c ∈ js "abc") s.
Proof.
  apply (generateRandomString_length_alphabet (fun j n => Z.of_nat j mod n)).
  intros j. apply Z.mod_pos_bound. reflexivity.
Defined.

Lemma NANO_ALPHABET_alphanumeric : Forall is_alphanumeric NANO_ALPHABET.
Proof.
  let l := eval vm_compute in NANO_ALPHABET in change NANO_ALPHABET with l.
  unfold is_alphanumeric. repeat (constructor; [lia|]). constructor.
Qed.

Lemma ALPHANUMERIC_alphanumeric : Forall is_alphanumeric ALPHANUMERIC.
Proof.
  let l := eval vm_compute in ALPHANUMERIC in change ALPHANUMERIC with l.
  unfold is_alphanumeric. repeat (constructor; [lia|]). constructor.
Qed.

Lemma HEX_ALPHABET_hex : Forall is_hex_digit HEX_ALPHABET.
Proof.
  let l := eval vm_compute in HEX_ALPHABET in change HEX_ALPHABET with l.
  unfold is_hex_digit. repeat (constructor; [lia|]). constructor.
Qed.

Lemma Forall_elem_of (Q : Z -> Prop) (alphabet s : jsstr) :
  Forall Q alphabet -> Forall (fun c => c ∈ alphabet) s -> Forall Q s.
Proof.
  intros Ha Hs. rewrite Forall_forall in Ha.
  eapply Forall_impl; [exact Hs|]. intros c Hc. apply Ha. exact Hc.
Qed.

(** *** [safe] *)

Lemma safe_loop_stops generate options c : forall j fuel a,
  0 <= a ->
  a + Z.of_nat j < maxAttempts options ->
  (j < fuel)%nat ->
  (forall i, (i < j)%nat ->
             checkFunction options (Z.to_nat a + i)
               (generate (Z.to_nat a + i)%nat) = Ok false) ->
  checkFunction options (Z.to_nat a + j) (generate (Z.to_nat a + j)%nat) = c ->
  c <> Ok false ->
  safe_loop generate options fuel a
    = Some (match c with
            | Ok _ => Ok (generate (Z.to_nat a + j)%nat)
            | Throw e => Throw e
            end,
            failing_run generate options j a
              ++ [Generated (generate (Z.to_nat a + j)%nat);
                  Checked (generate (Z.to_nat a + j)%nat)]).
Proof.
  induction j as [|j IH]; intros fuel a Ha Hmax Hfuel Hrej Hc Hne.
  - destruct fuel as [|fuel]; [lia|]. cbn [safe_loop failing_run app].
    destruct (Z.ltb_spec a (maxAttempts options)); [|lia].
    rewrite Nat.add_0_r in Hc |- *. rewrite Hc.
    destruct c as [[|]|e]; [reflexivity | congruence | reflexivity].
  - destruct fuel as [|fuel]; [lia|]. cbn [safe_loop].
    destruct (Z.ltb_spec a (maxAttempts options)); [|lia].
    pose proof (Hrej 0%nat ltac:(lia)) as H0. rewrite Nat.add_0_r in H0.
    rewrite H0.
    assert (Hn : (Z.to_nat (a + 1) = S (Z.to_nat a))%nat) by lia.
    rewrite (IH fuel (a + 1)); try lia; try exact Hne.
    + rewrite failing_run_S, Hn.
      replace (S (Z.to_nat a) + j)%nat with (Z.to_nat a + S j)%nat by lia.
      reflexivity.
    + intros i Hi. rewrite Hn.
      replace (S (Z.to_nat a) + i)%nat with (Z.to_nat a + S i)%nat by lia.
      apply Hrej. lia.
    + rewrite Hn.
      replace (S (Z.to_nat a) + j)%nat with (Z.to_nat a + S j)%nat by lia.
      exact Hc.
Qed.

(** X11. [safe] returns the first candidate that the check accepts: when the
    candidates of attempts [0 .. j-1] are rejected and the one of attempt [j]
    (with [j < maxAttempts]) is accepted, the run consists of the [j] failed
    attempts, each followed by its delay, then the generation and the check
    of candidate [j], which is returned. *)
Theorem safe_returns_first_accepted generate options (j : nat) :
  Z.of_nat j < maxAttempts options ->
  (forall i, (i < j)%nat -> checkFunction options i (generate i) = Ok false) ->
  checkFunction options j (generate j) = Ok true ->
  safe generate options
    = Some (Ok (generate j),
            failing_run generate options j 0
              ++ [Generated (generate j); Checked (generate j)]).
Proof.
  intros Hj Hrej Hacc. unfold safe.
  apply (safe_loop_stops generate options (Ok true) j
           (Z.to_nat (maxAttempts options)) 0); try lia; try assumption.
  discriminate.
Qed.

Lemma safe_returns_first_accepted_witness :
  let gen := fun k : nat => js "id-" ++ [48 + Z.of_nat k] in
  let options := {| name := "demo"; maxAttempts := 5;
                    backoffType := "exponential";
                    checkFunction := fun k _ => Ok (Nat.eqb k 2) |} in
  safe gen options
    = Some (Ok (gen 2%nat),
            failing_run gen options 2 0
              ++ [Generated (gen 2%nat); Checked (gen 2%nat)]).
Proof.
  intros gen options.
  apply (safe_returns_first_accepted gen options 2).
  - reflexivity.
  - intros [|[|i]] Hi; [reflexivity | reflexivity | lia].
  - reflexivity.
Defined.

(** X12. An error raised by the check function ends [safe] at once: after
    [j] rejected candidates, a check that throws [e] at attempt
    [j < maxAttempts] makes the run fail with [e], with no further delay,
    generation or check. *)
Theorem safe_rethrows_check_error generate options (j : nat) e :
  Z.of_nat j < maxAttempts options ->
  (forall i, (i < j)%nat -> checkFunction options i (generate i) = Ok false) ->
  checkFunction options j (generate j) = Throw e ->
  safe generate options
    = Some (Throw e,
            failing_run generate options j 0
              ++ [Generated (generate j); Checked (generate j)]).
Proof.
  intros Hj Hrej Hthrow. unfold safe.
  apply (safe_loop_stops generate options (Throw e) j
           (Z.to_nat (maxAttempts options)) 0); try lia; try assumption.
  discriminate.
Qed.

Lemma safe_rethrows_check_error_witness :
  let gen := fun k : nat => js "id-" ++ [48 + Z.of_nat k] in
  let options := {| name := "demo"; maxAttempts := 5;
                    backoffType := "linear";
                    checkFunction := fun k _ =>
                      if Nat.eqb k 1 then Throw (Error "db down")
                      else Ok false |} in
  safe gen options
    = Some (Throw (Error "db down"),
            failing_run gen options 1 0
              ++ [Generated (gen 1%nat); Checked (gen 1%nat)]).
Proof.
  intros gen options.
  apply (safe_rethrows_check_error gen options 1).
  - reflexivity.
  - intros [|i] Hi; [reflexivity | lia].
  - reflexivity.
Defined.

(** X13. Exhaustion in general: when every candidate is rejected, [safe]
    makes [maxAttempts] attempts, each followed by its delay, and then fails
    with the exhaustion error; when [maxAttempts] is zero or negative it
    fails at once, without generating or checking anything. *)
Theorem safe_exhaustion generate options :
  ((forall k id, checkFunction options k id = Ok false) ->
   safe generate options
     = Some (Throw (exhausted options),
             failing_run generate options
               (Z.to_nat (maxAttempts options)) 0))
  /\ (maxAttempts options <= 0 ->
      safe generate options = Some (Throw (exhausted options), [])).
Proof.
  split.
  - intros Hc. unfold safe. apply safe_loop_all_rejected; [exact Hc|].
    f_equal. lia.
  - intros Hle. unfold safe.
    destruct (Z.to_nat (maxAttempts options)) eqn:E; [|lia].
    cbn [safe_loop]. destruct (Z.ltb_spec 0 (maxAttempts options)); [lia|].
    reflexivity.
Qed.

Lemma safe_exhaustion_witness :
  let gen := fun k : nat => js "id-" ++ [48 + Z.of_nat k] in
  let rejecting := {| name := "demo"; maxAttempts := 2;
                      backoffType := "linear";
                      checkFunction := fun _ _ => Ok false |} in
  let none := {| name := "demo"; maxAttempts := -1;
                 backoffType := "linear";
                 checkFunction := fun _ _ => Ok true |} in
  safe gen rejecting
    = Some (Throw (exhausted rejecting), failing_run gen rejecting 2 0)
  /\ safe gen none = Some (Throw (exhausted none), []).
Proof.
  intros gen rejecting none. split.
  - apply (proj1 (safe_exhaustion gen rejecting)). reflexivity.
  - apply (proj2 (safe_exhaustion gen none)). cbn [maxAttempts none]. lia.
Defined.

(** X14. The delays of [safe]: every run ends, a run that returns an
    identifier ends with the check that accepted it, and the [j]-th delay of
    the run (counting from 1) lasts [2 ^ j] milliseconds when [backoffType]
    is "exponential" and [100 * j] milliseconds otherwise. *)
Theorem safe_delay_schedule generate options :
  exists r tr,
    safe generate options = Some (r, tr)
    /\ (forall id, r = Ok id -> last tr = Some (Checked id))
    /\ delays tr
       = map (fun j => if String.eqb (backoffType options) "exponential"
                       then 2 ^ Z.of_nat j else 100 * Z.of_nat j)
             (seq 1 (length (delays tr))).
Proof.
  destruct (safe_total generate options) as (r & tr & Hs).
  exists r, tr. split; [exact Hs|].
  destruct (safe_loop_delays generate options _ _ _ _ Hs) as (_ & Hlast & Hd).
  split; [exact Hlast|]. rewrite Hd at 1. apply map_ext. intros j.
  unfold backoff. rewrite Z.add_0_l. reflexivity.
Qed.

(** *** [uuid] *)

Lemma uuid_digit_class (random16 : nat -> Z) c k :
  0 <= random16 k < 16 ->
  (c =? 120) || (c =? 121) = true ->
  exists d, uuid_digit c (random16 k) = [d] /\ uuid_class c d.
Proof.
  intros Hr Hc. generalize dependent (random16 k). intros r Hr.
  unfold uuid_digit, uuid_class.
  destruct (Z.eqb_spec c 120) as [->|Hx].
  - unfold Wrapper.toString16. destruct (Z.ltb_spec r 16); [|lia].
    eexists. split; [reflexivity|]. unfold Wrapper.hex_digit, is_hex_digit.
    destruct (Z.ltb_spec r 10); lia.
  - destruct (Z.eqb_spec c 121) as [->|Hy]; [|discriminate].
    assert (Hcases : r = 0 \/ r = 1 \/ r = 2 \/ r = 3 \/ r = 4 \/ r = 5
                     \/ r = 6 \/ r = 7 \/ r = 8 \/ r = 9 \/ r = 10 \/ r = 11
                     \/ r = 12 \/ r = 13 \/ r = 14 \/ r = 15) by lia.
    repeat (destruct Hcases as [->|Hcases]); try subst r;
      (eexists; split; [vm_compute; reflexivity|]; lia).
Qed.

Lemma uuid_replace_shaped random16 :
  (forall j, 0 <= random16 j < 16) ->
  forall template k,
    shaped uuid_class template (uuid_replace random16 template k).
Proof.
  intros Hr template. unfold shaped.
  induction template as [|c rest IH]; intros k; [constructor|].
  cbn [uuid_replace].
  destruct ((c =? 120) || (c =? 121)) eqn:Hc.
  - destruct (uuid_digit_class random16 c k (Hr k) Hc) as (d & -> & Hd).
    constructor; [exact Hd | apply IH].
  - constructor; [|apply IH]. unfold uuid_class.
    destruct (Z.eqb_spec c 120); [discriminate|].
    destruct (Z.eqb_spec c 121); [rewrite orb_true_r in Hc; discriminate|].
    reflexivity.
Qed.

(** X15. When every draw [(Math.random() * 16) | 0] lies in [0, 16), [uuid]
    returns 36 characters that follow the template position by position:
    each [x] is a lower-case hexadecimal digit, the [y] is one of [8], [9],
    [a], [b], and the four dashes and the version digit [4] stand where the
    template has them. *)
Theorem uuid_shape random16 k :
  (forall j, 0 <= random16 j < 16) ->
  length (uuid random16 k) = 36%nat
  /\ shaped uuid_class UUID_TEMPLATE (uuid random16 k).
Proof.
  intros Hr.
  pose proof (uuid_replace_shaped random16 Hr UUID_TEMPLATE k) as Hs.
  split; [|exact Hs].
  apply Forall2_length in Hs. unfold uuid. rewrite <- Hs. reflexivity.
Qed.

Lemma uuid_shape_witness :
  length (uuid (fun j => Z.of_nat j mod 16) 0) = 36%nat
  /\ shaped uuid_class UUID_TEMPLATE (uuid (fun j => Z.of_nat j mod 16) 0).
Proof.
  apply (uuid_shape (fun j => Z.of_nat j mod 16)).
  intros j. apply Z.mod_pos_bound. reflexivity.
Defined.

(** *** [batch] *)

Lemma set_add_either (ids : list jsstr) id ensureUnique :
  (if negb ensureUnique || negb (bool_decide (id ∈ ids))
   then set_add ids id else ids) = set_add ids id.
Proof.
  unfold set_add. destruct ensureUnique, (bool_decide (id ∈ ids)); reflexivity.
Qed.

Lemma set_add_length ids id :
  (length ids <= length (set_add ids id) <= S (length ids))%nat.
Proof.
  unfold set_add. destruct (bool_decide (id ∈ ids)); [lia|].
  rewrite length_app. cbn [length]. lia.
Qed.

Lemma fold_set_add_prefix l : forall ids,
  exists ext, fold_left set_add l ids = ids ++ ext.
Proof.
  induction l as [|x l IH]; intros ids.
  - exists []. cbn [fold_left]. rewrite app_nil_r. reflexivity.
  - cbn [fold_left]. destruct (IH (set_add ids x)) as (ext & ->).
    unfold set_add. destruct (bool_decide (x ∈ ids)); [eauto|].
    exists (x :: ext). rewrite <- app_assoc. reflexivity.
Qed.

Lemma set_add_NoDup ids id : NoDup ids -> NoDup (set_add ids id).
Proof.
  intros Hn. unfold set_add. destruct (bool_decide_reflect (id ∈ ids)) as [|Hni];
    [exact Hn|].
  apply NoDup_app. split; [exact Hn|]. split.
  - intros x Hx Hx'. apply list_elem_of_singleton in Hx'. subst. contradiction.
  - apply NoDup_singleton.
Qed.

Lemma fold_set_add_NoDup l : forall ids,
  NoDup ids -> NoDup (fold_left set_add l ids).
Proof.
  induction l as [|x l IH]; intros ids Hn; [exact Hn|].
  cbn [fold_left]. apply IH, set_add_NoDup, Hn.
Qed.

Lemma batch_loop_take candidate count ensureUnique : forall fuel k ids,
  (length ids <= Z.to_nat count)%nat ->
  (Z.to_nat count
     <= length (fold_left set_add (map candidate (seq k fuel)) ids))%nat ->
  batch_loop candidate count ensureUnique fuel k ids
    = Some (take (Z.to_nat count)
              (fold_left set_add (map candidate (seq k fuel)) ids)).
Proof.
  induction fuel as [|fuel IH]; intros k ids Hlen Henough.
  - cbn [seq map fold_left] in *. cbn [batch_loop].
    destruct (Z.ltb_spec (Z.of_nat (length ids)) count); [lia|].
    rewrite take_ge by lia. reflexivity.
  - cbn [batch_loop].
    destruct (Z.ltb_spec (Z.of_nat (length ids)) count).
    + rewrite set_add_either. cbn [seq map fold_left] in *.
      apply IH; [|exact Henough].
      pose proof (set_add_length ids (candidate k)). lia.
    + destruct (fold_set_add_prefix (map candidate (seq k (S fuel))) ids)
        as (ext & ->).
      rewrite take_app_le by lia. rewrite take_ge by lia. reflexivity.
Qed.

(** X16. [batch] returns the first [count] distinct identifiers that its
    generator produces, in the order of their first occurrence, as soon as
    that many distinct ones have been produced: the result has no duplicate
    and exactly [count] elements, and it is the same with [ensureUnique]
    set to [false] as with [true]. *)
Theorem batch_first_distinct candidate count ensureUnique fuel :
  (Z.to_nat count <= length (distinct (map candidate (seq 0 fuel))))%nat ->
  exists ids,
    batch candidate count ensureUnique fuel = Some ids
    /\ ids = take (Z.to_nat count) (distinct (map candidate (seq 0 fuel)))
    /\ NoDup ids
    /\ length ids = Z.to_nat count.
Proof.
  intros Henough. eexists. split; [|split; [reflexivity|]].
  - unfold batch. apply batch_loop_take; [cbn [length]; lia | exact Henough].
  - split.
    + eapply sublist_NoDup; [|apply sublist_take].
      apply fold_set_add_NoDup. constructor.
    + rewrite length_take. unfold distinct in Henough. unfold distinct. lia.
Qed.

Lemma batch_first_distinct_witness :
  let candidate := fun k : nat => [97 + Z.of_nat (k / 2)] in
  exists ids,
    batch candidate 3 false 6 = Some ids
    /\ ids = take (Z.to_nat 3) (distinct (map candidate (seq 0 6)))
    /\ NoDup ids
    /\ length ids = Z.to_nat 3.
Proof.
  intros candidate.
  apply (batch_first_distinct candidate 3 false 6).
  vm_compute. lia.
Defined.

(** *** [generate] *)

Section Generate.
Context (P : Platform).
Variable random_index : nat -> Z -> Z.
Variable now : Z.

Lemma join_length separator : forall pieces n,
  Forall (fun p => length p = n) pieces ->
  length (join separator pieces)
    = (length pieces * n + (length pieces - 1) * length separator)%nat.
Proof.
  induction pieces as [|p [|q rest] IH]; intros n Hf; [reflexivity | |].
  - inversion Hf; subst. cbn [join length Nat.sub Nat.mul Nat.add]. lia.
  - inversion Hf as [|? ? Hp Hrest]; subst.
    change (join separator (p :: q :: rest))
      with (p ++ separator ++ join separator (q :: rest)).
    rewrite !length_app, (IH (length p) Hrest).
    change (length (p :: q :: rest)) with (S (S (length rest))).
    change (length (q :: rest)) with (S (length rest)).
    replace (S (S (length rest)) - 1)%nat with (S (length rest)) by lia.
    replace (S (length rest) - 1)%nat with (length rest) by lia.
    lia.
Qed.

Lemma segments_loop_plain opts e :
  processor P = None ->
  encoding opts = inl e ->
  Wrapper.fallbackEncoders e = None
    \/ Wrapper.fallbackEncoders e = Some Wrapper.encode_rawHex ->
  (forall j, 0 <= random_index j (Z.of_nat (length (alphabet opts)))
               < Z.of_nat (length (alphabet opts))) ->
  forall n k,
  exists pieces,
    segments_loop P random_index opts n k = Ok pieces
    /\ length pieces = n
    /\ Forall (fun p => length p = Z.to_nat (size opts)) pieces
    /\ Forall (Forall (fun c => c ∈ alphabet opts)) pieces.
Proof.
  intros HP He Hfb Hr. induction n as [|n IH]; intros k.
  - exists []. repeat split; constructor.
  - cbn [segments_loop].
    destruct (generateRandomString_in_range random_index k (size opts)
                (alphabet opts) Hr) as (s & -> & Hl & Hf).
    destruct (IH (k + Z.to_nat (size opts))%nat) as (rest & Hrest & Hn & Hls & Hfs).
    rewrite He. unfold Wrapper.encodeMultiple, Wrapper.encode. rewrite HP.
    cbn [Wrapper.encodeMultiple_fallback mbind res_bind].
    assert (Henc : match Wrapper.fallbackEncoders e with
                   | Some encoder => encoder s
                   | None => Ok s
                   end = Ok s)
      by (destruct Hfb as [-> | ->]; reflexivity).
    rewrite Henc. cbn [mbind res_bind]. rewrite Hrest. cbn [mbind res_bind].
    exists (s :: rest). split; [reflexivity|]. split; [cbn [length]; lia|].
    split; constructor; assumption.
Qed.

(** X17. [generate] with the encoding name "rawHex" (the default) or
    "urlSafeBase64" (the one [short] passes), both of which the fallback of
    the wrapper leaves as they are, no compression, no prefix and no
    timestamp, when the wrapper found no processor and the draws are in
    range: the identifier is the [segments] random strings of [size]
    alphabet characters joined by the separator, so its length is
    [segments * size + (segments - 1) * separator.length]. *)
Theorem generate_plain_shape sz segs sep e (alpha : jsstr) k :
  processor P = None ->
  e = js "rawHex" \/ e = js "urlSafeBase64" ->
  (forall j, 0 <= random_index j (Z.of_nat (length alpha))
               < Z.of_nat (length alpha)) ->
  exists pieces,
    generate P random_index now
      {| size := sz; segments := segs; separator := sep; encoding := inl e;
         prefix := []; includeTimestamp := false; alphabet := alpha;
         compression := js "none" |} k
      = Ok (join sep pieces)
    /\ length pieces = Z.to_nat segs
    /\ Forall (fun p => length p = Z.to_nat sz
                        /\ Forall (fun c => c ∈ alpha) p) pieces
    /\ length (join sep pieces)
       = (Z.to_nat segs * Z.to_nat sz
          + (Z.to_nat segs - 1) * length sep)%nat.
Proof.
  intros HP He Hr.
  assert (Hfb : Wrapper.fallbackEncoders e = None
                \/ Wrapper.fallbackEncoders e = Some Wrapper.encode_rawHex)
    by (destruct He as [-> | ->]; [right | left]; reflexivity).
  destruct (segments_loop_plain
              {| size := sz; segments := segs; separator := sep;
                 encoding := inl e; prefix := []; includeTimestamp := false;
                 alphabet := alpha; compression := js "none" |}
              e HP eq_refl Hfb Hr (Z.to_nat segs) k)
    as (pieces & Hp & Hn & Hls & Hfs).
  cbn [size alphabet] in Hls, Hfs.
  exists pieces. unfold generate.
  cbn [includeTimestamp segments separator compression prefix].
  rewrite Hp. cbn [mbind res_bind app].
  rewrite bool_decide_false by (intros H; apply H; reflexivity).
  cbn [mbind res_bind].
  split; [reflexivity|]. split; [exact Hn|]. split.
  - rewrite Forall_forall in Hls, Hfs. apply Forall_forall. intros p Hp'.
    split; [apply Hls | apply Hfs]; exact Hp'.
  - rewrite (join_length sep pieces _ Hls), Hn. reflexivity.
Qed.

(** X10. With draws in range, [nano(size)] is [size] characters out of
    letters and digits, [hex(length)] is [length] lower-case hexadecimal
    digits, and, when the wrapper found no processor, [short(length)] is
    [length] characters out of letters and digits, left unencoded. *)
Theorem nano_hex_short_shape n k :
  (forall j m, 0 < m -> 0 <= random_index j m < m) ->
  (exists s, nano random_index n k = Ok s
             /\ length s = Z.to_nat n /\ Forall is_alphanumeric s)
  /\ (exists s, hex random_index n k = Ok s
                /\ length s = Z.to_nat n /\ Forall is_hex_digit s)
  /\ (processor P = None ->
      exists s, short P random_index now n k = Ok s
                /\ length s = Z.to_nat n /\ Forall is_alphanumeric s).
Proof.
  intros Hr. split; [|split].
  - destruct (generateRandomString_in_range random_index k n NANO_ALPHABET)
      as (s & Hs & Hl & Hf); [intros j; apply Hr; reflexivity|].
    exists s. split; [exact Hs|]. split; [exact Hl|].
    exact (Forall_elem_of _ _ _ NANO_ALPHABET_alphanumeric Hf).
  - destruct (generateRandomString_in_range random_index k n HEX_ALPHABET)
      as (s & Hs & Hl & Hf); [intros j; apply Hr; reflexivity|].
    exists s. split; [exact Hs|]. split; [exact Hl|].
    exact (Forall_elem_of _ _ _ HEX_ALPHABET_hex Hf).
  - intros HP. unfold short.
    destruct (segments_loop_plain
                {| size := n; segments := 1;
                   separator := separator DEFAULT_OPTIONS;
                   encoding := inl (js "urlSafeBase64");
                   prefix := prefix DEFAULT_OPTIONS;
                   includeTimestamp := includeTimestamp DEFAULT_OPTIONS;
                   alphabet := alphabet DEFAULT_OPTIONS;
                   compression := compression DEFAULT_OPTIONS |}
                (js "urlSafeBase64") HP eq_refl (or_introl eq_refl)
                ltac:(intros j; apply Hr; reflexivity) 1%nat k)
      as (pieces & Hp & Hn & Hls & Hfs).
    cbn [size alphabet DEFAULT_OPTIONS] in Hls, Hfs.
    destruct pieces as [|s [|? ?]]; try discriminate Hn.
    exists s. unfold generate.
    cbn [includeTimestamp segments separator compression prefix
         DEFAULT_OPTIONS] in Hp |- *.
    change (Z.to_nat 1) with 1%nat. rewrite Hp.
    cbn [mbind res_bind app join].
    rewrite bool_decide_false by (intros H; apply H; reflexivity).
    cbn [mbind res_bind].
    split; [reflexivity|].
    inversion Hls as [|? ? Hl _]; subst. inversion Hfs as [|? ? Hf _]; subst.
    split; [exact Hl|].
    exact (Forall_elem_of _ _ _ ALPHANUMERIC_alphanumeric Hf).
Qed.

(** X18. With an empty array of encodings and at least one segment,
    [generate] raises a [TypeError] when the wrapper found no processor:
    the fallback of [encodeMultiple] returns no result, and the last result
    is read all the same. *)
Theorem generate_empty_encodings_throws opts k :
  processor P = None ->
  encoding opts = inr [] ->
  1 <= segments opts ->
  generate P random_index now opts k = Throw TypeError.
Proof.
  intros HP He Hs. unfold generate.
  destruct (Z.to_nat (segments opts)) as [|n] eqn:E; [lia|].
  cbn [segments_loop]. unfold generateRandomString.
  cbn [mbind res_bind]. rewrite He.
  unfold Wrapper.encodeMultiple. rewrite HP.
  cbn [Wrapper.encodeMultiple_fallback mbind res_bind last].
  reflexivity.
Qed.

End Generate.

Lemma nano_hex_short_shape_witness :
  (exists s, nano (fun j m => Z.of_nat j mod m) 12 0 = Ok s
             /\ length s = Z.to_nat 12 /\ Forall is_alphanumeric s)
  /\ (exists s, hex (fun j m => Z.of_nat j mod m) 12 0 = Ok s
                /\ length s = Z.to_nat 12 /\ Forall is_hex_digit s)
  /\ (exists s, short Demo.platform (fun j m => Z.of_nat j mod m) 0 12 0
                  = Ok s
                /\ length s = Z.to_nat 12 /\ Forall is_alphanumeric s).
Proof.
  destruct (nano_hex_short_shape Demo.platform
              (fun j m => Z.of_nat j mod m) 0 12 0%nat) as (Hn & Hh & Hs).
  - intros j m Hm. apply Z.mod_pos_bound. exact Hm.
  - split; [exact Hn|]. split; [exact Hh|]. apply Hs. reflexivity.
Defined.

Lemma generate_plain_shape_witness :
  exists pieces,
    generate Demo.platform (fun j n => Z.of_nat j mod n) 0 DEFAULT_OPTIONS 0
      = Ok (join (js "-") pieces)
    /\ length pieces = Z.to_nat 4
    /\ Forall (fun p => length p = Z.to_nat 8
                        /\ Forall (fun c => c ∈ ALPHANUMERIC) p) pieces
    /\ length (join (js "-") pieces)
       = (Z.to_nat 4 * Z.to_nat 8 + (Z.to_nat 4 - 1) * length (js "-"))%nat.
Proof.
  apply (generate_plain_shape Demo.platform (fun j n => Z.of_nat j mod n) 0
           8 4 (js "-") (js "rawHex") ALPHANUMERIC 0%nat).
  - reflexivity.
  - left. reflexivity.
  - intros j. apply Z.mod_pos_bound. reflexivity.
Defined.

Lemma generate_empty_encodings_throws_witness :
  generate Demo.platform (fun j n => Z.of_nat j mod n) 0
    {| size := 8; segments := 4; separator := js "-"; encoding := inr [];
       prefix := []; includeTimestamp := false; alphabet := ALPHANUMERIC;
       compression := js "none" |} 0
  = Throw TypeError.
Proof.
  apply (generate_empty_encodings_throws Demo.platform
           (fun j n => Z.of_nat j mod n) 0).
  - reflexivity.
  - reflexivity.
  - cbn [segments]. lia.
Defined.

End GeneratorFacts.


Module RadixProps.
Import Wrapper Radix.

Lemma number_of_app base l d :
  number_of base (l ++ [d]) = number_of base l * base + d.
Proof. unfold number_of. rewrite fold_left_app. reflexivity. Qed.

Lemma fold_digits_lower base : forall l acc,
  2 <= base -> 0 <= acc -> Forall (is_digit base) l ->
  acc * 2 ^ Z.of_nat (length l)
    <= fold_left (fun num d => num * base + d) l acc.
Proof.
  induction l as [|d l IH]; intros acc Hb Hacc Hl.
  - cbn [length fold_left]. change (2 ^ Z.of_nat 0) with 1. lia.
  - inversion Hl as [|? ? Hd Hl']; subst. unfold is_digit in Hd.
    cbn [fold_left length].
    etransitivity; [|apply IH; [lia | nia | exact Hl']].
    rewrite Nat2Z.inj_succ, Z.pow_succ_r by lia.
    assert (0 <= 2 ^ Z.of_nat (length l)) by (apply Z.pow_nonneg; lia).
    nia.
Qed.

Lemma number_of_lower base d l :
  2 <= base -> Forall (is_digit base) (d :: l) -> d <> 0 ->
  2 ^ Z.of_nat (length l) <= number_of base (d :: l).
Proof.
  intros Hb Hl Hd. inversion Hl as [|? ? Hd' Hl']; subst.
  unfold is_digit in Hd'. unfold number_of. cbn [fold_left].
  etransitivity; [|apply fold_digits_lower; [lia | lia | exact Hl']].
  assert (0 <= 2 ^ Z.of_nat (length l)) by (apply Z.pow_nonneg; lia).
  nia.
Qed.

Lemma no_leading_zero_init l d :
  no_leading_zero (l ++ [d]) -> no_leading_zero l.
Proof. destruct l; [constructor | exact (fun H => H)]. Qed.

Lemma digits_go_zero base fuel acc : digits_go base fuel 0 acc = acc.
Proof. destruct fuel; reflexivity. Qed.

Lemma digits_go_number base : 2 <= base -> forall l fuel acc,
  Forall (is_digit base) l -> no_leading_zero l ->
  (length l <= fuel)%nat ->
  digits_go base fuel (number_of base l) acc = l ++ acc.
Proof.
  intros Hb l. induction l as [|d l IH] using rev_ind; intros fuel acc Hl Hz Hf.
  - apply digits_go_zero.
  - apply Forall_app in Hl as [Hl Hd]. inversion Hd as [|? ? Hd' _]; subst.
    unfold is_digit in Hd'. rewrite length_app in Hf. cbn [length] in Hf.
    destruct fuel as [|fuel]; [lia|].
    assert (Hpos : 0 < number_of base (l ++ [d])).
    { destruct l as [|d0 l].
      - unfold number_of. cbn [app fold_left]. cbn [app] in Hz.
        unfold no_leading_zero in Hz. lia.
      - pose proof (number_of_lower base d0 (l ++ [d]) Hb) as Hlow.
        cbn [app] in Hz |- *.
        assert (0 < 2 ^ Z.of_nat (length (l ++ [d])))
          by (apply Z.pow_pos_nonneg; lia).
        specialize (Hlow ltac:(constructor;
                                [inversion Hl; assumption
                                |apply Forall_app; split;
                                 [inversion Hl; assumption | exact Hd]]) Hz).
        lia. }
    cbn [digits_go]. destruct (Z.ltb_spec 0 (number_of base (l ++ [d]))); [|lia].
    rewrite number_of_app.
    replace ((number_of base l * base + d) / base) with (number_of base l)
      by (symmetry; rewrite Z.div_add_l by lia;
          rewrite Z.div_small by lia; lia).
    replace ((number_of base l * base + d) mod base) with d
      by (symmetry; rewrite Z.add_comm, Z.mod_add by lia;
          apply Z.mod_small; lia).
    rewrite IH; [rewrite <- app_assoc; reflexivity | exact Hl | | lia].
    exact (no_leading_zero_init l d Hz).
Qed.

Lemma digits_number base l :
  2 <= base -> Forall (is_digit base) l -> no_leading_zero l ->
  digits base (number_of base l) = l.
Proof.
  intros Hb Hl Hz. unfold digits.
  rewrite digits_go_number; [apply app_nil_r | exact Hb | exact Hl | exact Hz|].
  destruct l as [|d l]; [cbn [length]; lia|].
  pose proof (number_of_lower base d l Hb Hl Hz) as Hlow.
  assert (0 < 2 ^ Z.of_nat (length l)) by (apply Z.pow_pos_nonneg; lia).
  apply Z.log2_le_pow2 in Hlow; [|lia]. cbn [length]. lia.
Qed.

Lemma digits_go_spec base : 2 <= base -> forall fuel num acc,
  0 <= num < 2 ^ Z.of_nat fuel ->
  exists ds, digits_go base fuel num acc = ds ++ acc
             /\ number_of base ds = num
             /\ Forall (is_digit base) ds.
Proof.
  intros Hb. induction fuel as [|fuel IH]; intros num acc Hn.
  - exists []. change (2 ^ Z.of_nat 0) with 1 in Hn.
    assert (num = 0) by lia. subst. repeat split; constructor.
  - cbn [digits_go]. destruct (Z.ltb_spec 0 num).
    + rewrite Nat2Z.inj_succ, Z.pow_succ_r in Hn by lia.
      destruct (IH (num / base) (num mod base :: acc)) as (ds & -> & Hv & Hd).
      { split; [apply Z.div_pos; lia|].
        apply Z.div_lt_upper_bound; [lia|].
        assert (0 < 2 ^ Z.of_nat fuel) by (apply Z.pow_pos_nonneg; lia).
        nia. }
      exists (ds ++ [num mod base]). rewrite <- app_assoc.
      split; [reflexivity|]. split.
      * rewrite number_of_app, Hv.
        pose proof (Z.div_mod num base ltac:(lia)). lia.
      * apply Forall_app. split; [exact Hd|]. constructor; [|constructor].
        apply Z.mod_pos_bound. lia.
    + exists []. assert (num = 0) by lia. subst. repeat split; constructor.
Qed.

Lemma digits_spec base num :
  2 <= base -> 0 <= num ->
  number_of base (digits base num) = num
  /\ Forall (is_digit base) (digits base num).
Proof.
  intros Hb Hn. unfold digits.
  destruct (digits_go_spec base Hb (S (Z.to_nat (Z.log2 num))) num [])
    as (ds & -> & Hv & Hd).
  - split; [exact Hn|]. destruct (Z.eq_dec num 0) as [->|Hne]; [reflexivity|].
    rewrite Nat2Z.inj_succ, Z2Nat.id by apply Z.log2_nonneg.
    apply Z.log2_spec. lia.
  - rewrite app_nil_r. split; assumption.
Qed.

End RadixProps.

Module WrapperFacts.
Import Base64 Wrapper Encoder EncoderEncode Radix Base64Props RadixProps.

(** Every code unit of a string literal is at most 255. *)
Ltac literal_bytes :=
  let c := fresh "c" in
  let Hc := fresh "Hc" in
  apply Forall_forall; intros c Hc; unfold is_byte; vm_compute in Hc;
  repeat (apply elem_of_cons in Hc as [->|Hc]); try lia; inversion Hc.

(** *** The hexadecimal fallback *)

Lemma first_units_bytes s : Forall is_byte s -> first_units s = s.
Proof.
  induction 1 as [|c s Hc _ IH]; [reflexivity|].
  cbn [first_units]. unfold is_byte in Hc.
  destruct (Z.leb_spec 55296 c); [lia|]. cbn [andb]. rewrite IH. reflexivity.
Qed.

Lemma nibble_cases a :
  0 <= a < 16 ->
  a = 0 \/ a = 1 \/ a = 2 \/ a = 3 \/ a = 4 \/ a = 5 \/ a = 6 \/ a = 7
  \/ a = 8 \/ a = 9 \/ a = 10 \/ a = 11 \/ a = 12 \/ a = 13 \/ a = 14
  \/ a = 15.
Proof. lia. Qed.

Ltac nibbles H :=
  apply nibble_cases in H;
  repeat (destruct H as [H|H]); subst.

Lemma hex_pair c :
  is_byte c ->
  padStart2 (toString16 c) = [hex_digit (c / 16); hex_digit (c mod 16)].
Proof.
  intros Hc. unfold is_byte in Hc. unfold toString16.
  destruct (Z.ltb_spec c 16).
  - cbn [padStart2]. rewrite Z.div_small, Z.mod_small by lia. reflexivity.
  - destruct (Z.ltb_spec c 256); [|lia]. reflexivity.
Qed.

Lemma hex_chunks_pair a b rest :
  0 <= a < 16 -> 0 <= b < 16 ->
  hex_chunks (hex_digit a :: hex_digit b :: rest)
    = [hex_digit a; hex_digit b] :: hex_chunks rest.
Proof.
  intros Ha Hb.
  assert (Hla : is_line_terminator (hex_digit a) = false)
    by (nibbles Ha; reflexivity).
  assert (Hlb : is_line_terminator (hex_digit b) = false)
    by (nibbles Hb; reflexivity).
  cbn [hex_chunks]. rewrite Hla, Hlb. reflexivity.
Qed.

Lemma parseInt16_pair a b :
  0 <= a < 16 -> 0 <= b < 16 ->
  parseInt16 [hex_digit a; hex_digit b] = Some (a * 16 + b).
Proof.
  intros Ha Hb. nibbles Ha; nibbles Hb; reflexivity.
Qed.

Lemma hex_digit_byte a : 0 <= a < 16 -> is_byte (hex_digit a).
Proof. intros Ha. unfold is_byte. nibbles Ha; vm_compute; split; discriminate. Qed.

Lemma hex_digit_hex_char a : 0 <= a < 16 -> is_hex_char (hex_digit a) = true.
Proof. intros Ha. nibbles Ha; reflexivity. Qed.

Lemma hex_roundtrip s :
  Forall is_byte s ->
  exists h, encode_hex s = Ok h
            /\ Forall is_byte h
            /\ forallb is_hex_char h = true
            /\ length h = (2 * length s)%nat
            /\ decode_hex (Str h) = Ok (Str s).
Proof.
  intros Hs. unfold encode_hex. rewrite (first_units_bytes s Hs).
  eexists. split; [reflexivity|]. unfold decode_hex.
  induction Hs as [|c s Hc Hs (IHb & IHh & IHl & IHd)].
  - split; [constructor|]. split; [reflexivity|]. split; reflexivity.
  - cbn [map concat]. rewrite (hex_pair c Hc). unfold is_byte in Hc.
    assert (Ha : 0 <= c / 16 < 16)
      by (split; [apply Z.div_pos; lia | apply Z.div_lt_upper_bound; lia]).
    assert (Hb : 0 <= c mod 16 < 16) by (apply Z.mod_pos_bound; lia).
    cbn [app]. split; [|split; [|split]].
    + constructor; [apply hex_digit_byte, Ha|].
      constructor; [apply hex_digit_byte, Hb | exact IHb].
    + cbn [forallb]. rewrite (hex_digit_hex_char _ Ha), (hex_digit_hex_char _ Hb).
      exact IHh.
    + cbn [length]. rewrite IHl. lia.
    + rewrite (hex_chunks_pair _ _ _ Ha Hb). cbn [map].
      rewrite (parseInt16_pair _ _ Ha Hb). cbn [fromCharCode].
      injection IHd as IHd. rewrite IHd. do 3 f_equal.
      rewrite Z.mod_small; [|pose proof (Z.div_mod c 16 ltac:(lia)); lia].
      pose proof (Z.div_mod c 16 ltac:(lia)). lia.
Qed.

(** *** The base64 fallback *)

Lemma alphabet_bytes : Forall is_byte alphabet.
Proof.
  let l := eval vm_compute in alphabet in change alphabet with l.
  unfold is_byte. repeat (constructor; [lia|]). constructor.
Qed.

Lemma char_of_byte n : is_byte (char_of n).
Proof.
  unfold char_of. pose proof alphabet_bytes as Ha.
  rewrite Forall_forall in Ha.
  destruct (Nat.lt_ge_cases (Z.to_nat n) (length alphabet)) as [Hlt|Hge].
  - apply Ha. apply list_elem_of_In. apply nth_In. exact Hlt.
  - rewrite nth_overflow by exact Hge. unfold is_byte. lia.
Qed.

Lemma padding_bytes n : Forall is_byte (padding n).
Proof.
  unfold padding, is_byte.
  repeat (match goal with |- context [match ?x with _ => _ end] =>
            destruct x end); repeat constructor; lia.
Qed.

Lemma btoa_bytes s z : btoa s = Ok z -> Forall is_byte z.
Proof.
  unfold btoa. destruct (forallb _ s); [|discriminate].
  intros [= <-]. apply Forall_app. split; [|apply padding_bytes].
  apply Forall_map. apply Forall_forall. intros n _. apply char_of_byte.
Qed.

(** *** One encoding and its decoding *)

Section Fallback.
Context (P : Platform).
Hypothesis no_processor : processor P = None.

Lemma invertible_step e s :
  invertible e -> Forall is_byte s ->
  exists r,
    match fallbackEncoders e with
    | Some encoder => encoder s
    | None => Ok s
    end = Ok r
    /\ Forall is_byte r
    /\ Wrapper.decode P (Str r) (JString e) = Ok (Str s).
Proof.
  intros He Hs. unfold Wrapper.decode. rewrite no_processor.
  cbn [property_key].
  destruct He as [-> | [-> | ->]].
  - destruct (atob_btoa s Hs) as (z & Hz & Ha & _).
    exists z. change (fallbackEncoders (js "base64")) with (Some encode_base64).
    change (fallbackDecoders (js "base64")) with (Some decode_base64).
    unfold encode_base64, decode_base64. cbn [ToString].
    rewrite Hz, Ha. split; [reflexivity|]. split; [|reflexivity].
    exact (btoa_bytes s z Hz).
  - destruct (hex_roundtrip s Hs) as (h & Hh & Hb & _ & _ & Hd).
    exists h. change (fallbackEncoders (js "hex")) with (Some encode_hex).
    change (fallbackDecoders (js "hex")) with (Some decode_hex).
    split; [exact Hh|]. split; [exact Hb | exact Hd].
  - exists s. split; [reflexivity|]. split; [exact Hs | reflexivity].
Qed.

Lemma decode_loop_app l1 : forall l2 x,
  decode_loop P false x (l1 ++ l2)
    = (y ← decode_loop P false x l1; decode_loop P false y l2).
Proof.
  induction l1 as [|e l1 IH]; intros l2 x; [reflexivity|].
  cbn [app decode_loop].
  destruct (Wrapper.decode P x e) as [y|err]; [|reflexivity].
  cbn [mbind res_bind]. apply IH.
Qed.

Lemma chain_roundtrip : forall encs s,
  Forall invertible encs -> Forall is_byte s ->
  exists results,
    encodeMultiple_fallback s encs = Ok results
    /\ length results = length encs
    /\ decode_loop P false (Str (List.last results s))
         (reverse (map JString encs)) = Ok (Str s).
Proof.
  induction encs as [|e encs IH]; intros s He Hs.
  - exists []. repeat split; reflexivity.
  - inversion He as [|? ? He1 He2]; subst.
    destruct (invertible_step e s He1 Hs) as (r & Hr & Hrb & Hd).
    destruct (IH r He2 Hrb) as (results & Hres & Hlen & Hloop).
    exists (r :: results). cbn [encodeMultiple_fallback].
    rewrite Hr. cbn [mbind res_bind]. rewrite Hres. cbn [mbind res_bind].
    split; [reflexivity|]. split; [cbn [length]; lia|].
    cbn [map]. rewrite reverse_cons, decode_loop_app.
    assert (Hlast : forall (rs : list jsstr) r d,
               List.last (r :: rs) d = List.last rs r).
    { induction rs as [|x rs IHrs]; intros r0 d; [reflexivity|].
      change (List.last (r0 :: x :: rs) d) with (List.last (x :: rs) d).
      rewrite (IHrs x d), (IHrs x r0). reflexivity. }
    rewrite Hlast, Hloop. cbn [mbind res_bind decode_loop].
    rewrite Hd. reflexivity.
Qed.

Lemma last_default {A} (l : list A) d :
  l <> [] -> last l = Some (List.last l d).
Proof.
  induction l as [|x l IH]; intros Hne; [congruence|].
  destruct l as [|y l]; [reflexivity|].
  rewrite last_cons. change (List.last (x :: y :: l) d)
    with (List.last (y :: l) d).
  rewrite IH by discriminate. reflexivity.
Qed.

Section Encode.
Variable p_encodeMultipleAsync :
  Processor -> jsstr -> list jsstr -> res (list jsstr).

(** X19. With the fallbacks of the wrapper (no processor found), encoding a
    string of code units up to 255 with [Encoder.encode] through a non-empty
    array of the encodings base64, hex and rawHex, and decoding the result
    with [Encoder.decode] on the same array, gives the string back. *)
Theorem encode_decode_fallback_roundtrip encs s :
  encs <> [] ->
  Forall invertible encs ->
  Forall is_byte s ->
  exists encoded,
    EncoderEncode.encode P p_encodeMultipleAsync s (inr encs) = Ok encoded
    /\ fst (decode_array P (Str encoded) (map JString encs) false)
       = Ok (Str s).
Proof.
  intros Hne He Hs.
  destruct (chain_roundtrip encs s He Hs) as (results & Hres & Hlen & Hloop).
  exists (List.last results s).
  unfold EncoderEncode.encode, encodeMultipleAsync, Wrapper.encodeMultiple.
  rewrite no_processor, Hres. cbn [mbind res_bind].
  rewrite (last_default results s)
    by (intros ->; destruct encs; [congruence | discriminate]).
  split; [reflexivity|]. exact Hloop.
Qed.

(** X20. With the fallbacks of the wrapper, [Encoder.encode] on an empty array
    of encodings raises a [TypeError] instead of returning its input: no
    result is produced and the last one is read all the same. *)
Theorem encode_empty_array_throws s :
  EncoderEncode.encode P p_encodeMultipleAsync s (inr []) = Throw TypeError.
Proof.
  unfold EncoderEncode.encode, encodeMultipleAsync, Wrapper.encodeMultiple.
  rewrite no_processor. reflexivity.
Qed.

End Encode.

(** X21. Automatic detection with the fallbacks of the wrapper: the
    hexadecimal encoding of a non-empty string of code units up to 255 is
    recognised as hexadecimal and decoded back to the string. *)
Theorem autoDetect_decodes_hex s :
  s <> [] -> Forall is_byte s ->
  exists h, Wrapper.encode P s (js "hex") = Ok h
            /\ autoDetectAndDecode P (Str h) = Ok (Str s).
Proof.
  intros Hne Hs. destruct (hex_roundtrip s Hs) as (h & Hh & _ & Hx & Hl & Hd).
  exists h. unfold Wrapper.encode, autoDetectAndDecode. rewrite no_processor.
  change (fallbackEncoders (js "hex")) with (Some encode_hex).
  split; [exact Hh|]. cbn [ToString]. rewrite Hx.
  destruct h as [|c h]; [|exact Hd].
  destruct s; [congruence | cbn [length] in Hl; lia].
Qed.

(** *** Base58 *)

Lemma index_of_ALPHABET58 r :
  0 <= r < 58 ->
  index_of (nth (Z.to_nat r) ALPHABET58 0) ALPHABET58 0 = Some r.
Proof.
  intros Hr.
  assert (Hall : forallb (fun r =>
            match index_of (nth (Z.to_nat r) ALPHABET58 0) ALPHABET58 0 with
            | Some i => i =? r
            | None => false
            end) (map Z.of_nat (seq 0 58)) = true) by (vm_compute; reflexivity).
  rewrite forallb_forall in Hall. specialize (Hall r).
  destruct (index_of _ _ _) as [i|].
  - f_equal. apply Z.eqb_eq. apply Hall. apply in_map_iff.
    exists (Z.to_nat r). split; [lia|]. apply in_seq. lia.
  - assert (false = true); [|discriminate].
    apply Hall. apply in_map_iff.
    exists (Z.to_nat r). split; [lia|]. apply in_seq. lia.
Qed.

Lemma base58_num_digits : forall ds num,
  Forall (is_digit 58) ds ->
  base58_num (map (fun r => nth (Z.to_nat r) ALPHABET58 0) ds) num
    = Ok (fold_left (fun num d => num * 58 + d) ds num).
Proof.
  induction ds as [|d ds IH]; intros num Hd; [reflexivity|].
  inversion Hd as [|? ? Hd1 Hd2]; subst.
  cbn [map base58_num fold_left]. rewrite (index_of_ALPHABET58 d Hd1).
  apply IH. exact Hd2.
Qed.

(** X22. With the fallbacks of the wrapper, base58 decoding undoes base58
    encoding on every string of code units up to 255 that does not start
    with the character of code 0 (the empty string included). *)
Theorem base58_fallback_roundtrip s :
  Forall is_byte s -> no_leading_zero s ->
  exists e, Wrapper.encode P s (js "base58") = Ok e
            /\ Wrapper.decode P (Str e) (JString (js "base58")) = Ok (Str s).
Proof.
  intros Hs Hz. unfold Wrapper.encode, Wrapper.decode. rewrite no_processor.
  cbn [property_key].
  change (fallbackEncoders (js "base58")) with (Some encode_base58).
  change (fallbackDecoders (js "base58")) with (Some decode_base58).
  unfold encode_base58, decode_base58. rewrite (first_units_bytes s Hs).
  change (fold_left (fun num byte => num * 256 + byte) s 0)
    with (number_of 256 s).
  assert (Hd256 : Forall (is_digit 256) s).
  { eapply Forall_impl; [exact Hs|]. unfold is_byte, is_digit. intros; lia. }
  assert (Hn : 0 <= number_of 256 s).
  { destruct s as [|d s]; [reflexivity|].
    pose proof (number_of_lower 256 d s ltac:(lia) Hd256 Hz).
    assert (0 < 2 ^ Z.of_nat (length s)) by (apply Z.pow_pos_nonneg; lia).
    lia. }
  destruct (digits_spec 58 (number_of 256 s) ltac:(lia) Hn) as [Hv Hd].
  eexists. split; [reflexivity|].
  destruct (digits 58 (number_of 256 s)) as [|d ds] eqn:E.
  - cbn [map]. change (base58_num [49] 0) with (Ok 0 : res Z).
    cbn [mbind res_bind].
    pose proof (digits_number 256 s ltac:(lia) Hd256 Hz) as Hds.
    rewrite <- Hv in Hds. change (number_of 58 []) with 0 in Hds.
    rewrite Hds. reflexivity.
  - pose proof (base58_num_digits (d :: ds) 0 Hd) as Hb.
    cbn [map] in Hb |- *. rewrite Hb. cbn [mbind res_bind].
    change (fold_left (fun num d0 => num * 58 + d0) (d :: ds) 0)
      with (number_of 58 (d :: ds)).
    rewrite Hv, (digits_number 256 s ltac:(lia) Hd256 Hz). reflexivity.
Qed.

End Fallback.

Lemma encode_decode_fallback_roundtrip_witness :
  exists encoded,
    EncoderEncode.encode Demo.platform (fun _ _ _ => Throw TypeError)
      (js "hello") (inr [js "base64"; js "hex"]) = Ok encoded
    /\ fst (decode_array Demo.platform (Str encoded)
              (map JString [js "base64"; js "hex"]) false)
       = Ok (Str (js "hello")).
Proof.
  apply (encode_decode_fallback_roundtrip Demo.platform eq_refl
           (fun _ _ _ => Throw TypeError) [js "base64"; js "hex"] (js "hello")).
  - discriminate.
  - constructor; [left; reflexivity|].
    constructor; [right; left; reflexivity | constructor].
  - literal_bytes.
Defined.

Lemma encode_empty_array_throws_witness :
  EncoderEncode.encode Demo.platform (fun _ _ _ => Ok [])
    (js "hello") (inr []) = Throw TypeError.
Proof.
  apply (encode_empty_array_throws Demo.platform eq_refl).
Defined.

Lemma autoDetect_decodes_hex_witness :
  exists h, Wrapper.encode Demo.platform (js "hi") (js "hex") = Ok h
            /\ autoDetectAndDecode Demo.platform (Str h) = Ok (Str (js "hi")).
Proof.
  apply (autoDetect_decodes_hex Demo.platform eq_refl (js "hi")).
  - discriminate.
  - literal_bytes.
Defined.

Lemma base58_fallback_roundtrip_witness :
  exists e, Wrapper.encode Demo.platform (js "hello") (js "base58") = Ok e
            /\ Wrapper.decode Demo.platform (Str e) (JString (js "base58"))
               = Ok (Str (js "hello")).
Proof.
  apply (base58_fallback_roundtrip Demo.platform eq_refl (js "hello")).
  - literal_bytes.
  - discriminate.
Defined.

End WrapperFacts.


Module EncoderFacts.
Import Base64 Encoder Lzw Base64Props EncoderProps.

(** X23. The sequence-match compression is lossless on every string of code
    units up to 255, the empty string included: [compress] returns, and
    [decompress] of what it returns is the input. *)
Theorem compress_lz77_lossless (s : jsstr) :
  Forall is_byte s ->
  exists z,
    compress s (JString (js "lz77")) = Ok z
    /\ decompress (Str z) (Some (JString (js "lz77"))) = Str s.
Proof.
  intros Hs. destruct s as [|c s].
  - exists []. split; reflexivity.
  - apply lz77_roundtrip; [discriminate | exact Hs].
Qed.

Lemma compress_lz77_lossless_witness :
  exists z,
    compress (js "abcabcabcabc") (JString (js "lz77")) = Ok z
    /\ decompress (Str z) (Some (JString (js "lz77")))
       = Str (js "abcabcabcabc").
Proof.
  apply (compress_lz77_lossless (js "abcabcabcabc")).
  apply Forall_forall. intros c Hc. unfold is_byte. vm_compute in Hc.
  repeat (apply elem_of_cons in Hc as [->|Hc]); try lia. inversion Hc.
Defined.

(** *** The dictionary scheme *)

Lemma initial_dictionary_lookup sq code :
  initial_dictionary !! sq = Some code -> sq = [code] /\ is_byte code.
Proof.
  unfold initial_dictionary. intros H.
  apply elem_of_list_to_map_2 in H. apply list_elem_of_In in H.
  apply in_map_iff in H as (i & [= <- <-] & Hi). apply in_seq in Hi.
  split; [reflexivity|]. unfold is_byte. lia.
Qed.

Lemma initial_dictionary_single c :
  is_byte c -> initial_dictionary !! [c] = Some c.
Proof.
  intros Hc. unfold is_byte in Hc. unfold initial_dictionary.
  apply elem_of_list_to_map_1.
  - rewrite <- list_fmap_compose.
    apply NoDup_fmap_2; [|apply NoDup_seq].
    intros i j [= H]. lia.
  - apply list_elem_of_In. apply in_map_iff. exists (Z.to_nat c).
    split; [f_equal; [f_equal|]; lia|]. apply in_seq. lia.
Qed.

Lemma lzw_step_invariant st pre c :
  is_byte c -> lzw_invariant st pre ->
  lzw_invariant (lzw_step st c) (pre ++ [c]).
Proof.
  intros Hc ((Hnext & Hdict & Hsingle) & (seqs & Hseqs & Hpre) & Hcur).
  unfold lzw_step.
  destruct (dictionary st !! (currentSequence st ++ [c])) as [code|] eqn:Hnew.
  - unfold lzw_invariant, dictionary_ok;
      cbn [dictionary nextCode result currentSequence]; split; [|split].
    + split; [exact Hnext|]. split; assumption.
    + exists seqs. split; [exact Hseqs|]. rewrite app_assoc, Hpre. reflexivity.
    + right. rewrite Hnew. eauto.
  - assert (Hcur' : is_Some (dictionary st !! currentSequence st)).
    { destruct Hcur as [Hnil | Hsome]; [|exact Hsome].
      rewrite Hnil in Hnew. cbn [app] in Hnew.
      rewrite (Hsingle c Hc) in Hnew. discriminate. }
    destruct Hcur' as [code Hcode].
    assert (Hres : exists seqs',
               Forall2 stands_for seqs'
                 (result st ++ [dictionary st !! currentSequence st])
               /\ concat seqs' ++ [c] = pre ++ [c]).
    { exists (seqs ++ [currentSequence st]). split.
      - apply Forall2_app; [exact Hseqs|]. constructor; [|constructor].
        rewrite Hcode. apply Hdict. exact Hcode.
      - rewrite concat_app. cbn [concat]. rewrite app_nil_r, Hpre.
        reflexivity. }
    destruct (Z.ltb_spec (nextCode st) 65536).
    + unfold lzw_invariant, dictionary_ok;
      cbn [dictionary nextCode result currentSequence]; split; [|split].
      * split; [lia|]. split.
        -- intros sq code' Hl.
           destruct (decide (sq = currentSequence st ++ [c])) as [->|Hne].
           ++ rewrite lookup_insert_eq in Hl. injection Hl as <-.
              exists (nextCode st). split; [reflexivity|]. right. lia.
           ++ rewrite lookup_insert_ne in Hl by congruence.
              apply Hdict. exact Hl.
        -- intros c' Hc'. rewrite lookup_insert_ne; [apply Hsingle, Hc'|].
           intros Heq. rewrite Heq, (Hsingle c' Hc') in Hnew. discriminate.
      * exact Hres.
      * right. rewrite lookup_insert_ne; [rewrite (Hsingle c Hc); eauto|].
        intros Heq. rewrite Heq, (Hsingle c Hc) in Hnew. discriminate.
    + unfold lzw_invariant, dictionary_ok;
      cbn [dictionary nextCode result currentSequence]; split; [|split].
      * split; [exact Hnext|]. split; assumption.
      * exact Hres.
      * right. rewrite (Hsingle c Hc). eauto.
Qed.

Lemma lzw_fold_invariant : forall input st pre,
  Forall is_byte input -> lzw_invariant st pre ->
  lzw_invariant (fold_left lzw_step input st) (pre ++ input).
Proof.
  induction input as [|c input IH]; intros st pre Hin Hinv.
  - rewrite app_nil_r. exact Hinv.
  - inversion Hin as [|? ? Hc Hin']; subst. cbn [fold_left].
    replace (pre ++ c :: input) with ((pre ++ [c]) ++ input)
      by (rewrite <- app_assoc; reflexivity).
    apply IH; [exact Hin'|]. apply lzw_step_invariant; assumption.
Qed.

(** The codes pushed for a string of code units up to 255 stand for
    sequences that make up the string. *)
Lemma lzw_codes_stand_for input :
  Forall is_byte input ->
  exists seqs, Forall2 stands_for seqs (lzw_codes input)
               /\ concat seqs = input.
Proof.
  intros Hin. unfold lzw_codes.
  pose proof (lzw_fold_invariant input
                {| dictionary := initial_dictionary; nextCode := 256;
                   result := []; currentSequence := [] |} [] Hin) as Hinv.
  destruct Hinv as ((_ & Hdict & _) & (seqs & Hseqs & Hpre) & Hcur).
  { unfold lzw_invariant, dictionary_ok;
      cbn [dictionary nextCode result currentSequence]; split; [|split].
    - split; [lia|]. split.
      + intros sq code H. apply initial_dictionary_lookup in H as [-> Hb].
        exists code. split; [reflexivity|]. left. split; [reflexivity | exact Hb].
      + exact initial_dictionary_single.
    - exists []. split; [constructor | reflexivity].
    - left. reflexivity. }
  cbn [app] in Hpre.
  destruct (currentSequence (fold_left lzw_step input _)) as [|c cur] eqn:E.
  - exists seqs. rewrite app_nil_r in Hpre. split; assumption.
  - destruct Hcur as [Hnil | [code Hcode]]; [discriminate|].
    exists (seqs ++ [c :: cur]). split.
    + apply Forall2_app; [exact Hseqs|]. constructor; [|constructor].
      rewrite Hcode. apply Hdict. exact Hcode.
    + rewrite concat_app. cbn [concat]. rewrite app_nil_r. exact Hpre.
Qed.

Lemma codes_below_256 : forall seqs codes,
  Forall2 stands_for seqs codes ->
  forallb (fun c => c <=? 255) (map char_of_code codes) = true ->
  map char_of_code codes = concat seqs.
Proof.
  induction 1 as [|sq code seqs codes (c & -> & Hc) _ IH]; intros Hall;
    [reflexivity|].
  cbn [map forallb char_of_code] in Hall |- *.
  apply andb_true_iff in Hall as [Hle Hall]. apply Z.leb_le in Hle.
  cbn [concat]. rewrite (IH Hall).
  destruct Hc as [[-> Hb] | Hbig].
  - unfold is_byte in Hb. rewrite Z.mod_small by lia. reflexivity.
  - rewrite Z.mod_small in Hle by lia. lia.
Qed.

(** X24. The dictionary scheme ("gzip") compresses nothing: on a string of
    code units up to 255, whenever [compress] returns, what it returns is
    the plain base64 text of the input, and [decompress] gives the input
    back. *)
Theorem compress_gzip_is_base64 (s z : jsstr) :
  Forall is_byte s ->
  compress s (JString (js "gzip")) = Ok z ->
  btoa s = Ok z
  /\ decompress (Str z) (Some (JString (js "gzip"))) = Str s.
Proof.
  intros Hs Hz. destruct s as [|c s].
  - injection Hz as <-. split; reflexivity.
  - change (compress (c :: s) (JString (js "gzip")))
      with (compress_gzip (c :: s)) in Hz.
    unfold compress_gzip in Hz.
    destruct (lzw_codes_stand_for (c :: s) Hs) as (seqs & Hseqs & Hcat).
    assert (Hchars : map char_of_code (lzw_codes (c :: s)) = c :: s).
    { rewrite <- Hcat at 2. apply (codes_below_256 _ _ Hseqs).
      unfold btoa in Hz.
      destruct (forallb _ (map char_of_code (lzw_codes (c :: s))));
        [reflexivity | discriminate]. }
    rewrite Hchars in Hz. split; [exact Hz|].
    destruct (atob_btoa (c :: s) Hs) as (z' & Hz' & Ha & Hne).
    rewrite Hz in Hz'. injection Hz' as <-.
    specialize (Hne ltac:(discriminate)).
    destruct z as [|d z]; [congruence|].
    change (decompress (Str (d :: z)) (Some (JString (js "gzip"))))
      with (catch_return_input (d :: z) (decompress_gzip_try (d :: z))).
    rewrite (decompress_gzip_is_atob (d :: z) c s Ha). reflexivity.
Qed.

Lemma compress_gzip_is_base64_witness :
  btoa (js "abc") = Ok (js "YWJj")
  /\ decompress (Str (js "YWJj")) (Some (JString (js "gzip")))
     = Str (js "abc").
Proof.
  apply (compress_gzip_is_base64 (js "abc") (js "YWJj")).
  - apply Forall_forall. intros c Hc. unfold is_byte. vm_compute in Hc.
    repeat (apply elem_of_cons in Hc as [->|Hc]); try lia. inversion Hc.
  - vm_compute. reflexivity.
Defined.

(** X25. The "gzip" decompressor is base64 decoding and nothing else: for a
    non-empty input, the result is the text that [atob] returns when that
    text is not empty, and the input itself when [atob] throws. *)
Theorem decompress_gzip_decodes_base64 (z : jsstr) :
  z <> [] ->
  (forall c rest, atob z = Ok (c :: rest) ->
     decompress (Str z) (Some (JString (js "gzip"))) = Str (c :: rest))
  /\ (forall e, atob z = Throw e ->
        decompress (Str z) (Some (JString (js "gzip"))) = Str z).
Proof.
  intros Hne. destruct z as [|d z]; [congruence|].
  change (decompress (Str (d :: z)) (Some (JString (js "gzip"))))
    with (catch_return_input (d :: z) (decompress_gzip_try (d :: z))).
  split.
  - intros c rest Ha. rewrite (decompress_gzip_is_atob _ c rest Ha).
    reflexivity.
  - intros e Ha. unfold decompress_gzip_try. rewrite Ha. reflexivity.
Qed.

Lemma decompress_gzip_decodes_base64_witness :
  (forall c rest, atob (js "YWJj") = Ok (c :: rest) ->
     decompress (Str (js "YWJj")) (Some (JString (js "gzip")))
     = Str (c :: rest))
  /\ (forall e, atob (js "YWJj") = Throw e ->
        decompress (Str (js "YWJj")) (Some (JString (js "gzip")))
        = Str (js "YWJj")).
Proof.
  apply (decompress_gzip_decodes_base64 (js "YWJj")). discriminate.
Defined.

(** X26. [Encoder.decode] called twice on the same array of encodings: the
    second call finds the array reversed by the first, decodes in the order
    in which the array was written (first encoding first) and leaves the
    array in its original order. *)
Theorem decode_twice_restores_array (P : Platform)
    (store : gmap positive (list json)) (l : positive) (arr : list json)
    (input1 input2 : strU) :
  store !! l = Some arr ->
  let '(r1, store1) := decode P store input1 (ArrayRef l) false in
  let '(r2, store2) := decode P store1 input2 (ArrayRef l) false in
  r1 = decode_loop P false input1 (reverse arr)
  /\ r2 = decode_loop P false input2 arr
  /\ store2 !! l = Some arr.
Proof.
  intros Hl. unfold decode. rewrite Hl. unfold decode_array.
  rewrite lookup_insert_eq, reverse_involutive, lookup_insert_eq.
  split; [reflexivity|]. split; reflexivity.
Qed.

Lemma decode_twice_restores_array_witness :
  let store : gmap positive (list json) :=
    {[ 1%positive := [JString (js "base64"); JString (js "hex")] ]} in
  let '(r1, store1) :=
    decode Demo.platform store (Str (js "614756736247383d"))
      (ArrayRef 1%positive) false in
  let '(r2, store2) :=
    decode Demo.platform store1 (Str (js "614756736247383d"))
      (ArrayRef 1%positive) false in
  r1 = decode_loop Demo.platform false (Str (js "614756736247383d"))
         (reverse [JString (js "base64"); JString (js "hex")])
  /\ r2 = decode_loop Demo.platform false (Str (js "614756736247383d"))
            [JString (js "base64"); JString (js "hex")]
  /\ store2 !! 1%positive = Some [JString (js "base64"); JString (js "hex")].
Proof.
  intros store.
  apply (decode_twice_restores_array Demo.platform store 1%positive
           [JString (js "base64"); JString (js "hex")]).
  reflexivity.
Defined.

End EncoderFacts.


Module SpecializedFacts.
Import Checksum Wrapper Generators Radix RadixProps Specialized.

Lemma digit36_range d :
  0 <= d < 36 ->
  (48 <= digit36 d <= 57 /\ d < 10) \/ (97 <= digit36 d <= 122 /\ 10 <= d).
Proof. intros Hd. unfold digit36. destruct (Z.ltb_spec d 10); lia. Qed.

Lemma digit_value_digit36 d : 0 <= d < 36 -> digit_value (digit36 d) = Some d.
Proof.
  intros Hd. unfold digit_value.
  destruct (digit36_range d Hd) as [[H _] | [H _]].
  - destruct (Z.leb_spec 48 (digit36 d)); [|lia].
    destruct (Z.leb_spec (digit36 d) 57); [|lia].
    cbn [andb]. f_equal. unfold digit36 in *. destruct (Z.ltb_spec d 10); lia.
  - destruct (Z.leb_spec 48 (digit36 d)); [|lia].
    destruct (Z.leb_spec (digit36 d) 57); [lia|].
    destruct (Z.leb_spec 97 (digit36 d)); [|lia].
    destruct (Z.leb_spec (digit36 d) 122); [|lia].
    cbn [andb]. f_equal. unfold digit36 in *. destruct (Z.ltb_spec d 10); lia.
Qed.

(** A tail that stops the reading of digits: nothing, or a dash and what
    follows. *)
Lemma radix_prefix_stops radix tail acc :
  tail = [] \/ (exists rest, tail = 45 :: rest) ->
  radix_prefix radix tail acc = acc.
Proof. intros [-> | (rest & ->)]; reflexivity. Qed.

Lemma radix_prefix_digits radix tail :
  2 <= radix <= 36 ->
  tail = [] \/ (exists rest, tail = 45 :: rest) ->
  forall ds acc,
    Forall (is_digit radix) ds ->
    radix_prefix radix (map digit36 ds ++ tail) acc
      = match ds with
        | [] => acc
        | _ => Some (fold_left (fun n d => n * radix + d) ds (default 0 acc))
        end.
Proof.
  intros Hr Htail. induction ds as [|d ds IH]; intros acc Hds.
  - apply radix_prefix_stops. exact Htail.
  - inversion Hds as [|? ? Hd Hds']; subst. unfold is_digit in Hd.
    cbn [map app radix_prefix]. rewrite digit_value_digit36 by lia.
    destruct (Z.ltb_spec d radix); [|lia].
    rewrite (IH _ Hds'). destruct ds; reflexivity.
Qed.

Lemma digit36_plain d :
  0 <= d < 36 ->
  is_str_white_space (digit36 d) = false
  /\ (digit36 d =? 45) = false /\ (digit36 d =? 43) = false
  /\ (d < 16 -> (digit36 d =? 120) = false /\ (digit36 d =? 88) = false).
Proof.
  intros Hd. pose proof (digit36_range d Hd) as Hr.
  assert (Hx : d < 16 -> digit36 d <= 102)
    by (unfold digit36; destruct (Z.ltb_spec d 10); lia).
  split; [|split; [|split]]; try (apply Z.eqb_neq; lia).
  - unfold is_str_white_space, is_white_space, is_line_terminator.
    repeat match goal with
           | |- context [?a =? ?b] =>
               destruct (Z.eqb_spec a b); [lia|]
           | |- context [?a <=? ?b] =>
               destruct (Z.leb_spec a b); [|]
           end; cbn [orb andb]; try reflexivity; lia.
  - intros Hlt. specialize (Hx Hlt). split; apply Z.eqb_neq; lia.
Qed.

Lemma parseInt_digits radix ds tail :
  2 <= radix <= 36 ->
  ds <> [] ->
  Forall (is_digit radix) ds ->
  tail = [] \/ (exists rest, tail = 45 :: rest) ->
  parseInt (map digit36 ds ++ tail) radix = Some (number_of radix ds).
Proof.
  intros Hr Hne Hds Htail. destruct ds as [|d ds]; [congruence|].
  pose proof (radix_prefix_digits radix tail Hr Htail (d :: ds) None Hds)
    as Hp.
  inversion Hds as [|? ? Hd Hds']; subst. unfold is_digit in Hd.
  destruct (digit36_plain d ltac:(lia)) as (Hws & H45 & H43 & _).
  unfold parseInt. cbn [map app trim_start] in Hp |- *.
  rewrite Hws, H45, H43.
  assert (Hstrip :
    match digit36 d :: map digit36 ds ++ tail with
    | c :: x :: r =>
        if (radix =? 16) && (c =? 48) && ((x =? 120) || (x =? 88))
        then r else digit36 d :: map digit36 ds ++ tail
    | _ => digit36 d :: map digit36 ds ++ tail
    end = digit36 d :: map digit36 ds ++ tail).
  { destruct ds as [|d2 ds]; cbn [map app].
    - destruct Htail as [-> | (rest & ->)]; [reflexivity|].
      cbn [Z.eqb orb]. rewrite andb_false_r. reflexivity.
    - destruct (Z.eqb_spec radix 16) as [->|]; [|reflexivity].
      inversion Hds' as [|? ? Hd2 _]; subst. unfold is_digit in Hd2.
      destruct (digit36_plain d2 ltac:(lia)) as (_ & _ & _ & Hx).
      destruct (Hx ltac:(lia)) as [-> ->]. rewrite andb_false_r.
      reflexivity. }
  rewrite Hstrip, Hp. unfold number_of. cbn [default].
  f_equal. lia.
Qed.

Lemma number_of_zeros radix k ds :
  number_of radix (replicate k 0 ++ ds) = number_of radix ds.
Proof.
  unfold number_of. rewrite fold_left_app. f_equal.
  induction k as [|k IH]; [reflexivity|]. cbn [replicate fold_left].
  rewrite Z.mul_0_l, Z.add_0_l. exact IH.
Qed.

(** The padded rendering of a non-negative number is a non-empty sequence
    of digits that writes this number. *)
Lemma padded_digits radix n pad :
  2 <= radix <= 36 -> 0 <= n ->
  exists ds,
    padStart0 (toStringRadix radix n) pad = map digit36 ds
    /\ ds <> []
    /\ Forall (is_digit radix) ds
    /\ number_of radix ds = n
    /\ (Z.to_nat pad <= length ds)%nat.
Proof.
  intros Hr Hn. unfold toStringRadix.
  destruct (Z.ltb_spec n 0); [lia|]. rewrite Z.abs_eq by lia.
  destruct (digits_spec radix n ltac:(lia) Hn) as [Hv Hd].
  set (ds0 := match digits radix n with [] => [0] | ds => ds end).
  assert (Hmag : match digits radix n with
                 | [] => [48]
                 | ds => map digit36 ds
                 end = map digit36 ds0)
    by (unfold ds0; destruct (digits radix n); reflexivity).
  assert (Hds0 : ds0 <> [] /\ Forall (is_digit radix) ds0
                 /\ number_of radix ds0 = n).
  { unfold ds0. destruct (digits radix n) as [|d ds] eqn:E.
    - split; [discriminate|]. split.
      + constructor; [unfold is_digit; lia | constructor].
      + rewrite <- Hv. reflexivity.
    - split; [discriminate|]. split; assumption. }
  destruct Hds0 as (Hne & Hrange & Hnum).
  rewrite Hmag. unfold padStart0.
  exists (replicate (Z.to_nat (pad - Z.of_nat (length (map digit36 ds0)))) 0
            ++ ds0).
  split; [|split; [|split; [|split]]].
  - rewrite map_app. f_equal.
    generalize (Z.to_nat (pad - Z.of_nat (length (map digit36 ds0)))).
    intros k. induction k as [|k IH]; [reflexivity|].
    cbn [replicate map]. rewrite <- IH. reflexivity.
  - destruct ds0; [congruence|]. intros H'. apply app_eq_nil in H' as [_ H'].
    discriminate.
  - apply Forall_app. split; [|exact Hrange].
    apply Forall_replicate. unfold is_digit. lia.
  - rewrite number_of_zeros. exact Hnum.
  - rewrite length_app, length_replicate, length_map. lia.
Qed.

Lemma unpadded radix n :
  toStringRadix radix n = padStart0 (toStringRadix radix n) 0.
Proof.
  unfold padStart0.
  replace (Z.to_nat (0 - Z.of_nat (length (toStringRadix radix n))))
    with 0%nat by lia.
  reflexivity.
Qed.

Lemma before_dash_digits ds tail :
  Forall (fun d => 0 <= d < 36) ds ->
  tail = [] \/ (exists rest, tail = 45 :: rest) ->
  before_dash (map digit36 ds ++ tail) = map digit36 ds.
Proof.
  intros Hds Htail. induction Hds as [|d ds Hd _ IH].
  - destruct Htail as [-> | (rest & ->)]; reflexivity.
  - cbn [map app before_dash].
    destruct (digit36_plain d Hd) as (_ & -> & _). rewrite IH. reflexivity.
Qed.

Lemma restore_adjust precision ts :
  restore precision (adjust precision ts)
    = ts / unit_of precision * unit_of precision.
Proof.
  unfold restore, adjust, unit_of.
  repeat (destruct (bool_decide _); [reflexivity|]).
  rewrite Z.div_1_r. lia.
Qed.

(** The radix and the padding width of each format. *)
Lemma formattedTime_cases format ts :
  exists radix pad,
    2 <= radix <= 36
    /\ formattedTime format ts = padStart0 (toStringRadix radix ts) pad
    /\ forall part,
         (if bool_decide (format = js "hex") then parseInt part 16
          else if bool_decide (format = js "b36") then parseInt part 36
          else parseInt part 10) = parseInt part radix.
Proof.
  unfold formattedTime.
  destruct (bool_decide (format = js "hex")).
  - exists 16, 12. split; [lia|]. split; reflexivity.
  - destruct (bool_decide (format = js "b36")).
    + exists 36, 8. split; [lia|]. split; reflexivity.
    + exists 10, 0. split; [lia|]. split; [apply unpadded | reflexivity].
Qed.

Lemma timestamp_of_formatted precision format n tail :
  0 <= n ->
  tail = [] \/ (exists rest, tail = 45 :: rest) ->
  fromTemporalToTimestamp (formattedTime format n ++ tail) precision format
    = inr (restore precision n).
Proof.
  intros Hn Htail.
  destruct (formattedTime_cases format n) as (radix & pad & Hr & -> & Hparse).
  destruct (padded_digits radix n pad Hr Hn)
    as (ds & -> & Hne & Hds & Hnum & _).
  unfold fromTemporalToTimestamp.
  assert (H36 : Forall (fun d => 0 <= d < 36) ds).
  { eapply Forall_impl; [exact Hds|]. unfold is_digit. intros; lia. }
  destruct ds as [|d ds]; [congruence|].
  pose proof (before_dash_digits (d :: ds) tail H36 Htail) as Hb.
  pose proof (parseInt_digits radix (d :: ds) [] Hr Hne Hds
                (or_introl eq_refl)) as Hp.
  rewrite app_nil_r in Hp. cbn [map app] in Hb, Hp |- *.
  rewrite Hb. cbv beta iota. rewrite Hparse, Hp, Hnum. reflexivity.
Qed.

Section Generators.
Context (P : Platform).
Variable random_index : nat -> Z -> Z.
Variable now : Z.

Lemma fromTemporal_reads_back ts precision suffix format k id :
  0 <= ts ->
  fromTemporal P random_index now ts precision suffix format k = Ok id ->
  fromTemporalToTimestamp id precision format
    = inr (ts / unit_of precision * unit_of precision).
Proof.
  intros Hts Hid. unfold fromTemporal in Hid.
  assert (Hadj : 0 <= adjust precision ts).
  { unfold adjust.
    repeat (destruct (bool_decide _); [apply Z.div_pos; lia|]). exact Hts. }
  rewrite <- restore_adjust.
  destruct suffix.
  - destruct (short P random_index now 6 k) as [sfx|e]; [|discriminate].
    injection Hid as <-. apply timestamp_of_formatted; [exact Hadj|].
    right. eexists. reflexivity.
  - injection Hid as <-.
    rewrite <- (app_nil_r (formattedTime format (adjust precision ts))).
    apply timestamp_of_formatted; [exact Hadj | left; reflexivity].
Qed.

(** X28. Reading back a temporal identifier: for a timestamp from 0 to
    2^53 - 1 (where JavaScript numbers are exact), whatever the precision,
    the format and the random suffix, [fromTemporalToTimestamp] applied to
    what [fromTemporal] returns (with the same precision and format) is the
    timestamp rounded
    down to a multiple of the precision, hence the timestamp itself for
    milliseconds; without suffix [fromTemporal] always returns. The same
    holds of [temporal] and the current time. *)
Theorem fromTemporal_roundtrip ts precision suffix format k :
  0 <= ts < 2 ^ 53 ->
  (forall id,
     fromTemporal P random_index now ts precision suffix format k = Ok id ->
     fromTemporalToTimestamp id precision format
       = inr (ts / unit_of precision * unit_of precision))
  /\ (suffix = false ->
      exists id,
        fromTemporal P random_index now ts precision suffix format k = Ok id)
  /\ (0 <= now < 2 ^ 53 ->
      forall id,
        temporal P random_index now precision suffix format k = Ok id ->
        fromTemporalToTimestamp id precision format
          = inr (now / unit_of precision * unit_of precision)).
Proof.
  intros [Hts _]. split; [|split].
  - intros id. apply fromTemporal_reads_back. exact Hts.
  - intros ->. eexists. reflexivity.
  - intros [Hnow _] id Hid.
    apply (fromTemporal_reads_back now precision suffix format k id Hnow).
    exact Hid.
Qed.

(** X29. A sequential identifier reads back: for a counter from 0 to
    2^53 - 1, what follows the prefix in the identifier has at least
    [padLength] characters and [parseInt] reads the counter from it, with
    or without the random suffix. *)
Theorem sequential_reads_back prefix counter padLength suffix k id :
  0 <= counter < 2 ^ 53 ->
  sequential P random_index now prefix counter padLength suffix k = Ok id ->
  exists rest,
    id = prefix ++ rest
    /\ parseInt rest 10 = Some counter
    /\ (Z.to_nat padLength <= length rest)%nat.
Proof.
  intros [Hc _] Hid. unfold sequential in Hid.
  destruct (padded_digits 10 counter padLength ltac:(lia) Hc)
    as (ds & Hpad & Hne & Hds & Hnum & Hlen).
  rewrite Hpad in Hid. destruct suffix.
  - destruct (short P random_index now 4 k) as [sfx|e]; [|discriminate].
    injection Hid as <-. exists (map digit36 ds ++ js "-" ++ sfx).
    split; [reflexivity|]. split.
    + rewrite parseInt_digits; [rewrite Hnum; reflexivity | lia | exact Hne
                               | exact Hds | right; eexists; reflexivity].
    + rewrite length_app, length_map. lia.
  - injection Hid as <-. exists (map digit36 ds).
    split; [reflexivity|]. split.
    + pose proof (parseInt_digits 10 ds [] ltac:(lia) Hne Hds
                    (or_introl eq_refl)) as Hp.
      rewrite app_nil_r in Hp. rewrite Hp, Hnum. reflexivity.
    + rewrite length_map. exact Hlen.
Qed.

End Generators.

Lemma fromTemporal_roundtrip_witness :
  fromTemporal Demo.platform (fun j n => Z.of_nat j mod n) 0
    1700000000123 (js "s") true (js "hex") 0 = Ok (js "00006553f100-abcdef")
  /\ fromTemporalToTimestamp (js "00006553f100-abcdef") (js "s") (js "hex")
     = inr 1700000000000.
Proof.
  split; [vm_compute; reflexivity|].
  apply (proj1 (fromTemporal_roundtrip Demo.platform
                  (fun j n => Z.of_nat j mod n) 0
                  1700000000123 (js "s") true (js "hex") 0%nat
                  ltac:(lia))).
  vm_compute. reflexivity.
Defined.

Lemma sequential_reads_back_witness :
  exists rest,
    js "ORD-0000001001-abcd" = js "ORD-" ++ rest
    /\ parseInt rest 10 = Some 1001
    /\ (Z.to_nat 10 <= length rest)%nat.
Proof.
  apply (sequential_reads_back Demo.platform (fun j n => Z.of_nat j mod n) 0
           (js "ORD-") 1001 10 true 0%nat (js "ORD-0000001001-abcd")).
  - lia.
  - vm_compute. reflexivity.
Defined.

End SpecializedFacts.

Module PatternFacts.
Import Generators Pattern.

Ltac eqb_literals :=
  repeat match goal with
         | |- context [Z.eqb ?a ?b] =>
             let v := eval vm_compute in (Z.eqb a b) in
             progress (change (Z.eqb a b) with v)
         end;
  cbn [orb andb].

(** X30. [generateFromPattern] keeps the length of the pattern and every
    character that is not a placeholder; with draws in range, each [X] and
    each [A] becomes an upper-case letter, each [9] a digit and each [a] a
    lower-case letter. *)
Theorem generateFromPattern_shape random_index pattern k :
  (forall j n, 0 < n -> 0 <= random_index j n < n) ->
  shaped pattern_class pattern (generateFromPattern random_index pattern k)
  /\ length (generateFromPattern random_index pattern k) = length pattern.
Proof.
  intros Hr.
  assert (Hs : forall pattern k,
             shaped pattern_class pattern
               (generateFromPattern random_index pattern k)).
  { clear pattern k. unfold shaped.
    induction pattern as [|c rest IH]; intros k; [constructor|].
    cbn [generateFromPattern]. unfold is_placeholder.
    pose proof (Hr k 26 ltac:(lia)) as H26.
    pose proof (Hr k 10 ltac:(lia)) as H10.
    destruct (Z.eqb_spec c 88) as [->|H88].
    { constructor; [|apply IH]. unfold pattern_class, replacement, fromCharCode.
      eqb_literals. rewrite Z.mod_small by lia. lia. }
    destruct (Z.eqb_spec c 57) as [->|H57].
    { constructor; [|apply IH]. unfold pattern_class, replacement, fromCharCode.
      eqb_literals. rewrite Z.mod_small by lia. lia. }
    destruct (Z.eqb_spec c 65) as [->|H65].
    { constructor; [|apply IH]. unfold pattern_class, replacement, fromCharCode.
      eqb_literals. rewrite Z.mod_small by lia. lia. }
    destruct (Z.eqb_spec c 97) as [->|H97].
    { constructor; [|apply IH]. unfold pattern_class, replacement, fromCharCode.
      eqb_literals. rewrite Z.mod_small by lia. lia. }
    cbn [orb]. constructor; [|apply IH]. unfold pattern_class.
    destruct (Z.eqb_spec c 88); [lia|]. destruct (Z.eqb_spec c 65); [lia|].
    destruct (Z.eqb_spec c 57); [lia|]. destruct (Z.eqb_spec c 97); [lia|].
    reflexivity. }
  split; [apply Hs|]. symmetry. exact (Forall2_length _ _ _ (Hs pattern k)).
Qed.

Lemma generateFromPattern_shape_witness :
  shaped pattern_class (js "XX-99-aa")
    (generateFromPattern (fun j n => Z.of_nat j mod n) (js "XX-99-aa") 0)
  /\ length (generateFromPattern (fun j n => Z.of_nat j mod n)
               (js "XX-99-aa") 0) = length (js "XX-99-aa").
Proof.
  apply (generateFromPattern_shape (fun j n => Z.of_nat j mod n)).
  intros j n Hn. apply Z.mod_pos_bound. exact Hn.
Defined.

End PatternFacts.


Module PipelineFacts.
Import Base64 Pipeline Examples Base64Props PipelineProps.

(** X27. [reverse] undoes [process] for a reversible pipeline without
    encoders. When the configuration text holds code units up to 255 only,
    the package's [encode(text, "base64")] is the standard base64 of it and
    [JSON.parse] reads back what [JSON.stringify] wrote, and either there is
    no compression and the input holds no colon, or the compression is
    "lz77" and the input holds code units up to 255 only: [process] returns
    an envelope and [reverse] of it is the input. *)
Theorem reverse_process_without_encoders (P : Platform)
    (p : EncodingPipeline) (s : jsstr) :
  isReversible p = true ->
  encoders p = [] ->
  Forall is_byte (JSON_stringify P (config_of p)) ->
  p_encode (lib P) (JSON_stringify P (config_of p)) (js "base64")
    = btoa (JSON_stringify P (config_of p)) ->
  JSON_parse P (JSON_stringify P (config_of p)) = Ok (config_of p) ->
  (compressionMethod p = js "none" /\ includes s 58 = false)
  \/ (compressionMethod p = js "lz77" /\ Forall is_byte s) ->
  exists envelope,
    process P p s = Ok envelope /\ reverse P envelope = Some (Str s).
Proof.
  intros Hrev Henc Htext Hpkg Hjson Hcomp.
  destruct (atob_btoa _ Htext) as (configStr & Hz & Ha & _).
  apply (reverse_process_roundtrip P p s s configStr).
  - exact Hrev.
  - unfold encodes_to. rewrite Henc. reflexivity.
  - unfold decodes_back. rewrite Henc. reflexivity.
  - split; [rewrite Hpkg; exact Hz|].
    split; [exact (btoa_no_colon _ _ Htext Hz)|].
    exists (JSON_stringify P (config_of p)). split; assumption.
  - exact Hcomp.
Qed.

Lemma reverse_process_without_encoders_witness :
  exists envelope,
    process Demo.platform lz77_only (js "abcabcabcabc") = Ok envelope
    /\ reverse Demo.platform envelope = Some (Str (js "abcabcabcabc")).
Proof.
  apply (reverse_process_without_encoders Demo.platform lz77_only
           (js "abcabcabcabc")).
  - reflexivity.
  - reflexivity.
  - apply Forall_forall. intros c Hc. unfold is_byte. vm_compute in Hc.
    repeat (apply elem_of_cons in Hc as [->|Hc]); try lia. inversion Hc.
  - vm_compute. reflexivity.
  - vm_compute. reflexivity.
  - right. split; [reflexivity|].
    apply Forall_forall. intros c Hc. unfold is_byte. vm_compute in Hc.
    repeat (apply elem_of_cons in Hc as [->|Hc]); try lia. inversion Hc.
Defined.

End PipelineFacts.
